(** * cdn-static-database: the n-gram index and the query planner

    A shallow embedding of [src/ngram.indice.ts], of the compiled copy of the
    same class kept in the repository (the file whose [spread] carries
    [chunkSizeMax] and whose [cursorAll] buffers its result), and of
    [src/db.ts], followed by the properties of these programs.

    Conventions of the embedding:
    - a JavaScript [Map] is an association list in insertion order with at
      most one entry per key ([JsMap]); the order is observable through
      [entries()], [keys()] and [forEach];
    - an [async] method is a state-passing function returning a [Res]ult
      together with the state it leaves behind; a rejected promise and a
      thrown exception are both [Throw]; that function is the call run to
      its end with no other call in between, and the queries of an index
      are also given as their two steps, before and after the [await], for
      calls that overlap;
    - counts and weights are integers ([Z]); the match threshold is a
      rational ([Q]) because [tokens.length * 40 / 100] need not be whole;
    - the order in which the racing shard promises settle is an explicit
      schedule, a list of shard positions. *)

From Stdlib Require Import List String Ascii Bool Arith ZArith QArith Lia
  DecimalString
  Permutation Sorted.
Import ListNotations.

Set Implicit Arguments.
Close Scope Q_scope.
Open Scope string_scope.
Open Scope list_scope.

(** ** Exceptions and the result of a fallible call *)

Inductive Error : Type :=
| LoadNotImplemented          (* Error("option load doesn't implemented") *)
| LoadRejected (reason : string) (* the promise of options.load rejected *)
| TypeError (msg : string)    (* raised by the JavaScript runtime *)
| LibraryError (msg : string). (* Error(msg) thrown by a library *)

Inductive Res (A : Type) : Type :=
| Ok (a : A)
| Throw (e : Error).
Arguments Ok {A} a.
Arguments Throw {A} e.

Definition bind {A B} (r : Res A) (k : A -> Res B) : Res B :=
  match r with
  | Ok a => k a
  | Throw e => Throw e
  end.

Notation "x <- c ;; k" := (bind c (fun x => k))
  (at level 61, c at next level, right associativity).

(** A fallible call on each element of an array, left to right. *)
Fixpoint res_map {A B} (f : A -> Res B) (l : list A) : Res (list B) :=
  match l with
  | [] => Ok []
  | a :: l' => b <- f a ;; bs <- res_map f l' ;; Ok (b :: bs)
  end.


(** ** Keys of a JavaScript Map

    [Map] compares keys with SameValueZero; [truthy] is the coercion of a
    key to a boolean, which [Array.prototype.filter] applies to the value
    its callback returns. *)

Class JsKey (T : Type) : Type := {
  key_eqb : T -> T -> bool;
  key_eqb_eq : forall a b, key_eqb a b = true <-> a = b;
  truthy : T -> bool
}.

#[export] Program Instance JsKey_Z : JsKey Z := {
  key_eqb := Z.eqb;
  truthy := fun z => negb (Z.eqb z 0)
}.
Next Obligation. apply Z.eqb_eq. Qed.

#[export] Program Instance JsKey_string : JsKey string := {
  key_eqb := String.eqb;
  truthy := fun s => negb (String.eqb s EmptyString)
}.
Next Obligation. apply String.eqb_eq. Qed.

(** ** JavaScript Map as an insertion-ordered association list *)

Module JsMap.
Section Ops.
Context {K V : Type} {JK : JsKey K}.

Definition t : Type := list (K * V).

Fixpoint get (k : K) (m : t) : option V :=
  match m with
  | [] => None
  | (k', v) :: m' => if key_eqb k k' then Some v else get k m'
  end.

(* [set] on an existing key keeps the position of the entry. *)
Fixpoint set (k : K) (v : V) (m : t) : t :=
  match m with
  | [] => [(k, v)]
  | (k', v') :: m' =>
      if key_eqb k k' then (k', v) :: m' else (k', v') :: set k v m'
  end.

Fixpoint delete (k : K) (m : t) : t :=
  match m with
  | [] => []
  | (k', v') :: m' =>
      if key_eqb k k' then m' else (k', v') :: delete k m'
  end.

Definition keys (m : t) : list K := map fst m.

(* [new Map(entries)] *)
Definition of_entries (l : list (K * V)) : t :=
  fold_left (fun m kv => set (fst kv) (snd kv) m) l [].
End Ops.
Arguments t : clear implicits.
End JsMap.

(** ** Strings: toLowerCase, split(" "), the n-gram library, sort order

    A string is a sequence of one-byte characters; [toLowerCase] folds the
    letters A to Z, and [<] compares character codes. *)

Definition lower_ascii (c : ascii) : ascii :=
  let n := nat_of_ascii c in
  if (65 <=? n)%nat && (n <=? 90)%nat then ascii_of_nat (n + 32) else c.

Fixpoint toLowerCase (s : string) : string :=
  match s with
  | EmptyString => EmptyString
  | String c s' => String (lower_ascii c) (toLowerCase s')
  end.

(* [cur] accumulates, reversed, the characters of the word being read. *)
Fixpoint rev_string (acc : string) (s : string) : string :=
  match s with
  | EmptyString => acc
  | String c s' => rev_string (String c acc) s'
  end.

Fixpoint split_from (cur : string) (s : string) : list string :=
  match s with
  | EmptyString => [rev_string EmptyString cur]
  | String c s' =>
      if Ascii.eqb c " "%char
      then rev_string EmptyString cur :: split_from EmptyString s'
      else split_from (String c cur) s'
  end.

(* [v.split(" ")] *)
Definition split_space (s : string) : list string :=
  split_from EmptyString s.

(* The function returned by [nGram(n)]: every contiguous slice of length
   [n], left to right; none when the word is shorter than [n]. *)
Definition nGram (n : positive) (word : string) : list string :=
  let g := Pos.to_nat n in
  map (fun i => substring i g word) (seq 0 (String.length word + 1 - g)).

(* The comparator of the [keys] getter, [a === b ? 0 : a < b ? -1 : 1]. *)
Fixpoint insert_sorted (k : string) (l : list string) : list string :=
  match l with
  | [] => [k]
  | k' :: l' => if String.leb k k' then k :: l else k' :: insert_sorted k l'
  end.

Definition sort_keys (l : list string) : list string :=
  fold_right insert_sorted [] l.

(* Template literal of a counter, [`${n}`]. *)
Definition string_of_nat (n : nat) : string :=
  NilEmpty.string_of_uint (Nat.to_uint n).

(** ** [src/ngram.indice.ts]: options, state and construction *)

Section NgramTypes.
Variable T : Type.

(** What the promise returned by [options.load(options)] settles to:
    [{ data }] or a rejection. *)
Inductive LoadOutcome : Type :=
| Resolved (data : list (string * list T))
| Rejected (reason : string).

(** The supplied [load] function is foreign code; [f n] is the outcome of
    its call number [n] (counted from 0) on this index. *)
Definition Loader : Type := nat -> LoadOutcome.

(** [interface IOptions]; [id] is always present once constructed. *)
Record IOptions : Type := mkIOptions {
  id : string;
  gramLen : positive;
  actuationLimit : Q;
  toLowcase : bool;
  actuationLimitAuto : bool;
  preTokenizr : option (string -> string);
  postTokenizr : option (string -> list string -> list string);
  isLoaded : bool;
  load : option Loader
}.

(** [Partial<IOptions>], the argument of the constructor. *)
Record PartialOptions : Type := mkPartial {
  p_id : option string;
  p_gramLen : option positive;
  p_actuationLimit : option Q;
  p_toLowcase : option bool;
  p_actuationLimitAuto : option bool;
  p_preTokenizr : option (string -> string);
  p_postTokenizr : option (string -> list string -> list string);
  p_isLoaded : option bool;
  p_load : option Loader
}.

(** What the field [indices] may hold at run time.  It is declared
    [Map<string, T[]>], but [deserialize] stores its [data: any] argument
    unconverted: the array of entries that [serializeData] returns, or any
    other object. *)
Inductive Indices : Type :=
| IMap (m : JsMap.t string (list T))
| IEntries (a : list (string * list T))
| IOpaque.

(** An instance of [class NgramIndice].  [loadCalls] is a ghost counter of
    the calls made to [options.load]. *)
Record NgramIndice : Type := mkIndice {
  indices : Indices;
  options : IOptions;
  loadCalls : nat
}.

(** [string | string[]] *)
Inductive Value : Type :=
| VString (s : string)
| VArray (l : list string).

(** The first argument of [deserialize], typed [any]. *)
Inductive Any : Type :=
| AUndefined
| AIndices (i : Indices)
| AOptions (p : PartialOptions).
End NgramTypes.

Arguments Rejected {T} reason.
Arguments IOpaque {T}.
Arguments AUndefined {T}.

Definition default {A} (d : A) (o : option A) : A :=
  match o with Some a => a | None => d end.

Definition CHUNK_SIZE_DEFAULT : nat := 100.
Definition AUTO_LIMIT_FIND_PERCENT : Z := 40.

Definition not_a_function (what : string) : Error :=
  TypeError (what ++ " is not a function").
Definition not_iterable : Error := TypeError "object is not iterable".

(** ** Async iterators

    One call of [next()] yields a batch, reports the end, rejects, or waits
    on a promise that never settles. *)

Inductive Step (B : Type) : Type :=
| Yield (batch : B)
| Done
| Raise (e : Error)
| Pending.
Arguments Done {B}.
Arguments Raise {B} e.
Arguments Pending {B}.

(** [for await (const batch of cursor)]: the batches up to the end of the
    iteration and the way it ended; [None] when [fuel] calls of [next] did
    not reach the end. *)
Fixpoint drain {S B} (next : S -> Step B * S) (fuel : nat) (st : S)
  : option (list B * Step B) :=
  match fuel with
  | O => None
  | S fuel' =>
      match next st with
      | (Yield b, st') =>
          match drain next fuel' st' with
          | Some (bs, last) => Some (b :: bs, last)
          | None => None
          end
      | (last, _) => Some ([], last)
      end
  end.

Module Ngram.
Section Class.
Context {T : Type} {JK : JsKey T}.

Local Abbreviation Index := (NgramIndice T).
Local Abbreviation Weights := (JsMap.t T Z).

(** An options object with no property at all, [{}]. *)
Definition no_options : PartialOptions T :=
  mkPartial None None None None None None None None None.

(** [constructor]: defaults for the absent properties; the two
    tokenizer hooks are not among the destructured properties and so are
    never copied.  [ctr] is the module variable [id_counter]. *)
Definition construct (p : PartialOptions T) (ctr : nat) : Index * nat :=
  let (i, ctr') :=
    match p_id p with
    | Some i => (i, ctr)
    | None => (string_of_nat ctr, S ctr)
    end in
  (mkIndice (IMap [])
     (mkIOptions i
        (default 3%positive (p_gramLen p))
        (default (2 # 1)%Q (p_actuationLimit p))
        (default true (p_toLowcase p))
        (default false (p_actuationLimitAuto p))
        None None
        (default true (p_isLoaded p))
        (p_load p))
     0,
   ctr').

Definition tokenizr (o : IOptions T) (value : string) : list string :=
  let v := match preTokenizr o with Some f => f value | None => value end in
  let v := if toLowcase o then toLowerCase v else v in
  let tokens := flat_map (nGram (gramLen o)) (split_space v) in
  match postTokenizr o with Some f => f value tokens | None => tokens end.

(** [Array.isArray(value) ? value.flatMap(v => this.tokenizr(v))
                          : this.tokenizr(value)] *)
Definition tokens_of (o : IOptions T) (value : Value) : list string :=
  match value with
  | VString s => tokenizr o s
  | VArray l => flat_map (tokenizr o) l
  end.

(** [getIndices(token, operator)]: [this.indices.get(token)]; the operator
    is not used. *)
Definition getIndices (ix : Indices T) (token : string)
  : Res (option (list T)) :=
  match ix with
  | IMap m => Ok (JsMap.get token m)
  | _ => Throw (not_a_function "this.indices.get")
  end.

(** The [tokens.forEach] of [add]; an exception leaves behind what the
    earlier tokens stored, but the only exception is raised by the first
    token, before anything is stored. *)
Fixpoint add_tokens (key : T) (tokens : list string) (ix : Indices T)
  : Res (Indices T) :=
  match tokens with
  | [] => Ok ix
  | token :: rest =>
      match ix with
      | IMap m =>
          let index := default [] (JsMap.get token m) in
          add_tokens key rest (IMap (JsMap.set token (index ++ [key]) m))
      | _ => Throw (not_a_function "this.indices.get")
      end
  end.

Definition add (s : Index) (key : T) (value : Value) : Res unit * Index :=
  match add_tokens key (tokens_of (options s) value) (indices s) with
  | Ok ix => (Ok tt, mkIndice ix (options s) (loadCalls s))
  | Throw e => (Throw e, s)
  end.

Definition set_loaded (o : IOptions T) : IOptions T :=
  mkIOptions (id o) (gramLen o) (actuationLimit o) (toLowcase o)
    (actuationLimitAuto o) (preTokenizr o) (postTokenizr o) true (load o).

(** [private async load()], run from the call to the settlement of the
    promise it returns with no other call on the index in between; the steps
    of the call, between which other calls may run, are [load_start] and
    [load_settle] below. *)
Definition load_ (s : Index) : Res unit * Index :=
  if isLoaded (options s) then (Ok tt, s)
  else
    match load (options s) with
    | Some f =>
        match f (loadCalls s) with
        | Resolved data =>
            (Ok tt,
             mkIndice (IMap (JsMap.of_entries data))
               (set_loaded (options s)) (S (loadCalls s)))
        | Rejected reason =>
            (Throw (LoadRejected reason),
             mkIndice (indices s) (options s) (S (loadCalls s)))
        end
    | None => (Throw LoadNotImplemented, s)
    end.

(** The body of [preFilter] after the load: one count per occurrence of a
    key in the posting list of each token. *)
Definition count_ids (ids : list T) (countResults : Weights) : Weights :=
  fold_left
    (fun acc id_ => JsMap.set id_ (default 0%Z (JsMap.get id_ acc) + 1)%Z acc)
    ids countResults.

Fixpoint count_tokens (ix : Indices T) (tokens : list string)
    (countResults : Weights) : Res Weights :=
  match tokens with
  | [] => Ok countResults
  | token :: rest =>
      found <- getIndices ix token ;;
      count_tokens ix rest
        match found with
        | Some ids => count_ids ids countResults
        | None => countResults
        end
  end.

Definition preFilter (s : Index) (tokens : list string)
  : Res Weights * Index :=
  match load_ s with
  | (Ok _, s') => (count_tokens (indices s') tokens [], s')
  | (Throw e, s') => (Throw e, s')
  end.

Definition getLimit (autoLimit : bool) (tokensLength : nat) (limit : Q) : Q :=
  if autoLimit
  then (inject_Z (Z.of_nat tokensLength) * inject_Z AUTO_LIMIT_FIND_PERCENT
        / inject_Z 100)%Q
  else limit.

Definition postFilter (o : IOptions T) (countResults : Weights)
    (tokens : list string) : list T :=
  let l := getLimit (actuationLimitAuto o) (List.length tokens)
             (actuationLimit o) in
  map fst (filter (fun e => Qle_bool l (inject_Z (snd e))) countResults).

Definition find (s : Index) (value : option Value) : Res (list T) * Index :=
  let tokens :=
    match value with
    | Some v => tokens_of (options s) v
    | None => []
    end in
  match preFilter s tokens with
  | (Ok preResult, s') => (Ok (postFilter (options s') preResult tokens), s')
  | (Throw e, s') => (Throw e, s')
  end.

(** *** The steps of an asynchronous query

    [load], [preFilter] and [find] are [async] functions: a call runs up
    to its first [await] and hands control back to its caller, and goes on
    when the awaited promise settles; calls made in between see and change
    the same index.  In [load] the test of [isLoaded] and the call of
    [options.load] come before the [await], the assignments to
    [this.indices] and [isLoaded] after it. *)

(** What a started call awaits: nothing when [isLoaded] was set, the
    promise of [options.load], or the exception [load] threw. *)
Inductive Awaited : Type :=
| AwaitNothing
| AwaitLoad (outcome : LoadOutcome T)
| AwaitFailure (e : Error).

(** [load()] up to its [await]. *)
Definition load_start (s : Index) : Awaited * Index :=
  if isLoaded (options s) then (AwaitNothing, s)
  else
    match load (options s) with
    | Some f =>
        (AwaitLoad (f (loadCalls s)),
         mkIndice (indices s) (options s) (S (loadCalls s)))
    | None => (AwaitFailure LoadNotImplemented, s)
    end.

(** [load()] from its [await] on, when the awaited promise has settled. *)
Definition load_settle (a : Awaited) (s : Index) : Res unit * Index :=
  match a with
  | AwaitNothing => (Ok tt, s)
  | AwaitLoad (Resolved data) =>
      (Ok tt,
       mkIndice (IMap (JsMap.of_entries data)) (set_loaded (options s))
         (loadCalls s))
  | AwaitLoad (Rejected reason) => (Throw (LoadRejected reason), s)
  | AwaitFailure e => (Throw e, s)
  end.

(** A query that has been started: the tokens it was given or computed,
    and what it awaits. *)
Record Started : Type := mkStarted {
  q_tokens : list string;
  q_awaited : Awaited
}.

(** [preFilter(tokens)] up to [await this.load()], and from there on. *)
Definition preFilter_start (s : Index) (tokens : list string)
  : Started * Index :=
  let (a, s') := load_start s in (mkStarted tokens a, s').

Definition preFilter_settle (p : Started) (s : Index)
  : Res Weights * Index :=
  match load_settle (q_awaited p) s with
  | (Ok _, s') => (count_tokens (indices s') (q_tokens p) [], s')
  | (Throw e, s') => (Throw e, s')
  end.

(** [find(value)] up to [await this.preFilter(tokens)], and from there
    on. *)
Definition find_start (s : Index) (value : option Value) : Started * Index :=
  preFilter_start s
    match value with
    | Some v => tokens_of (options s) v
    | None => []
    end.

Definition find_settle (p : Started) (s : Index) : Res (list T) * Index :=
  match preFilter_settle p s with
  | (Ok preResult, s') =>
      (Ok (postFilter (options s') preResult (q_tokens p)), s')
  | (Throw e, s') => (Throw e, s')
  end.

(** [const { load, ...options } = this.options; return options] *)
Definition serializeOptions (s : Index) : PartialOptions T :=
  let o := options s in
  mkPartial (Some (id o)) (Some (gramLen o)) (Some (actuationLimit o))
    (Some (toLowcase o)) (Some (actuationLimitAuto o))
    (preTokenizr o) (postTokenizr o) (Some (isLoaded o)) None.

(** [[...this.indices]] *)
Definition serializeData (s : Index) : Res (list (string * list T)) :=
  match indices s with
  | IMap m => Ok m
  | IEntries a => Ok a
  | IOpaque => Throw not_iterable
  end.

Definition serialize (s : Index)
  : Res (list (string * list T) * PartialOptions T) :=
  data <- serializeData s ;;
  Ok (data, serializeOptions s).

(** The properties the constructor finds on a value that is used as its
    argument: an object that is not an options object has none of them. *)
Definition as_options (a : Any T) : PartialOptions T :=
  match a with
  | AOptions p => p
  | _ => no_options
  end.

(** [static deserialize(data, options?)] *)
Definition deserialize (data : Any T) (opts : option (PartialOptions T))
    (ctr : nat) : Index * nat :=
  let (o, data') :=
    match opts with
    | Some o => (o, data)
    | None => (as_options data, AUndefined)
    end in
  let (index, ctr') := construct o ctr in
  (match data' with
   | AUndefined => index
   | AIndices ix => mkIndice ix (options index) (loadCalls index)
   | AOptions _ => mkIndice IOpaque (options index) (loadCalls index)
   end,
   ctr').

(** *** [spread] *)

(** [const { id, ...options } = this.options] *)
Definition options_without_id (o : IOptions T) : PartialOptions T :=
  mkPartial None (Some (gramLen o)) (Some (actuationLimit o))
    (Some (toLowcase o)) (Some (actuationLimitAuto o))
    (preTokenizr o) (postTokenizr o) (Some (isLoaded o)) (load o).

(** The variables [result], [size], [map] of [spread], with [id_counter]. *)
Record Spreading : Type := mkSpreading {
  result : list Index;
  size : nat;
  map_ : JsMap.t string (list T);
  counter : nat
}.

(** [result.push(NgramIndice.deserialize(map, options))] *)
Definition push_shard (opts : PartialOptions T) (st : Spreading)
  : Spreading :=
  let (shard, ctr') :=
    deserialize (AIndices (IMap (map_ st))) (Some opts) (counter st) in
  mkSpreading (result st ++ [shard]) (size st) (map_ st) ctr'.

(** [while (value.length) { ... }]; [splice(0, n)] takes [firstn n] and
    leaves [skipn n].  A loop that has not ended when [fuel] is used up
    yields [None]. *)
Fixpoint spread_while (fuel chunkSize : nat) (opts : PartialOptions T)
    (key : string) (value : list T) (st : Spreading) : option Spreading :=
  match value with
  | [] => Some st
  | _ :: _ =>
      match fuel with
      | O => None
      | S fuel' =>
          let n := chunkSize - size st in
          let st1 := mkSpreading (result st) (size st)
                       (JsMap.set key (firstn n value) (map_ st))
                       (counter st) in
          let st2 := push_shard opts st1 in
          spread_while fuel' chunkSize opts key (skipn n value)
            (mkSpreading (result st2) 0 [] (counter st2))
      end
  end.

(** The callback of [this.keys.forEach]. *)
Definition spread_key (fuel chunkSize : nat) (opts : PartialOptions T)
    (m : JsMap.t string (list T)) (key : string) (st : Spreading)
  : option Spreading :=
  let value := default [] (JsMap.get key m) in
  if (size st + List.length value <=? chunkSize)%nat
  then Some (mkSpreading (result st) (size st + List.length value)
               (JsMap.set key value (map_ st)) (counter st))
  else spread_while fuel chunkSize opts key value st.

Fixpoint spread_keys (fuel chunkSize : nat) (opts : PartialOptions T)
    (m : JsMap.t string (list T)) (keys : list string) (st : Spreading)
  : option Spreading :=
  match keys with
  | [] => Some st
  | key :: rest =>
      match spread_key fuel chunkSize opts m key st with
      | Some st' => spread_keys fuel chunkSize opts m rest st'
      | None => None
      end
  end.

(** [spread(chunkSize)], the argument given: [None] when a loop outlives
    [fuel]; the getter [keys] of an array of entries lists its positions,
    and looking one up with [get] throws. *)
Definition spread (fuel : nat) (s : Index) (chunkSize : nat) (ctr : nat)
  : option (Res (list Index * nat)) :=
  let opts := options_without_id (options s) in
  match indices s with
  | IMap m =>
      match spread_keys fuel chunkSize opts m (sort_keys (JsMap.keys m))
              (mkSpreading [] 0 [] ctr) with
      | Some st =>
          let st' := if (size st =? 0)%nat then st else push_shard opts st in
          Some (Ok (result st', counter st'))
      | None => None
      end
  | IEntries [] => Some (Ok ([], ctr))
  | IEntries (_ :: _) => Some (Throw (not_a_function "this.indices.get"))
  | IOpaque => Some (Throw (not_a_function "this.indices.keys"))
  end.

(** [spread()], with [chunkSize = CHUNK_SIZE_DEFAULT]. *)
Definition spread_default (fuel : nat) (s : Index) (ctr : nat)
  : option (Res (list Index * nat)) :=
  spread fuel s CHUNK_SIZE_DEFAULT ctr.

(** *** [findAll] *)

(** [indices.map((indice) => indice.preFilter(tokens, { operator }))]:
    every call is started, and each runs the load of its own shard. *)
Fixpoint preFilter_all (shards : list Index) (tokens : list string)
  : list (Res Weights) * list Index :=
  match shards with
  | [] => ([], [])
  | s :: rest =>
      let (r, s') := preFilter s tokens in
      let (rs, ss) := preFilter_all rest tokens in
      (r :: rs, s' :: ss)
  end.

(** [Promise.all]: the values in order, or the rejection (the model
    reports the one of the leftmost rejected promise). *)
Fixpoint promise_all {A} (l : list (Res A)) : Res (list A) :=
  match l with
  | [] => Ok []
  | r :: rest => a <- r ;; as_ <- promise_all rest ;; Ok (a :: as_)
  end.

(** [weights.forEach((value, key) => sum.set(key, (sum.get(key) || 0) + value))] *)
Definition merge_weights (sum weights : Weights) : Weights :=
  fold_left
    (fun acc e => JsMap.set (fst e) (default 0%Z (JsMap.get (fst e) acc) + snd e)%Z acc)
    weights sum.

Definition findAll (this : Index) (shards : list Index) (value : Value)
  : Res (list T) * list Index :=
  let tokens := tokens_of (options this) value in
  let (rs, shards') := preFilter_all shards tokens in
  (list_ <- promise_all rs ;;
   Ok (postFilter (options this) (fold_left merge_weights list_ []) tokens),
   shards').

(** *** [cursorAll] *)

(** The state captured by the iterator: [count], [$promises] (a settled
    promise, or [None] once replaced by [never]) and [combineWeights],
    with the constants [tokens] and [this.options] read by [postFilter].
    [sched] is the environment: the positions of the promises in the order
    in which they will win [Promise.race]. *)
Record Cursor : Type := mkCursor {
  count : nat;
  promises : list (option (Res Weights));
  combineWeights : Weights;
  tokens : list string;
  this_options : IOptions T;
  sched : list nat
}.

(** [$promises[index] = never] *)
Fixpoint set_never {A} (index : nat) (l : list (option A)) : list (option A) :=
  match l, index with
  | [], _ => []
  | _ :: l', O => None :: l'
  | x :: l', S i => x :: set_never i l'
  end.

(** [postFilter(combineWeights, tokens).filter(r => { combineWeights.delete(r); return r; })]
    followed by [reverse()]: every key that passes [postFilter] is deleted
    from the running map, and the filter keeps the keys that are truthy. *)
Definition take_batch (o : IOptions T) (toks : list string) (cw : Weights)
  : list T * Weights :=
  let hits := postFilter o cw toks in
  (rev (filter truthy hits),
   fold_left (fun m r => JsMap.delete r m) hits cw).

(** The [while (count > 0)] loop of [next()], by recursion on the
    schedule: each turn of the loop awaits one race. *)
Fixpoint next_loop (o : IOptions T) (toks : list string) (sch : list nat)
    (cnt : nat) (proms : list (option (Res Weights))) (cw : Weights)
  : Step (list T) * Cursor :=
  let here := mkCursor cnt proms cw toks o sch in
  match cnt with
  | O => (Done, here)
  | S cnt' =>
      match sch with
      | [] => (Pending, here)
      | index :: sch' =>
          match nth_error proms index with
          | Some (Some (Ok res)) =>
              let proms' := set_never index proms in
              let (subResult, cw') :=
                take_batch o toks (merge_weights cw res) in
              match subResult with
              | [] => next_loop o toks sch' cnt' proms' cw'
              | _ :: _ =>
                  (Yield subResult, mkCursor cnt' proms' cw' toks o sch')
              end
          | Some (Some (Throw e)) => (Raise e, here)
          | _ => (Pending, here)
          end
      end
  end.

Definition next (c : Cursor) : Step (list T) * Cursor :=
  next_loop (this_options c) (tokens c) (sched c) (count c) (promises c)
    (combineWeights c).

Definition cursorAll (this : Index) (shards : list Index) (value : Value)
    (schedule : list nat) : Cursor * list Index :=
  let toks := tokens_of (options this) value in
  let (rs, shards') := preFilter_all shards toks in
  (mkCursor (List.length shards) (map Some rs) [] toks (options this)
     schedule,
   shards').
End Class.
End Ngram.

(** ** The compiled copy of the class

    The repository also carries a compiled JavaScript build of
    [NgramIndice].  Its constructor, [add], [tokenizr], [load], [preFilter],
    [find], [postFilter], [serialize], [deserialize] and [findAll] are the
    ones above; its [spread] and [cursorAll] differ and are embedded here. *)

Module Compiled.
Section Class.
Context {T : Type} {JK : JsKey T}.

Local Abbreviation Index := (NgramIndice T).
Local Abbreviation Weights := (JsMap.t T Z).
Local Abbreviation Spreading := (@Ngram.Spreading T).

(** The callback of [this.keys.forEach].  [value] is the posting list of
    the parent itself, not a copy, so the [splice] calls of the loop empty
    the parent's list; [m] is the parent's map and is returned updated. *)
Definition spread_key (fuel chunkSize : nat) (opts : PartialOptions T)
    (key : string) (acc : Spreading * JsMap.t string (list T))
  : option (Spreading * JsMap.t string (list T)) :=
  let (st, m) := acc in
  let chunkSizeMax := chunkSize * 10 in
  let value := default [] (JsMap.get key m) in
  if (chunkSize <=? Ngram.size st)%nat then
    let st' := Ngram.push_shard opts st in
    Some (Ngram.mkSpreading (Ngram.result st') (List.length value)
            [(key, value)] (Ngram.counter st'),
          m)
  else if (chunkSizeMax <? Ngram.size st + List.length value)%nat then
    match Ngram.spread_while fuel chunkSizeMax opts key value st with
    | Some st' => Some (st', JsMap.set key [] m)
    | None => None
    end
  else
    Some (Ngram.mkSpreading (Ngram.result st)
            (Ngram.size st + List.length value)
            (JsMap.set key value (Ngram.map_ st)) (Ngram.counter st),
          m).

Fixpoint spread_keys (fuel chunkSize : nat) (opts : PartialOptions T)
    (keys : list string) (acc : Spreading * JsMap.t string (list T))
  : option (Spreading * JsMap.t string (list T)) :=
  match keys with
  | [] => Some acc
  | key :: rest =>
      match spread_key fuel chunkSize opts key acc with
      | Some acc' => spread_keys fuel chunkSize opts rest acc'
      | None => None
      end
  end.

(** [spread(chunkSize)]: the shards, [id_counter], and the parent as the
    call leaves it. *)
Definition spread (fuel : nat) (s : Index) (chunkSize : nat) (ctr : nat)
  : option (Res (list Index * nat) * Index) :=
  let opts := Ngram.options_without_id (options s) in
  match indices s with
  | IMap m =>
      match spread_keys fuel chunkSize opts (sort_keys (JsMap.keys m))
              (Ngram.mkSpreading [] 0 [] ctr, m) with
      | Some (st, m') =>
          let st' := if (Ngram.size st =? 0)%nat then st
                     else Ngram.push_shard opts st in
          Some (Ok (Ngram.result st', Ngram.counter st'),
                mkIndice (IMap m') (options s) (loadCalls s))
      | None => None
      end
  | IEntries [] => Some (Ok ([], ctr), s)
  | IEntries (_ :: _) => Some (Throw (not_a_function "this.indices.get"), s)
  | IOpaque => Some (Throw (not_a_function "this.indices.keys"), s)
  end.

(** The variables captured by the closures [load] and [next] of
    [cursorAll]; [sched] is the order in which the races are won. *)
Record Cursor : Type := mkCursor {
  count : nat;
  promises : list (option (Res Weights));
  subResults : list (option Weights);
  result : list T;
  isLoad : bool;
  allLoad : bool;
  tokens : list string;
  this_options : IOptions T;
  sched : list nat
}.

Definition chunkSize : nat := 20.

(** [let duplicates = new Set()]: nothing is ever added to it. *)
Definition duplicates : list T := [].

(** [subResults[index] = res] on an array that starts empty: the slots
    skipped over are holes. *)
Fixpoint set_slot {A} (index : nat) (a : A) (l : list (option A))
  : list (option A) :=
  match index, l with
  | O, [] => [Some a]
  | O, _ :: l' => Some a :: l'
  | S i, [] => None :: set_slot i a []
  | S i, x :: l' => x :: set_slot i a l'
  end.

(** [subResults.filter(e => !!e)] *)
Fixpoint filled {A} (l : list (option A)) : list A :=
  match l with
  | [] => []
  | Some a :: l' => a :: filled l'
  | None :: l' => filled l'
  end.

(** The [while (count)] loop of [load]; [None] when the awaited race never
    settles. *)
Fixpoint load_loop (o : IOptions T) (toks : list string) (sch : list nat)
    (cnt : nat) (proms : list (option (Res Weights)))
    (subs : list (option Weights)) (res : list T)
  : option (Res unit) * Cursor :=
  match cnt with
  | O => (Some (Ok tt), mkCursor cnt proms subs res true true toks o sch)
  | S cnt' =>
      let here := mkCursor cnt proms subs res true false toks o sch in
      match sch with
      | [] => (None, here)
      | index :: sch' =>
          match nth_error proms index with
          | Some (Some (Ok r)) =>
              let subs' := set_slot index r subs in
              let combineWeights :=
                fold_left Ngram.merge_weights (filled subs') [] in
              let subResult :=
                rev (filter
                       (fun r_ => negb (existsb (key_eqb r_) duplicates))
                       (Ngram.postFilter o combineWeights toks)) in
              load_loop o toks sch' cnt' (Ngram.set_never index proms)
                subs' (subResult ++ res)
          | Some (Some (Throw e)) => (Some (Throw e), here)
          | _ => (None, here)
          end
      end
  end.

Definition load_ (c : Cursor) : option (Res unit) * Cursor :=
  if isLoad c then (Some (Ok tt), c)
  else load_loop (this_options c) (tokens c) (sched c) (count c)
         (promises c) (subResults c) (result c).

(** [next()]; [result.splice(-n, n)] removes and returns the last [n]
    elements. *)
Definition next (c : Cursor) : Step (list T) * Cursor :=
  if allLoad c then (Done, c)
  else
    match load_ c with
    | (Some (Ok _), c') =>
        let currentChunkSize := Nat.min chunkSize (List.length (result c')) in
        let keep := List.length (result c') - currentChunkSize in
        (Yield (skipn keep (result c')),
         mkCursor (count c') (promises c') (subResults c')
           (firstn keep (result c')) (isLoad c') (allLoad c') (tokens c')
           (this_options c') (sched c'))
    | (Some (Throw e), c') => (Raise e, c')
    | (None, c') => (Pending, c')
    end.

Definition cursorAll (this : Index) (shards : list Index) (value : Value)
    (schedule : list nat) : Cursor * list Index :=
  let toks := Ngram.tokens_of (options this) value in
  let (rs, shards') := Ngram.preFilter_all shards toks in
  (mkCursor (List.length shards) (map Some rs) [] [] false false toks
     (options this) schedule,
   shards').
End Class.
End Compiled.

(** ** [src/db.ts]: criteria, schema and plans *)

Module Db.

(** A criteria tree ([RawObject]) and the records of the collection: JSON
    values.  The entries of an object are listed in the order in which
    [Object.entries] enumerates them, each key once.  Sub-objects are not
    shared between two places of a tree. *)
#[warnings="-register-all"] Inductive JValue : Type :=
| JNull
| JBool (b : bool)
| JNum (z : Z)
| JStr (s : string)
| JArr (l : list JValue)
| JObj (o : list (string * JValue)).

Definition isArray (v : JValue) : bool :=
  match v with JArr _ => true | _ => false end.

Definition isObject (v : JValue) : bool :=
  match v with JObj _ => true | _ => false end.

Definition comparableOperators : list string :=
  ["$eq"; "$gt"; "$gte"; "$in"; "$lt"; "$lte"; "$ne"; "$nin"; "$regex"].

Definition logicalOperators : list string := ["$and"; "$or"].

(** [set.has(key)] *)
Definition has (set : list string) (key : string) : bool :=
  existsb (String.eqb key) set.

(** No [null] stands anywhere in the value. *)
Fixpoint null_free (v : JValue) : bool :=
  match v with
  | JNull => false
  | JArr l => forallb null_free l
  | JObj o =>
      forallb (fun e : string * JValue => let (_, x) := e in null_free x) o
  | _ => true
  end.


(** An index instance is known to the planner by its identity only. *)
Definition IndexId : Type := nat.

#[export] Program Instance JsKey_IndexId : JsKey IndexId := {
  key_eqb := Nat.eqb;
  truthy := fun _ => true
}.
Next Obligation. apply Nat.eqb_eq. Qed.

(** [1 | -1] *)
Inductive Order : Type := Asc | Desc.

(** [IIndiceOption] of [./schema], with the properties the planner adds. *)
Record IIndiceOption : Type := mkOption {
  indice : IndexId;
  path : option string;
  value : option JValue;
  op : option string;
  order : option Order
}.

Record Schema : Type := mkSchema {
  idAttr : string;
  primaryIndice : IndexId;
  indices : list IIndiceOption
}.

Record Db : Type := mkDb {
  schema : Schema;
  customOperators : list string
}.

Definition startsWith_dollar (s : string) : bool :=
  match s with
  | String c _ => Ascii.eqb c "$"%char
  | EmptyString => false
  end.

Fixpoint paths_of (l : list IIndiceOption) : list string :=
  match l with
  | [] => []
  | o :: l' =>
      match path o with
      | Some p => p :: paths_of l'
      | None => paths_of l'
      end
  end.

(** [constructor(schema)] *)
Definition new_Db (s : Schema) : Db :=
  mkDb s
    (filter (fun p => negb (has logicalOperators p))
       (filter (fun p => negb (has comparableOperators p))
          (filter startsWith_dollar (paths_of (indices s))))).

(** The streams a plan hands to the executor, as the calls that build them:
    [indice.cursor(value, { operator, sort })], the wrapper that
    [indiceCursor] puts around the cursor of the primary index (it stores
    every record it passes in [caches]), and the two combinators of
    [./utils]. *)
#[warnings="-register-all"] Inductive Stream : Type :=
| Cursor (i : IndexId) (v : option JValue) (operator : string) (sort : Order)
| CachingCursor (i : IndexId) (v : option JValue) (operator : string)
    (sort : Order)
| intersectAsyncIterable (l : list Stream)
| combineAsyncIterable (l : list Stream).

(** [ResultIndiceSearch]; the field [caches] is the one map created by the
    root call and is left to the semantics of the streams. *)
Record ResultIndiceSearch : Type := mkResult {
  result : Stream;
  missed : bool;
  greed : bool;
  paths : list (option string)
}.

(** The closure returned by [buildIndexSearch], as the variables it
    captures. *)
#[warnings="-register-all"] Inductive Plan : Type :=
| mkPlan (indices_ : JsMap.t IndexId IIndiceOption)
    (sortIndices : JsMap.t IndexId IIndiceOption)
    (subIterables : list Plan) (greed_ : bool) (isRoot : bool).

Definition option_string_eqb (a b : option string) : bool :=
  match a, b with
  | Some x, Some y => String.eqb x y
  | None, None => true
  | _, _ => false
  end.

(** [new Set(list)]: the first occurrence of each element. *)
Fixpoint to_set (l : list (option string)) (seen : list (option string))
  : list (option string) :=
  match l with
  | [] => []
  | x :: l' =>
      if existsb (option_string_eqb x) seen then to_set l' seen
      else x :: to_set l' (x :: seen)
  end.

Section Planner.
(** [isOperator] of [mingo/util] and the [testIndice] method of the index
    instances are foreign code. *)
Variable isOperator : string -> bool.
Variable indice_testIndice : IndexId -> string -> JValue -> bool.
Variable this : Db.

(** [private indiceCursor]; [operator = '$eq'] and [sort = 1] when absent;
    the [chunkSize] it is passed, [(limit || 0) + (skip || 0)], is not
    read. *)
Definition indiceCursor (o : IIndiceOption) : Stream :=
  let operator := default "$eq" (op o) in
  let sort := default Asc (order o) in
  if Nat.eqb (primaryIndice (schema this)) (indice o)
  then CachingCursor (indice o) (value o) operator sort
  else Cursor (indice o) (value o) operator sort.

(** [private testIndice] *)
Definition testIndice (o : IIndiceOption) (key : string) (v : JValue)
    (path_ : option string) : bool :=
  option_string_eqb (path o) path_ && indice_testIndice (indice o) key v.

(** The closure body, lines 119-154. *)
Fixpoint invoke (p : Plan) : ResultIndiceSearch :=
  match p with
  | mkPlan indices_ sortIndices subIterables greed_ isRoot =>
      let values := map snd indices_ in
      let simpleIterable := map indiceCursor values in
      let subResult := map invoke subIterables in
      let subGreed := forallb greed subResult in
      let missed_ := forallb missed subResult in
      let subIterable := map result subResult in
      let subPaths := to_set (flat_map paths subResult) [] in
      let paths_ := to_set (map path values ++ subPaths) [] in
      let sortedIterable :=
        map indiceCursor
          (filter
             (fun o => negb (existsb (option_string_eqb (path o)) paths_)
                       && isRoot)
             (map snd sortIndices)) in
      let missedAll :=
        Nat.eqb (List.length sortedIterable) 0
        && Nat.eqb (List.length indices_) 0
        && missed_ in
      let greedAll := greed_ && subGreed in
      mkResult
        (intersectAsyncIterable
           (simpleIterable ++ sortedIterable ++ subIterable))
        missedAll greedAll paths_
  end.

(** [{ [k: string]: 1 | -1 }] *)
Definition SortSpec : Type := list (string * Order).

(** [this.schema.indices.find(o => o.path === key)] *)
Definition find_path (key : string) : option IIndiceOption :=
  List.find (fun o => option_string_eqb (path o) (Some key))
    (indices (schema this)).

(** Lines 51-61: [sortIndices] and the local [greed]. *)
Definition sort_setup (sort : option SortSpec)
  : JsMap.t IndexId IIndiceOption * bool :=
  match sort with
  | Some entries =>
      fold_left
        (fun acc e =>
           match find_path (fst e) with
           | Some i =>
               (JsMap.set (indice i)
                  (mkOption (indice i) (path i) (value i) (op i)
                     (Some (snd e)))
                  (fst acc),
                false)
           | None => acc
           end)
        entries ([], true)
  | None => ([], false)
  end.

Definition or_else {A} (a b : option A) : option A :=
  match a with Some _ => a | None => b end.

(** [{ ...exists, ...indiceOptions, value, op }] *)
Definition staged (exists_ : option IIndiceOption) (o : IIndiceOption)
    (v : JValue) (operator : string) : IIndiceOption :=
  match exists_ with
  | Some e =>
      mkOption (indice o) (or_else (path o) (path e)) (Some v)
        (Some operator) (or_else (order o) (order e))
  | None => mkOption (indice o) (path o) (Some v) (Some operator) (order o)
  end.

(** One entry of [Object.entries(criteria)] with the two recursive calls
    that the loop body may make on its value: on each element of an array
    (line 66) and on the value itself (line 110). *)
Record Clause : Type := mkClause {
  key : string;
  value_ : JValue;
  subCriteria : unit -> Res (list (Plan * JValue));
  nested : unit -> Res (Plan * JValue)
}.

(** [indices], [subIterables] and the entries that [criteria] holds once
    the clauses read so far have been compiled. *)
Record Building : Type := mkBuilding {
  b_indices : JsMap.t IndexId IIndiceOption;
  b_subIterables : list Plan;
  b_criteria : list (string * JValue)
}.

Definition keep (k : string) (v : JValue) (st : Building) : Building :=
  mkBuilding (b_indices st) (b_subIterables st) (b_criteria st ++ [(k, v)]).

Definition stage (o : IIndiceOption) (st : Building) : Building :=
  mkBuilding (JsMap.set (indice o) o (b_indices st)) (b_subIterables st)
    (b_criteria st).

(** The comparison-operator branch, lines 103-108. *)
Definition operator_clause (sortIndices : JsMap.t IndexId IIndiceOption)
    (path_ : option string) (k : string) (v : JValue) (st : Building)
  : Building :=
  match List.find (fun o => testIndice o k v path_) (indices (schema this)) with
  | Some indiceOptions =>
      stage (staged (JsMap.get (indice indiceOptions) sortIndices)
               indiceOptions v k) st
  | None => st
  end.

(** The body of the loop over [Object.entries(criteria)], lines 64-117.
    In the first branch the sub-criteria are compiled, and the arrow
    function of lines 68-92, which would combine them and push the
    combination on [subIterables], is an expression statement: it is
    built and dropped, never called. *)
Definition compile_clause (sortIndices : JsMap.t IndexId IIndiceOption)
    (path_ : option string) (c : Clause) (st : Building) : Res Building :=
  let k := key c in
  let v := value_ c in
  if has logicalOperators k && isArray v then
    subIt <- subCriteria c tt ;;
    Ok (keep k (JArr (map snd subIt)) st)
  else if has (customOperators this) k then
    let fullTextIndice :=
      last (map Some
              (filter (fun i => option_string_eqb (path i) (Some k))
                 (indices (schema this))))
           None in
    Ok match fullTextIndice with
       | Some i =>
           stage (mkOption (indice i) (path i) (Some v) (op i) (order i)) st
       | None => st
       end
  else if isOperator k then
    Ok (keep k v (operator_clause sortIndices path_ k v st))
  else if isObject v then
    r <- nested c tt ;;
    Ok (keep k (snd r)
          (mkBuilding (b_indices st) (b_subIterables st ++ [fst r])
             (b_criteria st)))
  else
    Ok (keep k v
          match find_path k with
          | Some indiceOptions =>
              stage (staged (JsMap.get (indice indiceOptions) sortIndices)
                       indiceOptions v "$eq") st
          | None => st
          end).

Fixpoint compile_clauses (sortIndices : JsMap.t IndexId IIndiceOption)
    (path_ : option string) (cs : list Clause) (st : Building)
  : Res Building :=
  match cs with
  | [] => Ok st
  | c :: cs' =>
      st' <- compile_clause sortIndices path_ c st ;;
      compile_clauses sortIndices path_ cs' st'
  end.

Definition no_plan : Plan := mkPlan [] [] [] false false.

(** The entries of a string are its characters under their positions; a
    character is neither an array nor an object, so the two recursive
    calls of its clause are never made. *)
Fixpoint char_clauses (i : nat) (s : string) : list Clause :=
  match s with
  | EmptyString => []
  | String c s' =>
      mkClause (string_of_nat i) (JStr (String c EmptyString))
        (fun _ => Ok []) (fun _ => Ok (no_plan, JStr (String c EmptyString)))
      :: char_clauses (S i) s'
  end.

(** What [criteria] is after the loop: its entries as the loop left them. *)
Definition rebuild (criteria : JValue) (entries : list (string * JValue))
  : JValue :=
  match criteria with
  | JObj _ => JObj entries
  | JArr _ => JArr (map snd entries)
  | _ => criteria
  end.

(** The clause of an entry: the call of line 66 compiles each element of
    an array value with no path, the call of line 110 compiles the value
    itself under the path [k]; [compile] is [buildIndexSearch] with the
    [sort], [skip] and [limit] of the caller and [isRoot: false]. *)
Definition clause_of (compile : option string -> JValue -> Res (Plan * JValue))
    (k : string) (v : JValue) : Clause :=
  mkClause k v
    (fun _ =>
       match v with
       | JArr l => res_map (compile None) l
       | _ => Ok []
       end)
    (fun _ => compile (Some k) v).

Definition object_clauses
    (compile : option string -> JValue -> Res (Plan * JValue))
    (entries : list (string * JValue)) : list Clause :=
  map (fun e => clause_of compile (fst e) (snd e)) entries.

(** The entries of an array are its elements under their positions. *)
Fixpoint array_clauses
    (compile : option string -> JValue -> Res (Plan * JValue))
    (i : nat) (elements : list JValue) : list Clause :=
  match elements with
  | [] => []
  | v :: rest =>
      clause_of compile (string_of_nat i) v :: array_clauses compile (S i) rest
  end.

(** [buildIndexSearch(criteria, sort, skip, limit, context)]: the plan and
    the criteria as the call leaves it.  [path_] and [isRoot] are those of
    [context]; the root call has none and is root.  [Object.entries]
    enumerates the entries of an object, the elements of an array under
    their positions, the characters of a string, nothing for a number or
    a boolean, and throws for [null].  When the call throws, the model
    does not say how far the criteria had been rewritten. *)
Fixpoint buildIndexSearch (sort : option SortSpec) (skip : nat)
    (limit : option nat) (path_ : option string) (isRoot : bool)
    (criteria : JValue) {struct criteria} : Res (Plan * JValue) :=
  let (sortIndices, greed_) := sort_setup sort in
  let compile := fun p c => buildIndexSearch sort skip limit p false c in
  match criteria with
  | JNull => Throw (TypeError "Cannot convert undefined or null to object")
  | _ =>
      let clauses :=
        match criteria with
        | JObj entries => object_clauses compile entries
        | JArr elements => array_clauses compile 0 elements
        | JStr s => char_clauses 0 s
        | _ => []
        end in
      st <- compile_clauses sortIndices path_ clauses (mkBuilding [] [] []) ;;
      Ok (mkPlan (b_indices st) sortIndices (b_subIterables st) greed_ isRoot,
          rebuild criteria (b_criteria st))
  end.

(** *** [find] *)

(** [mingo.Query] (its constructor may reject the criteria; [test] is the
    predicate matcher), the sort stage of a mingo cursor, the batches of
    [primaryIndice.cursor()], and the branch of [find] that drains the
    merged stream of a plan that is not missed (lines 179-231, which run
    the combinators of [./utils] and the cursors of the indices). *)
Variable mingo_Query : JValue -> Res (JValue -> bool).
Variable mingo_sort : SortSpec -> list JValue -> list JValue.
Variable primary_cursor : list (list JValue).
Variable scan_indexed :
  ResultIndiceSearch -> (JValue -> bool) -> nat -> option nat ->
  Res (list JValue).

(** [limit && i === limit && !search.greed] *)
Definition isEnough (limit : option nat) (greed_ : bool) (i : nat) : bool :=
  match limit with
  | Some l => negb (Nat.eqb l 0) && Nat.eqb i l && negb greed_
  | None => false
  end.

(** The inner loop of the missed branch, lines 169-177; [break] leaves
    this loop only. *)
Fixpoint scan_values (test : JValue -> bool) (skip : nat)
    (limit : option nat) (greed_ : bool) (values : list JValue)
    (acc : nat * list JValue) : nat * list JValue :=
  match values with
  | [] => acc
  | v :: values' =>
      let (i, res) := acc in
      if test v && (skip <=? i)%nat then
        let i' := S i in
        let res' := res ++ [v] in
        if isEnough limit greed_ i' then (i', res')
        else scan_values test skip limit greed_ values' (i', res')
      else scan_values test skip limit greed_ values' acc
  end.

(** [for await (const values of primaryIndice.cursor())], lines 168-178. *)
Definition scan_primary (test : JValue -> bool) (skip : nat)
    (limit : option nat) (greed_ : bool) : list JValue :=
  snd (fold_left
         (fun acc values => scan_values test skip limit greed_ values acc)
         primary_cursor (0, [])).

(** Lines 232-244; the stages are applied in the order of the calls. *)
Definition finalize (sort : option SortSpec) (skip : nat)
    (limit : option nat) (greed_ : bool) (res : list JValue)
  : list JValue :=
  let res :=
    match sort with
    | Some s => if greed_ then mingo_sort s res else res
    | None => res
    end in
  let res :=
    match limit with
    | Some l => if negb (Nat.eqb l 0) && greed_ then firstn l res else res
    | None => res
    end in
  if negb (Nat.eqb skip 0) && greed_ then skipn skip res else res.

(** [find(criteria, sort, skip = 0, limit)]: the records returned and the
    criteria object as the call leaves it. *)
Definition find (criteria : JValue) (sort : option SortSpec)
    (skip : option nat) (limit : option nat) : Res (list JValue * JValue) :=
  let skip_ := default 0 skip in
  built <- buildIndexSearch sort skip_ limit None true criteria ;;
  let search := invoke (fst built) in
  let criteria' := snd built in
  test <- mingo_Query criteria' ;;
  res <- (if missed search
          then Ok (scan_primary test skip_ limit (greed search))
          else scan_indexed search test skip_ limit) ;;
  Ok (finalize sort skip_ limit (greed search) res, criteria').
End Planner.
End Db.

(** ** The operations of an index, for the frame property

    An operation acts on the index it is called on and, for [findAll] and
    [cursorAll], on the shards it is given. *)

Section Operations.
Context {T : Type} {JK : JsKey T}.

Inductive Operation : Type :=
| OpAdd (key_ : T) (v : Value)
| OpFind (v : option Value)
| OpPreFilter (toks : list string)
| OpPostFilter (countResults : JsMap.t T Z) (toks : list string)
| OpFindAll (shards : list (NgramIndice T)) (v : Value)
| OpCursorAll (shards : list (NgramIndice T)) (v : Value)
    (schedule : list nat)
| OpSpread (fuel chunkSize ctr : nat)
| OpCompiledSpread (fuel chunkSize ctr : nat)
| OpSerialize
| OpLoad.

(** The indices an operation is applied to, before it runs. *)
Definition touched (op : Operation) (s : NgramIndice T)
  : list (NgramIndice T) :=
  match op with
  | OpFindAll shards _ | OpCursorAll shards _ _ => s :: shards
  | _ => [s]
  end.

(** The same indices once the operation has run; [postFilter], [serialize]
    and the [spread] of the TypeScript source only read. *)
Definition after (op : Operation) (s : NgramIndice T)
  : list (NgramIndice T) :=
  match op with
  | OpAdd k v => [snd (Ngram.add s k v)]
  | OpFind v => [snd (Ngram.find s v)]
  | OpPreFilter toks => [snd (Ngram.preFilter s toks)]
  | OpPostFilter _ _ => [s]
  | OpFindAll shards v => s :: snd (Ngram.findAll s shards v)
  | OpCursorAll shards v schedule =>
      s :: snd (Ngram.cursorAll s shards v schedule)
  | OpSpread _ _ _ => [s]
  | OpCompiledSpread fuel chunkSize ctr =>
      match Compiled.spread fuel s chunkSize ctr with
      | Some (_, s') => [s']
      | None => [s]
      end
  | OpSerialize => [s]
  | OpLoad => [snd (Ngram.load_ s)]
  end.

(** [o'] is [o], or [o] with [isLoaded] switched from [false] to [true]. *)
Definition kept_but_isLoaded (o o' : IOptions T) : Prop :=
  o' = o \/ (isLoaded o = false /\ o' = Ngram.set_loaded o).

(** The index as a successful load leaves it. *)
Definition loaded_with (data : list (string * list T)) (s : NgramIndice T)
  : NgramIndice T :=
  mkIndice (IMap (JsMap.of_entries data)) (Ngram.set_loaded (options s))
    (S (loadCalls s)).
End Operations.

(** ** Concrete indices *)

Definition lazy_options (f : option (Loader Z)) : PartialOptions Z :=
  mkPartial None None None None None None None (Some false) f.

(** [new NgramIndice({ isLoaded: false })] *)
Definition lazy_without_load : NgramIndice Z :=
  fst (Ngram.construct (lazy_options None) 1).

(** A lazy index whose load resolves to two posting lists. *)
Definition lazy_resolving : NgramIndice Z :=
  fst (Ngram.construct
         (lazy_options
            (Some (fun _ => Resolved [("abc", [1%Z]); ("bcd", [1%Z])]))) 1).

(** A lazy index whose load rejects. *)
Definition lazy_rejecting : NgramIndice Z :=
  fst (Ngram.construct
         (lazy_options (Some (fun _ => Rejected "offline"))) 1).

(** [new NgramIndice()] after [add(1, "abcd")]. *)
Definition abcd_index : NgramIndice Z :=
  snd (Ngram.add (fst (Ngram.construct Ngram.no_options 1)) 1%Z
         (VString "abcd")).

(** ** Restoring a serialized index

    The options under which a serialized index is restored lazily: the
    serialized options, marked not loaded, with a load function that
    resolves to the serialized data. *)
Definition restore_options {T} (data : list (string * list T))
    (p : PartialOptions T) : PartialOptions T :=
  mkPartial (p_id p) (p_gramLen p) (p_actuationLimit p) (p_toLowcase p)
    (p_actuationLimitAuto p) (p_preTokenizr p) (p_postTokenizr p)
    (Some false) (Some (fun _ => Resolved data)).

(** ** A concrete database

    Two secondary indices, one bound to the custom operator [$text] and one
    to the field [continent], as in the tests of the repository; the
    foreign functions are fixed to simple ones: an operator is a key that
    starts with a dollar, every index accepts every operator, the matcher
    accepts every record (as the one of the criteria [{}] does), the sort
    stage keeps the order, and the indexed scan finds nothing. *)

Module Sample.
Import Db.

Definition text_schema : Schema :=
  mkSchema "id" 0
    [mkOption 1 (Some "$text") None None None;
     mkOption 2 (Some "continent") None None None].

Definition bare_schema : Schema := mkSchema "id" 0 [].

Definition accepts_all : IndexId -> string -> JValue -> bool :=
  fun _ _ _ => true.

Definition match_all : JValue -> Res (JValue -> bool) :=
  fun _ => Ok (fun _ => true).

Definition keep_order : list (string * Order) -> list JValue -> list JValue :=
  fun _ l => l.

Definition nothing_indexed
  : ResultIndiceSearch -> (JValue -> bool) -> nat -> option nat ->
    Res (list JValue) :=
  fun _ _ _ _ => Ok [].

Definition record (n : Z) : JValue := JObj [("id", JNum n)].

(** [db.find(criteria, sort, skip, limit)] on a database without secondary
    index whose primary cursor yields [batches]. *)
Definition find_bare (batches : list (list JValue)) :=
  find startsWith_dollar accepts_all (new_Db bare_schema) match_all keep_order
    batches nothing_indexed.

(** [buildIndexSearch(criteria)()] at the root, no sort, on the database
    without secondary index. *)
Definition search_bare (criteria : JValue) : Res ResultIndiceSearch :=
  built <- buildIndexSearch startsWith_dollar accepts_all (new_Db bare_schema)
             None 0 None None true criteria ;;
  Ok (invoke (new_Db bare_schema) (fst built)).

(** [buildIndexSearch(criteria)] at the root, no sort, on the database of
    the two indices. *)
Definition compile_text (criteria : JValue) : Res (Plan * JValue) :=
  buildIndexSearch startsWith_dollar accepts_all (new_Db text_schema) None 0
    None None true criteria.

(** [buildIndexSearch(criteria)()] *)
Definition search_text (criteria : JValue) : Res ResultIndiceSearch :=
  built <- compile_text criteria ;;
  Ok (invoke (new_Db text_schema) (fst built)).

(** The call of line 66 on one sub-criteria, and the plan it returns run. *)
Definition search_sub (subCriteria_ : JValue) : Res ResultIndiceSearch :=
  built <- buildIndexSearch startsWith_dollar accepts_all
             (new_Db text_schema) None 0 None None false subCriteria_ ;;
  Ok (invoke (new_Db text_schema) (fst built)).

(** [db.find(criteria, sort, skip, limit)] on the database of the two
    indices whose primary cursor yields [batches]. *)
Definition find_text (batches : list (list JValue)) :=
  find startsWith_dollar accepts_all (new_Db text_schema) match_all keep_order
    batches nothing_indexed.



Definition africa : JValue := JObj [("continent", JStr "Africa")].

Definition africa_cursor : Stream :=
  intersectAsyncIterable [Cursor 2 (Some (JStr "Africa")) "$eq" Asc].
End Sample.

(** ** What the specification expects, in its own words *)

(** The fallback of a missed plan: the records of the whole primary
    collection that the matcher accepts, sorted, the first [skip] dropped,
    at most [limit] returned. *)
Definition fallback_expected (test : Db.JValue -> bool)
    (sorted : list Db.JValue -> list Db.JValue) (skip : nat)
    (limit : option nat) (collection : list Db.JValue) : list Db.JValue :=
  let rest := skipn skip (sorted (filter test collection)) in
  match limit with
  | Some l => firstn l rest
  | None => rest
  end.

(** The plan of a logical combinator: the intersection ([$and]) or union
    ([$or]) of the streams of the children, exact when every (some) child is
    exact, missed when every (some) child is missed. *)
Definition combinator_expected (isAnd : bool)
    (children : list Db.ResultIndiceSearch) : Db.Stream * bool * bool :=
  (if isAnd then Db.intersectAsyncIterable (map Db.result children)
   else Db.combineAsyncIterable (map Db.result children),
   if isAnd then forallb Db.greed children else existsb Db.greed children,
   if isAnd then forallb Db.missed children else existsb Db.missed children).

(** ** Concrete shards *)

(** [add(key, value)] on a loaded index, keeping the index. *)
Definition added (s : NgramIndice Z) (k : Z) (text : string) : NgramIndice Z :=
  snd (Ngram.add s k (VString text)).

(** [new NgramIndice()] *)
Definition fresh : NgramIndice Z := fst (Ngram.construct Ngram.no_options 1).

(** [s.spread(chunkSize)] *)
Definition shards_of (s : NgramIndice Z) (chunkSize : nat)
  : list (NgramIndice Z) :=
  match Ngram.spread 100 s chunkSize 2 with
  | Some (Ok (shards, _)) => shards
  | _ => []
  end.

(** The batches of [for await (const batch of s.cursorAll(shards, text))]
    when the shards answer in the order [schedule]. *)
Definition batches_of (s : NgramIndice Z) (shards : list (NgramIndice Z))
    (text : string) (schedule : list nat) : option (list (list Z) * Step (list Z)) :=
  drain Ngram.next (S (List.length schedule))
    (fst (Ngram.cursorAll s shards (VString text) schedule)).

(** The same for the compiled copy. *)
Definition compiled_batches_of (s : NgramIndice Z)
    (shards : list (NgramIndice Z)) (text : string) (schedule : list nat)
  : option (list (list Z) * Step (list Z)) :=
  drain Compiled.next 3
    (fst (Compiled.cursorAll s shards (VString text) schedule)).

(** An index whose only key is the number 0. *)
Definition zero_index : NgramIndice Z := added fresh 0%Z "abcd".

(** An index of twenty-one keys that all hold the same text. *)
Definition crowd_index : NgramIndice Z :=
  fold_left (fun s k => added s (Z.of_nat k) "abcd") (seq 1 21) fresh.

(** An index with one key under four tokens. *)
Definition seven_index : NgramIndice Z := added fresh 7%Z "abcd wxyz".

(** An index with one entry under [aaa] and eleven under [bbb]. *)
Definition lopsided_index : NgramIndice Z :=
  fold_left (fun s k => added s (Z.of_nat k) "bbb") (seq 2 11)
    (added fresh 1%Z "aaa").

(** The number of posting-list entries an index holds. *)
Definition entries_count {T} (s : NgramIndice T) : nat :=
  match indices s with
  | IMap m => list_sum (map (fun e => List.length (snd e)) m)
  | IEntries a => list_sum (map (fun e => List.length (snd e)) a)
  | IOpaque => 0
  end.

(** The posting list of a token in an index, empty when the token is
    absent, and the tokens an index holds. *)
Definition postings {T} (s : NgramIndice T) (token : string) : list T :=
  match indices s with
  | IMap m => default [] (JsMap.get token m)
  | _ => []
  end.

Definition tokens_in {T} (s : NgramIndice T) : list string :=
  match indices s with
  | IMap m => JsMap.keys m
  | _ => []
  end.

(** The number of entries of a map of posting lists. *)
Definition count_entries {T} (m : JsMap.t string (list T)) : nat :=
  list_sum (map (fun e => List.length (snd e)) m).

(** The invariant of the loop of [spread] over the sorted tokens: [done] are
    the tokens already visited, [m] the posting lists of the parent. *)
Definition spread_inv {T} (chunkSize : nat) (m : JsMap.t string (list T))
    (done : list string) (st : @Ngram.Spreading T) : Prop :=
  Ngram.size st <= chunkSize
  /\ Ngram.size st = count_entries (Ngram.map_ st)
  /\ (forall t, In t done ->
        flat_map (fun sh => postings sh t) (Ngram.result st)
        ++ default [] (JsMap.get t (Ngram.map_ st))
        = default [] (JsMap.get t m))
  /\ (forall sh, In sh (Ngram.result st) ->
        exists mm, indices sh = IMap mm
                   /\ count_entries mm <= chunkSize
                   /\ incl (JsMap.keys mm) done)
  /\ incl (JsMap.keys (Ngram.map_ st)) done.

(** ** Weights, for the comparison of [cursorAll] with [findAll] *)

Section Weighing.
Context {T : Type} {JK : JsKey T}.

(** The weight a map gives to a key, 0 when the key is absent. *)
Definition weight (m : JsMap.t T Z) (k : T) : Z :=
  default 0%Z (JsMap.get k m).

(** The weight a list of entries brings to a key in a merge. *)
Fixpoint brought (r : list (T * Z)) (k : T) : Z :=
  match r with
  | [] => 0%Z
  | (k', v) :: r' => ((if key_eqb k k' then v else 0) + brought r' k)%Z
  end.

(** The weight all the answers bring to a key, and whether one of them
    holds the key. *)
Definition brought_by_all (rs : list (JsMap.t T Z)) (k : T) : Z :=
  fold_right (fun r acc => (brought r k + acc)%Z) 0%Z rs.

Definition held_by_some (rs : list (JsMap.t T Z)) (k : T) : Prop :=
  exists r, In r rs /\ In k (JsMap.keys r).

(** The weight [z] reaches the threshold of a query of tokens [toks]. *)
Definition reaches_threshold (o : IOptions T) (toks : list string) (z : Z)
  : Prop :=
  Qle_bool (Ngram.getLimit (actuationLimitAuto o) (List.length toks)
              (actuationLimit o))
    (inject_Z z) = true.

(** The promises named by the schedule are distinct and still hold the
    answers [ws] that the shards gave. *)
Definition unconsumed_answers (ws : list (JsMap.t T Z))
    (proms : list (option (Res (JsMap.t T Z)))) (sch : list nat) : Prop :=
  NoDup sch
  /\ forall i, In i sch -> nth_error proms i = Some (Some (Ok (nth i ws []))).

(** No entry of the map has a negative weight. *)
Definition nonneg (w : JsMap.t T Z) : Prop :=
  Forall (fun e => (0 <= snd e)%Z) w.

(** A shard that answers a query without loading and without raising:
    it is loaded and keeps its posting lists in a Map. *)
Definition queryable (sh : NgramIndice T) : Prop :=
  isLoaded (options sh) = true /\ exists m, indices sh = IMap m.

(** The batches [cursorAll] yields when the answers arrive as [rs]: the
    loop of [next], called until it reports the end. *)
Fixpoint batches_from (o : IOptions T) (toks : list string)
    (cw : JsMap.t T Z) (rs : list (JsMap.t T Z)) : list (list T) :=
  match rs with
  | [] => []
  | r :: rest =>
      let (subResult, cw') :=
        Ngram.take_batch o toks (Ngram.merge_weights cw r) in
      match subResult with
      | [] => batches_from o toks cw' rest
      | _ :: _ => subResult :: batches_from o toks cw' rest
      end
  end.
End Weighing.

(** ** Occurrences, for the behaviour of [add], [find] and the shards *)

Section Counting.
Context {T : Type} {JK : JsKey T}.

(** How many times the key [k] stands in a posting list, and the token [t]
    in a list of tokens. *)
Definition count_key (k : T) (l : list T) : nat :=
  List.length (filter (key_eqb k) l).

Definition count_token (t : string) (toks : list string) : nat :=
  List.length (filter (String.eqb t) toks).

(** The number of entries of [k] met when the posting lists [post] of the
    tokens [toks] are read one after the other, a token as often as it is
    listed. *)
Definition occurrences (post : string -> list T) (toks : list string)
    (k : T) : Z :=
  fold_right (fun t acc => (Z.of_nat (count_key k (post t)) + acc)%Z) 0%Z toks.

(** The posting list that shards hold together for a token. *)
Definition postings_all (shards : list (NgramIndice T)) (token : string)
  : list T :=
  flat_map (fun sh => postings sh token) shards.

(** The tokens [find] computes from its argument. *)
Definition query_tokens (s : NgramIndice T) (value : option Value)
  : list string :=
  match value with
  | Some v => Ngram.tokens_of (options s) v
  | None => []
  end.

(** The options the constructor gives a shard of an index of options [o]
    when the counter supplies the identifier [i]. *)
Definition shard_options (o : IOptions T) (i : nat) : IOptions T :=
  mkIOptions (string_of_nat i) (gramLen o) (actuationLimit o) (toLowcase o)
    (actuationLimitAuto o) None None (isLoaded o) (load o).

(** What a shard answers to [preFilter]: one count per occurrence. *)
Definition answers (toks : list string) (sh : NgramIndice T)
    (w : JsMap.t T Z) : Prop :=
  NoDup (JsMap.keys w)
  /\ (forall k, weight w k = occurrences (postings sh) toks k)
  /\ (forall k, In k (JsMap.keys w)
                <-> (0 < occurrences (postings sh) toks k)%Z).
End Counting.

(** The shards [spread] builds from the maps it fills, when the counter
    stands at [c]: the constructor numbers them one after the other. *)
Fixpoint number_shards {T} (o : IOptions T) (c : nat)
    (maps : list (JsMap.t string (list T))) : list (NgramIndice T) :=
  match maps with
  | [] => []
  | mm :: rest =>
      mkIndice (IMap mm) (shard_options o c) 0 :: number_shards o (S c) rest
  end.

(** [subResults[index]] read from the sparse array of the compiled cursor:
    a hole and a position past the end both read as nothing. *)
Definition slot {A} (l : list (option A)) (index : nat) : option A :=
  match nth_error l index with
  | Some x => x
  | None => None
  end.

(** The invariant of the loop of the compiled [spread] over the sorted
    tokens: [m0] holds the posting lists of the parent at the call, [done]
    the tokens already visited, and the state pairs the variables of the
    loop with the posting lists the parent holds now. *)
Definition compiled_inv {T} (m0 : JsMap.t string (list T))
    (done : list string)
    (acc : @Ngram.Spreading T * JsMap.t string (list T)) : Prop :=
  let (st, m) := acc in
  Ngram.size st = count_entries (Ngram.map_ st)
  /\ (forall t, In t done ->
        flat_map (fun sh => postings sh t) (Ngram.result st)
        ++ default [] (JsMap.get t (Ngram.map_ st))
        = default [] (JsMap.get t m0))
  /\ (forall sh, In sh (Ngram.result st) ->
        exists mm, indices sh = IMap mm /\ incl (JsMap.keys mm) done)
  /\ incl (JsMap.keys (Ngram.map_ st)) done
  /\ (forall t, ~ In t done -> JsMap.get t m = JsMap.get t m0)
  /\ (forall t, default [] (JsMap.get t m) = default [] (JsMap.get t m0)
                \/ default [] (JsMap.get t m) = []).

(** ** The planner, for its general properties *)

(** A sort is asked for and no index is bound to the path of any of its
    keys. *)
Definition unserved_sort (this : Db.Db) (sort : option Db.SortSpec) : bool :=
  match sort with
  | Some entries =>
      forallb
        (fun e =>
           match Db.find_path this (fst e) with
           | Some _ => false
           | None => true
           end)
        entries
  | None => false
  end.

(** The entries [Object.entries] enumerates for a criteria, as the clauses
    the loop of [buildIndexSearch] reads. *)
Definition clauses_of
    (compile : option string -> Db.JValue -> Res (Db.Plan * Db.JValue))
    (criteria : Db.JValue) : list Db.Clause :=
  match criteria with
  | Db.JObj entries => Db.object_clauses compile entries
  | Db.JArr elements => Db.array_clauses compile 0 elements
  | Db.JStr s => Db.char_clauses 0 s
  | _ => []
  end.

(** The only exception the planner raises. *)
Definition entries_of_null : Error :=
  TypeError "Cannot convert undefined or null to object".

(** * Properties *)

(** ** Lazy loading *)

Section Loading.
Context {T : Type} {JK : JsKey T}.

Local Abbreviation Index := (NgramIndice T).

Lemma load_when_loaded (s : Index) :
  isLoaded (options s) = true -> Ngram.load_ s = (Ok tt, s).
Proof. intros H. unfold Ngram.load_. now rewrite H. Qed.

Lemma preFilter_when_loaded (s : Index) (toks : list string) :
  isLoaded (options s) = true ->
  Ngram.preFilter s toks = (Ngram.count_tokens (indices s) toks [], s).
Proof. intros H. unfold Ngram.preFilter. now rewrite load_when_loaded. Qed.

Lemma find_when_loaded (s : Index) (v : option Value) :
  isLoaded (options s) = true -> snd (Ngram.find s v) = s.
Proof.
  intros H. unfold Ngram.find. rewrite preFilter_when_loaded by assumption.
  now destruct (Ngram.count_tokens _ _ _).
Qed.

Lemma preFilter_state (s : Index) (toks : list string) :
  snd (Ngram.preFilter s toks) = snd (Ngram.load_ s).
Proof.
  unfold Ngram.preFilter. now destruct (Ngram.load_ s) as [[[]|e] s'].
Qed.

Lemma find_state (s : Index) (v : option Value) :
  snd (Ngram.find s v) = snd (Ngram.load_ s).
Proof.
  unfold Ngram.find.
  match goal with |- context [Ngram.preFilter s ?t] =>
    rewrite <- (preFilter_state s t); now destruct (Ngram.preFilter s t) as [[w|e] s']
  end.
Qed.

Lemma load_resolved (s : Index) f data :
  isLoaded (options s) = false ->
  load (options s) = Some f ->
  f (loadCalls s) = Resolved data ->
  Ngram.load_ s = (Ok tt, loaded_with data s).
Proof. intros Hl Hf Hr. unfold Ngram.load_. now rewrite Hl, Hf, Hr. Qed.

(** A query that has to load answers as the loaded index does. *)
Lemma preFilter_loads_first (s : Index) f data (toks : list string) :
  isLoaded (options s) = false ->
  load (options s) = Some f ->
  f (loadCalls s) = Resolved data ->
  Ngram.preFilter s toks = Ngram.preFilter (loaded_with data s) toks.
Proof.
  intros Hl Hf Hr.
  rewrite (preFilter_when_loaded (loaded_with data s) toks eq_refl).
  unfold Ngram.preFilter. now rewrite (load_resolved s Hl Hf Hr).
Qed.

Lemma find_loads_first (s : Index) f data (v : option Value) :
  isLoaded (options s) = false ->
  load (options s) = Some f ->
  f (loadCalls s) = Resolved data ->
  Ngram.find s v = Ngram.find (loaded_with data s) v.
Proof.
  intros Hl Hf Hr. unfold Ngram.find.
  now rewrite (preFilter_loads_first s _ Hl Hf Hr).
Qed.

(** X25.  Queries made one after the other, each settled before the next
    is started, on an index that is not loaded: without a load function,
    [preFilter] and [find] fail with the not-loaded error and change
    nothing; with a load function whose promise resolves, the query calls it
    once, answers from the loaded posting lists exactly as an index already
    holding them would, and leaves an index on which no later query calls
    the load function; with a load function whose promise rejects, the query
    fails with that rejection, the index stays unloaded, and the next query
    calls the load function again. *)
Theorem lazy_load_contract (s : Index) (toks : list string) (v : option Value) :
  isLoaded (options s) = false ->
  match load (options s) with
  | None =>
      Ngram.preFilter s toks = (Throw LoadNotImplemented, s)
      /\ Ngram.find s v = (Throw LoadNotImplemented, s)
  | Some f =>
      match f (loadCalls s) with
      | Resolved data =>
          let s1 := loaded_with data s in
          Ngram.preFilter s toks = Ngram.preFilter s1 toks
          /\ Ngram.find s v = Ngram.find s1 v
          /\ snd (Ngram.find s v) = s1
          /\ loadCalls s1 = S (loadCalls s)
          /\ (forall toks' v',
                 snd (Ngram.preFilter s1 toks') = s1
                 /\ snd (Ngram.find s1 v') = s1)
      | Rejected reason =>
          let s1 := mkIndice (indices s) (options s) (S (loadCalls s)) in
          Ngram.preFilter s toks = (Throw (LoadRejected reason), s1)
          /\ Ngram.find s v = (Throw (LoadRejected reason), s1)
          /\ isLoaded (options s1) = false
          /\ (forall toks' v',
                 loadCalls (snd (Ngram.preFilter s1 toks')) = S (loadCalls s1)
                 /\ loadCalls (snd (Ngram.find s1 v')) = S (loadCalls s1))
      end
  end.
Proof.
  intros Hl.
  destruct (load (options s)) as [f|] eqn:Hf.
  - destruct (f (loadCalls s)) as [data|reason] eqn:Hr.
    + pose proof (load_resolved s Hl Hf Hr) as Hload.
      cbv zeta. split; [|split; [|split; [|split]]].
      * exact (preFilter_loads_first s toks Hl Hf Hr).
      * exact (find_loads_first s v Hl Hf Hr).
      * rewrite find_state, Hload. reflexivity.
      * reflexivity.
      * intros toks' v'. split.
        -- rewrite preFilter_state. now rewrite load_when_loaded.
        -- now apply find_when_loaded.
    + assert (Hload : Ngram.load_ s
                      = (Throw (LoadRejected reason),
                         mkIndice (indices s) (options s) (S (loadCalls s)))).
      { unfold Ngram.load_. now rewrite Hl, Hf, Hr. }
      cbv zeta. split; [|split; [|split]].
      * unfold Ngram.preFilter. now rewrite Hload.
      * unfold Ngram.find, Ngram.preFilter. now rewrite Hload.
      * exact Hl.
      * intros toks' v'. split.
        -- rewrite preFilter_state. unfold Ngram.load_. cbn [options loadCalls].
           rewrite Hl, Hf. now destruct (f (S (loadCalls s))).
        -- rewrite find_state. unfold Ngram.load_. cbn [options loadCalls].
           rewrite Hl, Hf. now destruct (f (S (loadCalls s))).
  - assert (Hload : Ngram.load_ s = (Throw LoadNotImplemented, s)).
    { unfold Ngram.load_. now rewrite Hl, Hf. }
    split.
    + unfold Ngram.preFilter. now rewrite Hload.
    + unfold Ngram.find, Ngram.preFilter. now rewrite Hload.
Qed.

End Loading.

Lemma lazy_load_contract_witness :
  (isLoaded (options lazy_without_load) = false
   /\ Ngram.find lazy_without_load (Some (VString "abcd"))
      = (Throw LoadNotImplemented, lazy_without_load))
  /\ (isLoaded (options lazy_resolving) = false
      /\ fst (Ngram.find lazy_resolving (Some (VString "abcd"))) = Ok [1%Z]
      /\ loadCalls (snd (Ngram.find lazy_resolving (Some (VString "abcd"))))
         = 1)
  /\ (isLoaded (options lazy_rejecting) = false
      /\ Ngram.find lazy_rejecting (Some (VString "abcd"))
         = (Throw (LoadRejected "offline"),
            mkIndice (indices lazy_rejecting) (options lazy_rejecting) 1)).
Proof.
  split; [|split].
  - split; [reflexivity|].
    exact (proj2 (lazy_load_contract lazy_without_load [] _ eq_refl)).
  - split; [reflexivity|].
    pose proof (lazy_load_contract lazy_resolving []
                  (Some (VString "abcd")) eq_refl) as H.
    cbv zeta in H. destruct H as (_ & Hfind & Hstate & Hcalls & _).
    split.
    + rewrite Hfind. reflexivity.
    + rewrite Hstate. reflexivity.
  - split; [reflexivity|].
    exact (proj1 (proj2 (lazy_load_contract lazy_rejecting []
                           (Some (VString "abcd")) eq_refl))).
Defined.

(** ** The options object as a frame *)

Section Frame.
Context {T : Type} {JK : JsKey T}.

Local Abbreviation Index := (NgramIndice T).

Lemma kept_refl (o : IOptions T) : kept_but_isLoaded o o.
Proof. now left. Qed.

Lemma load_keeps_options (s : Index) :
  kept_but_isLoaded (options s) (options (snd (Ngram.load_ s))).
Proof.
  unfold Ngram.load_.
  destruct (isLoaded (options s)) eqn:Hl; [apply kept_refl|].
  destruct (load (options s)) as [f|]; [|apply kept_refl].
  destruct (f (loadCalls s)); cbn [snd options].
  - right. now split.
  - apply kept_refl.
Qed.

Lemma add_keeps_options (s : Index) (k : T) (v : Value) :
  options (snd (Ngram.add s k v)) = options s.
Proof.
  unfold Ngram.add. now destruct (Ngram.add_tokens _ _ _).
Qed.

Lemma preFilter_all_keeps_options (shards : list Index) (toks : list string) :
  Forall2 (fun a b => kept_but_isLoaded (options a) (options b))
    shards (snd (Ngram.preFilter_all shards toks)).
Proof.
  induction shards as [|s rest IH]; cbn [Ngram.preFilter_all].
  - constructor.
  - pose proof (preFilter_state s toks) as Hs.
    destruct (Ngram.preFilter s toks) as [r s'].
    destruct (Ngram.preFilter_all rest toks) as [rs ss].
    cbn [snd] in *. constructor; [|exact IH].
    subst s'. apply load_keeps_options.
Qed.

Lemma compiled_spread_keeps_options (fuel chunk ctr : nat) (s : Index) r s' :
  Compiled.spread fuel s chunk ctr = Some (r, s') -> options s' = options s.
Proof.
  unfold Compiled.spread.
  destruct (indices s) as [m|[|e a]|]; try (intros [= _ <-]; reflexivity).
  destruct (Compiled.spread_keys _ _ _ _ _) as [[st m']|]; [|discriminate].
  now intros [= _ <-].
Qed.

(** C9, as amended.  Whatever the operation, every index it is applied to
    comes out with the options it went in with, except that [isLoaded] may
    have gone from [false] to [true] (the load triggered by a query does
    that). *)
Theorem options_fixed_but_isLoaded (op : Operation) (s : Index) :
  Forall2 (fun a b => kept_but_isLoaded (options a) (options b))
    (touched op s) (after op s).
Proof.
  destruct op; cbn [touched after].
  - constructor; [|constructor]. rewrite add_keeps_options. apply kept_refl.
  - constructor; [|constructor]. rewrite find_state. apply load_keeps_options.
  - constructor; [|constructor]. rewrite preFilter_state.
    apply load_keeps_options.
  - constructor; [apply kept_refl|constructor].
  - constructor; [apply kept_refl|].
    unfold Ngram.findAll.
    pose proof (preFilter_all_keeps_options shards
                  (Ngram.tokens_of (options s) v)) as H.
    now destruct (Ngram.preFilter_all shards _).
  - constructor; [apply kept_refl|].
    unfold Ngram.cursorAll.
    pose proof (preFilter_all_keeps_options shards
                  (Ngram.tokens_of (options s) v)) as H.
    now destruct (Ngram.preFilter_all shards _).
  - constructor; [apply kept_refl|constructor].
  - destruct (Compiled.spread fuel s chunkSize ctr) as [[r s']|] eqn:E.
    + constructor; [|constructor].
      rewrite (compiled_spread_keeps_options _ _ _ _ E). apply kept_refl.
    + constructor; [apply kept_refl|constructor].
  - constructor; [apply kept_refl|constructor].
  - constructor; [|constructor]. apply load_keeps_options.
Qed.

End Frame.

(** C9, as stated, fails: the first query of a lazy index rewrites the
    field [isLoaded] of its options. *)
Lemma find_rewrites_isLoaded :
  isLoaded (options lazy_resolving) = false
  /\ isLoaded (options (snd (Ngram.find lazy_resolving None))) = true
  /\ options (snd (Ngram.find lazy_resolving None)) <> options lazy_resolving.
Proof.
  split; [reflexivity|]. split; [reflexivity|].
  intros H. apply (f_equal (@isLoaded Z)) in H. discriminate H.
Qed.

(** ** Serialization *)

Section Serialization.
Context {T : Type} {JK : JsKey T}.

Local Abbreviation Index := (NgramIndice T).

Lemma key_eqb_refl {K} {JKK : JsKey K} (k : K) : key_eqb k k = true.
Proof. now apply key_eqb_eq. Qed.

Lemma key_eqb_neq {K} {JKK : JsKey K} (a b : K) : a <> b -> key_eqb a b = false.
Proof.
  intros H. destruct (key_eqb a b) eqn:E; [|reflexivity].
  now apply key_eqb_eq in E.
Qed.

Lemma key_eq_dec {K} {JKK : JsKey K} (a b : K) : {a = b} + {a <> b}.
Proof.
  destruct (key_eqb a b) eqn:E.
  - left. now apply key_eqb_eq.
  - right. intros H. apply key_eqb_eq in H. congruence.
Qed.

Lemma set_fresh {K V} {JKK : JsKey K} (k : K) (v : V) (m : JsMap.t K V) :
  ~ In k (JsMap.keys m) -> JsMap.set k v m = m ++ [(k, v)].
Proof.
  induction m as [|[k' v'] m IH]; cbn; intros H; [reflexivity|].
  rewrite key_eqb_neq by (intros ->; apply H; now left).
  rewrite IH; [reflexivity|]. intros Hin. apply H. now right.
Qed.

Lemma fold_set_fresh {K V} {JKK : JsKey K} (l acc : JsMap.t K V) :
  NoDup (JsMap.keys (acc ++ l)) ->
  fold_left (fun m kv => JsMap.set (fst kv) (snd kv) m) l acc = acc ++ l.
Proof.
  revert acc. induction l as [|[k v] l IH]; intros acc H; cbn [fold_left].
  - now rewrite app_nil_r.
  - cbn [fst snd]. rewrite set_fresh.
    + rewrite IH; rewrite <- app_assoc; [reflexivity|exact H].
    + unfold JsMap.keys in *. rewrite map_app in H. cbn in H.
      apply NoDup_remove_2 in H. intros Hin. apply H.
      apply in_or_app. now left.
Qed.

(** [new Map(entries)] of the entries of a map is that map. *)
Lemma of_entries_entries {K V} {JKK : JsKey K} (m : JsMap.t K V) :
  NoDup (JsMap.keys m) -> JsMap.of_entries m = m.
Proof. intros H. unfold JsMap.of_entries. now rewrite fold_set_fresh. Qed.

(** C7, as amended.  For an index that is loaded, keeps its posting lists in
    a Map and has no tokenizer hook, [serialize] returns the entries of the
    Map as data and, apart from them, the options without the load
    function; and the index restored from the two, either by
    [deserialize(new Map(data), options)] or by [deserialize] of the options
    marked not loaded with a load function resolving to the data, answers
    every [find] as the original does, on the first query and after it. *)
Theorem serialize_then_restore (s : Index) (m : JsMap.t string (list T))
    (ctr : nat) :
  indices s = IMap m ->
  NoDup (JsMap.keys m) ->
  isLoaded (options s) = true ->
  preTokenizr (options s) = None ->
  postTokenizr (options s) = None ->
  Ngram.serialize s = Ok (m, Ngram.serializeOptions s)
  /\ p_load (Ngram.serializeOptions s) = None
  /\ (let d := fst (Ngram.deserialize (AIndices (IMap (JsMap.of_entries m)))
                     (Some (Ngram.serializeOptions s)) ctr) in
      forall v, fst (Ngram.find d v) = fst (Ngram.find s v)
                /\ snd (Ngram.find d v) = d)
  /\ (let d := fst (Ngram.deserialize
                     (AOptions (restore_options m (Ngram.serializeOptions s)))
                     None ctr) in
      forall v, fst (Ngram.find d v) = fst (Ngram.find s v)
                /\ forall v', fst (Ngram.find (snd (Ngram.find d v)) v')
                              = fst (Ngram.find s v')).
Proof.
  intros Hm Hwf Hl Hpre Hpost.
  assert (Hfind : forall (d : Index),
             indices d = IMap m -> isLoaded (options d) = true ->
             gramLen (options d) = gramLen (options s) ->
             toLowcase (options d) = toLowcase (options s) ->
             preTokenizr (options d) = None ->
             postTokenizr (options d) = None ->
             actuationLimit (options d) = actuationLimit (options s) ->
             actuationLimitAuto (options d) = actuationLimitAuto (options s) ->
             forall v, fst (Ngram.find d v) = fst (Ngram.find s v)).
  { intros d Hdm Hdl Hg Hc Hp1 Hp2 Ha Hau v.
    unfold Ngram.find.
    rewrite !preFilter_when_loaded by assumption.
    assert (Ht : forall x, Ngram.tokens_of (options d) x
                           = Ngram.tokens_of (options s) x).
    { intros x. unfold Ngram.tokens_of, Ngram.tokenizr.
      now rewrite Hg, Hc, Hp1, Hp2, Hpre, Hpost. }
    rewrite Hdm, Hm.
    destruct v as [x|]; [rewrite Ht|];
      (destruct (Ngram.count_tokens _ _ _); cbn [fst]; [|reflexivity];
       unfold Ngram.postFilter; now rewrite Ha, Hau). }
  split; [|split; [|split]].
  - unfold Ngram.serialize, Ngram.serializeData. now rewrite Hm.
  - reflexivity.
  - cbv zeta. intros v. rewrite (of_entries_entries m Hwf). split.
    + now apply Hfind.
    + now apply find_when_loaded.
  - cbv zeta. intros v.
    set (d := fst (Ngram.deserialize _ None ctr)).
    assert (Hd : snd (Ngram.find d v) = loaded_with m d).
    { rewrite find_state. reflexivity. }
    assert (Hfirst : Ngram.find d v = Ngram.find (loaded_with m d) v).
    { exact (find_loads_first d (f := fun _ => Resolved m) v
               eq_refl eq_refl eq_refl). }
    assert (Hrestored : forall x,
               fst (Ngram.find (loaded_with m d) x) = fst (Ngram.find s x)).
    { apply Hfind; try reflexivity.
      cbn [loaded_with indices]. now rewrite (of_entries_entries m Hwf). }
    split.
    + rewrite Hfirst. apply Hrestored.
    + intros v'. rewrite Hd. apply Hrestored.
Qed.

End Serialization.

Lemma serialize_then_restore_witness :
  fst (Ngram.find
         (fst (Ngram.deserialize
                 (AIndices (IMap (JsMap.of_entries
                                    [("abc", [1%Z]); ("bcd", [1%Z])])))
                 (Some (Ngram.serializeOptions abcd_index)) 2))
         (Some (VString "abcd")))
  = fst (Ngram.find abcd_index (Some (VString "abcd"))).
Proof.
  refine (proj1 (proj1 (proj2 (proj2
    (serialize_then_restore abcd_index 2 eq_refl _ eq_refl eq_refl eq_refl)))
    (Some (VString "abcd")))).
  repeat constructor; cbn; intuition discriminate.
Defined.

(** C7, as stated, fails: [deserialize] stores the array returned by
    [serialize] as it is, and an array has no method [get]. *)
Lemma deserialize_of_serialized_throws :
  exists data opts,
    Ngram.serialize abcd_index = Ok (data, opts)
    /\ fst (Ngram.find abcd_index (Some (VString "abcd"))) = Ok [1%Z]
    /\ fst (Ngram.find
              (fst (Ngram.deserialize (AIndices (IEntries data)) (Some opts) 2))
              (Some (VString "abcd")))
       = Throw (TypeError "this.indices.get is not a function").
Proof.
  eexists. eexists. split; [reflexivity|]. split; reflexivity.
Qed.

(** ** The planner *)

Section PlannerFacts.
Import Db.
Variable isOperator : string -> bool.
Variable indice_testIndice : IndexId -> string -> JValue -> bool.
Variable sch : Schema.

Local Abbreviation this := (new_Db sch).
Local Abbreviation custom := (fun k => has (customOperators (new_Db sch)) k).

Lemma has_In (set : list string) (k : string) : has set k = true <-> In k set.
Proof.
  unfold has. rewrite existsb_exists. split.
  - intros (x & Hin & Heq). apply String.eqb_eq in Heq. now subst.
  - intros H. exists k. split; [exact H|apply String.eqb_refl].
Qed.

(** The constructor keeps no logical operator among the custom ones. *)
Lemma logical_not_custom (k : string) :
  has logicalOperators k = true -> custom k = false.
Proof.
  intros Hlog. destruct (has (customOperators this) k) eqn:E; [|reflexivity].
  apply has_In in E. unfold new_Db in E. cbn [customOperators] in E.
  apply filter_In in E. destruct E as [_ E]. now rewrite Hlog in E.
Qed.

Lemma compile_clause_keys sortIndices path_ (c : Clause) (st st' : Building) :
  compile_clause isOperator indice_testIndice this sortIndices path_ c st
  = Ok st' ->
  map fst (b_criteria st')
  = map fst (b_criteria st) ++ (if custom (key c) then [] else [key c]).
Proof.
  unfold compile_clause.
  destruct (has logicalOperators (key c) && isArray (value_ c)) eqn:Hlog.
  - apply andb_prop in Hlog. destruct Hlog as [Hlog _].
    rewrite (logical_not_custom _ Hlog).
    destruct (subCriteria c tt) as [subIt|e]; cbn [bind]; [|discriminate].
    intros [= <-]. cbn [keep b_criteria]. now rewrite map_app.
  - destruct (has (customOperators this) (key c)) eqn:Hc.
    + intros [= <-]. rewrite app_nil_r.
      now destruct (last _ _).
    + destruct (isOperator (key c)).
      * intros [= <-]. cbn [keep b_criteria]. rewrite map_app.
        unfold operator_clause. now destruct (List.find _ _).
      * destruct (isObject (value_ c)).
        -- destruct (nested c tt) as [r|e]; cbn [bind]; [|discriminate].
           intros [= <-]. cbn [keep b_criteria]. now rewrite map_app.
        -- intros [= <-]. cbn [keep b_criteria]. rewrite map_app.
           now destruct (find_path _ _).
Qed.

Lemma compile_clauses_keys sortIndices path_ (cs : list Clause)
    (st st' : Building) :
  compile_clauses isOperator indice_testIndice this sortIndices path_ cs st
  = Ok st' ->
  map fst (b_criteria st')
  = map fst (b_criteria st)
    ++ filter (fun k => negb (custom k)) (map key cs).
Proof.
  revert st. induction cs as [|c cs IH]; intros st; cbn [compile_clauses].
  - intros [= <-]. now rewrite app_nil_r.
  - destruct (compile_clause _ _ _ _ _ c st) as [st1|e] eqn:E;
      cbn [bind]; [|discriminate].
    intros H. rewrite (IH _ H), (compile_clause_keys _ _ _ _ E).
    rewrite <- app_assoc. f_equal. cbn [map filter].
    now destruct (has (customOperators this) (key c)).
Qed.

Lemma object_clauses_keys compile (entries : list (string * JValue)) :
  map key (object_clauses compile entries) = map fst entries.
Proof.
  unfold object_clauses. rewrite map_map. reflexivity.
Qed.

(** The keys of a criteria object after its compilation: those it had,
    less the custom operators. *)
Lemma buildIndexSearch_keys sort skip limit path_ isRoot
    (entries : list (string * JValue)) plan criteria' :
  buildIndexSearch isOperator indice_testIndice this sort skip limit path_
    isRoot (JObj entries) = Ok (plan, criteria') ->
  exists entries',
    criteria' = JObj entries'
    /\ map fst entries'
       = filter (fun k => negb (custom k)) (map fst entries).
Proof.
  cbn [buildIndexSearch]. destruct (sort_setup this sort) as [sortIndices g].
  destruct (compile_clauses _ _ _ _ _ _ _) as [st|e] eqn:E;
    cbn [bind]; [|discriminate].
  intros [= _ <-]. exists (b_criteria st). split; [reflexivity|].
  apply compile_clauses_keys in E. cbn [b_criteria map app] in E.
  now rewrite E, object_clauses_keys.
Qed.

Variable mingo_Query : JValue -> Res (JValue -> bool).
Variable mingo_sort : SortSpec -> list JValue -> list JValue.
Variable primary_cursor : list (list JValue).
Variable scan_indexed :
  ResultIndiceSearch -> (JValue -> bool) -> nat -> option nat ->
  Res (list JValue).

(** When [find] returns, the criteria object it was given holds the
    keys it held less the registered custom operators: such a key is no
    longer a key of the object, and an object that held one has been
    changed. *)
Lemma find_result_lacks_custom_operators (entries : list (string * JValue))
    (sort : option SortSpec) (skip limit : option nat) (k : string)
    (res : list JValue) (criteria' : JValue) :
  has (customOperators (new_Db sch)) k = true ->
  find isOperator indice_testIndice this mingo_Query mingo_sort
    primary_cursor scan_indexed (JObj entries) sort skip limit
  = Ok (res, criteria') ->
  exists entries',
    criteria' = JObj entries'
    /\ ~ In k (map fst entries')
    /\ map fst entries'
       = filter (fun k' => negb (has (customOperators (new_Db sch)) k'))
           (map fst entries)
    /\ (In k (map fst entries) -> criteria' <> JObj entries).
Proof.
  intros Hk. unfold find.
  destruct (buildIndexSearch _ _ _ _ _ _ _ _ _) as [[plan c']|e] eqn:E;
    cbn [bind]; [|discriminate].
  cbn [fst snd].
  destruct (mingo_Query c') as [test|e]; cbn [bind]; [|discriminate].
  destruct (if missed _ then _ else _) as [r|e]; cbn [bind]; [|discriminate].
  intros [= _ <-].
  destruct (buildIndexSearch_keys _ _ _ _ _ _ E) as (entries' & -> & Hkeys).
  exists entries'. split; [reflexivity|].
  assert (Hnot : ~ In k (map fst entries')).
  { rewrite Hkeys. intros Hin. apply filter_In in Hin.
    destruct Hin as [_ Hin]. now rewrite Hk in Hin. }
  split; [exact Hnot|]. split; [exact Hkeys|].
  intros Hin [= ->]. now apply Hnot.
Qed.

End PlannerFacts.

(** ** Logical combinators *)

Section Combinators.
Import Db.
Variable isOperator : string -> bool.
Variable indice_testIndice : IndexId -> string -> JValue -> bool.
Variable sch : Schema.

Local Abbreviation this := (new_Db sch).

(** X26.  In [buildIndexSearch] a clause whose key is [$and] or [$or] and
    whose value is not an array raises no error: when [isOperator] accepts
    the key it is compiled by the branch of the comparison operators (an
    index bound to the current path that accepts the key and the value is
    staged, otherwise nothing is) and stays in the criteria; a criteria made
    of that one clause compiles to a plan. *)
Theorem logical_without_array_is_operator_clause
    (sort : option SortSpec) (skip : nat) (limit : option nat)
    (path_ : option string) (isRoot : bool) (c : Clause) (st : Building) :
  has logicalOperators (key c) = true ->
  isArray (value_ c) = false ->
  isOperator (key c) = true ->
  let sortIndices := fst (sort_setup this sort) in
  compile_clause isOperator indice_testIndice this sortIndices path_ c st
  = Ok (keep (key c) (value_ c)
          (operator_clause indice_testIndice this sortIndices path_ (key c)
             (value_ c) st))
  /\ buildIndexSearch isOperator indice_testIndice this sort skip limit path_
       isRoot (JObj [(key c, value_ c)])
     = Ok (mkPlan
             (b_indices
                (operator_clause indice_testIndice this sortIndices path_
                   (key c) (value_ c) (mkBuilding [] [] [])))
             sortIndices [] (snd (sort_setup this sort)) isRoot,
           JObj [(key c, value_ c)]).
Proof.
  intros Hlog Harr Hop sortIndices.
  pose proof (logical_not_custom sch _ Hlog) as Hcus. cbv beta in Hcus.
  assert (Hclause : forall c0 st0,
             key c0 = key c -> value_ c0 = value_ c ->
             compile_clause isOperator indice_testIndice this sortIndices
               path_ c0 st0
             = Ok (keep (key c) (value_ c)
                     (operator_clause indice_testIndice this sortIndices
                        path_ (key c) (value_ c) st0))).
  { intros c0 st0 Hk Hv. unfold compile_clause.
    now rewrite Hk, Hv, Harr, andb_false_r, Hcus, Hop. }
  split; [now apply Hclause|].
  cbn [buildIndexSearch]. subst sortIndices.
  destruct (sort_setup this sort) as [sortIndices g]. cbn [fst snd] in *.
  cbn [object_clauses map compile_clauses fst snd].
  rewrite Hclause by reflexivity. cbn [bind].
  unfold operator_clause. now destruct (List.find _ _).
Qed.

(** Whatever the sub-criteria of a logical combinator are, compiling the
    clause stages no index and adds no sub-plan: the plans of the children
    are computed and dropped. *)
Lemma logical_clause_adds_nothing sortIndices (path_ : option string)
    (c : Clause) (st st' : Building) :
  has logicalOperators (key c) = true ->
  isArray (value_ c) = true ->
  compile_clause isOperator indice_testIndice this sortIndices path_ c st
  = Ok st' ->
  b_indices st' = b_indices st /\ b_subIterables st' = b_subIterables st.
Proof.
  intros Hlog Harr. unfold compile_clause. rewrite Hlog, Harr. cbn [andb].
  destruct (subCriteria c tt); cbn [bind]; [|discriminate].
  now intros [= <-].
Qed.

End Combinators.

Lemma logical_without_array_is_operator_clause_witness :
  Db.missed (Db.invoke (Db.new_Db Sample.text_schema)
               (Db.mkPlan [] [] [] false true)) = true
  /\ Sample.compile_text (Db.JObj [("$and", Db.JNum 5)])
     = Ok (Db.mkPlan [] [] [] false true, Db.JObj [("$and", Db.JNum 5)]).
Proof.
  split; [reflexivity|].
  exact (proj2 (logical_without_array_is_operator_clause
                  Db.startsWith_dollar Sample.accepts_all
                  Sample.text_schema None 0 None None true
                  (Db.mkClause "$and" (Db.JNum 5)
                     (fun _ => Ok []) (fun _ => Ok (Db.no_plan, Db.JNull)))
                  (Db.mkBuilding [] [] [])
                  eq_refl eq_refl eq_refl)).
Defined.

(** With [$and] bound to a number the compilation alone returns a plan,
    a missed one, and throws nothing. *)
Lemma and_of_a_number_compiles :
  Sample.search_text (Db.JObj [("$and", Db.JNum 5)])
  = Ok (Db.mkResult (Db.intersectAsyncIterable []) true false [])
  /\ forall e, Sample.compile_text (Db.JObj [("$and", Db.JNum 5)]) <> Throw e.
Proof.
  split; [reflexivity|]. intros e. discriminate.
Qed.

(** C2 fails on the code.  The criteria [{ $and: [{ continent: "Africa" }] }]
    (and the same under [$or]) has one child, served by the index on
    [continent] and so not missed; the plan of the whole should combine the
    stream of the child and not be missed, but it holds no stream at all and
    is missed: the closure that combines the children is never called. *)
Theorem combinator_plan_drops_children :
  Sample.search_sub Sample.africa
  = Ok (Db.mkResult Sample.africa_cursor false false [Some "continent"])
  /\ (forall k, k = "$and" \/ k = "$or" ->
      Sample.search_text (Db.JObj [(k, Db.JArr [Sample.africa])])
      = Ok (Db.mkResult (Db.intersectAsyncIterable []) true false []))
  /\ combinator_expected true
       [Db.mkResult Sample.africa_cursor false false [Some "continent"]]
     = (Db.intersectAsyncIterable [Sample.africa_cursor], false, false)
  /\ combinator_expected false
       [Db.mkResult Sample.africa_cursor false false [Some "continent"]]
     = (Db.combineAsyncIterable [Sample.africa_cursor], false, false).
Proof.
  split; [reflexivity|]. split; [|split; reflexivity].
  intros k [-> | ->]; reflexivity.
Qed.

(** ** The fallback scan *)

Section Fallback.
Import Db.
Variable primary_cursor : list (list JValue).

Lemma scan_values_unbounded (test : JValue -> bool) (greed_ : bool)
    (values : list JValue) (i : nat) (res : list JValue) :
  snd (scan_values test 0 None greed_ values (i, res))
  = res ++ filter test values.
Proof.
  revert i res. induction values as [|v values IH]; intros i res; cbn.
  - now rewrite app_nil_r.
  - destruct (test v); cbn.
    + rewrite IH, <- app_assoc. reflexivity.
    + apply IH.
Qed.

(** With no skip and no limit the scan of a missed plan keeps exactly the
    records of the collection that the matcher accepts, in the order of the
    cursor. *)
Lemma scan_primary_unbounded (test : JValue -> bool) (greed_ : bool) :
  scan_primary primary_cursor test 0 None greed_
  = filter test (List.concat primary_cursor).
Proof.
  unfold scan_primary.
  assert (H : forall batches i res,
             snd (fold_left
                    (fun acc values =>
                       scan_values test 0 None greed_ values acc)
                    batches (i, res))
             = res ++ filter test (List.concat batches)).
  { induction batches as [|b batches IH]; intros i res; cbn [fold_left List.concat].
    - cbn. now rewrite app_nil_r.
    - destruct (scan_values test 0 None greed_ b (i, res)) as [i' res'] eqn:E.
      rewrite IH. pose proof (scan_values_unbounded test greed_ b i res) as H.
      rewrite E in H. cbn [snd] in H. rewrite H, filter_app, app_assoc.
      reflexivity. }
  apply (H primary_cursor 0 []).
Qed.

End Fallback.

(** C1 fails on the code.  On a database without secondary index the plan
    of [{}] is missed.  With [skip = 1] and two records [find] returns
    nothing where the second record is due: the counter [i] only grows when
    a record is kept, and none is kept while [i < skip].  With [limit = 1]
    and two batches of one record [find] returns both records: [break]
    leaves the loop over the batch, not the loop over the cursor. *)
Theorem missed_find_skip_and_limit :
  Sample.search_bare (Db.JObj [])
  = Ok (Db.mkResult (Db.intersectAsyncIterable []) true false [])
  /\ Sample.find_bare [[Sample.record 0; Sample.record 1]] (Db.JObj []) None
       (Some 1) None
     = Ok ([], Db.JObj [])
  /\ fallback_expected (fun _ => true) (fun l => l) 1 None
       [Sample.record 0; Sample.record 1]
     = [Sample.record 1]
  /\ Sample.find_bare [[Sample.record 0]; [Sample.record 1]] (Db.JObj []) None
       (Some 0) (Some 1)
     = Ok ([Sample.record 0; Sample.record 1], Db.JObj [])
  /\ fallback_expected (fun _ => true) (fun l => l) 0 (Some 1)
       [Sample.record 0; Sample.record 1]
     = [Sample.record 0].
Proof. repeat split; reflexivity. Qed.

(** ** Queries over shards *)

(** C3 fails on the code.  In the TypeScript source the callback of the
    filter returns the key itself, so a key that is falsy, such as the
    number 0, is deleted from the running weights and never yielded:
    [findAll] returns it, [cursorAll] yields no batch.  In the compiled copy
    [next] yields one batch of at most twenty keys and then reports the end:
    of twenty-one matching keys one is lost. *)
Theorem cursorAll_loses_keys :
  (fst (Ngram.findAll zero_index (shards_of zero_index 100) (VString "abcd"))
   = Ok [0%Z]
   /\ batches_of zero_index (shards_of zero_index 100) "abcd" [0]
      = Some ([], Done))
  /\ (exists found batch,
        fst (Ngram.findAll crowd_index (shards_of crowd_index 100)
               (VString "abcd")) = Ok found
        /\ compiled_batches_of crowd_index (shards_of crowd_index 100) "abcd"
             [0] = Some ([batch], Done)
        /\ List.length found = 21 /\ List.length batch = 20
        /\ In 21%Z found /\ ~ In 21%Z batch).
Proof.
  split.
  - split; vm_compute; reflexivity.
  - eexists. eexists. split; [vm_compute; reflexivity|].
    split; [vm_compute; reflexivity|].
    split; [reflexivity|]. split; [reflexivity|].
    split; [vm_compute; tauto|].
    vm_compute. intros H.
    repeat (destruct H as [H|H]; [discriminate H|]). exact H.
Qed.

(** C4 fails on the code.  The index holds the key 7 under the four tokens
    of [abcd wxyz]; [spread(2)] cuts it into three shards that hold two, one
    and one of these entries.  With the threshold 2 the key is yielded when
    the first shard answers and is deleted from the running weights; the
    other two shards bring its weight back to 2 and it is yielded a second
    time. *)
Theorem cursorAll_yields_a_key_twice :
  List.length (shards_of seven_index 2) = 3
  /\ fst (Ngram.findAll seven_index (shards_of seven_index 2)
            (VString "abcd wxyz")) = Ok [7%Z]
  /\ batches_of seven_index (shards_of seven_index 2) "abcd wxyz" [0; 1; 2]
     = Some ([[7%Z]; [7%Z]], Done).
Proof. repeat split; vm_compute; reflexivity. Qed.

(** ** Maps *)

Section MapFacts.
Context {K V : Type} {JKK : JsKey K}.

Lemma get_set_same (k : K) (v : V) (m : JsMap.t K V) :
  JsMap.get k (JsMap.set k v m) = Some v.
Proof.
  induction m as [|[k' v'] m IH]; cbn.
  - now rewrite key_eqb_refl.
  - destruct (key_eqb k k') eqn:E; cbn; rewrite E; [reflexivity|exact IH].
Qed.

Lemma get_set_other (t k : K) (v : V) (m : JsMap.t K V) :
  t <> k -> JsMap.get t (JsMap.set k v m) = JsMap.get t m.
Proof.
  intros Hne. induction m as [|[k' v'] m IH]; cbn.
  - now rewrite key_eqb_neq.
  - destruct (key_eqb k k') eqn:E; cbn.
    + apply key_eqb_eq in E. subst k'. now rewrite key_eqb_neq.
    + now rewrite IH.
Qed.

Lemma get_None (k : K) (m : JsMap.t K V) :
  ~ In k (JsMap.keys m) -> JsMap.get k m = None.
Proof.
  induction m as [|[k' v'] m IH]; cbn; intros H; [reflexivity|].
  rewrite key_eqb_neq by (intros ->; apply H; now left).
  apply IH. intros Hin. apply H. now right.
Qed.

Lemma get_Some_In (k : K) (v : V) (m : JsMap.t K V) :
  JsMap.get k m = Some v -> In (k, v) m.
Proof.
  induction m as [|[k' v'] m IH]; cbn; [discriminate|].
  destruct (key_eqb k k') eqn:E.
  - apply key_eqb_eq in E. subst k'. intros [= ->]. now left.
  - intros H. right. now apply IH.
Qed.

Lemma In_keys_get (k : K) (m : JsMap.t K V) :
  In k (JsMap.keys m) -> exists v, JsMap.get k m = Some v.
Proof.
  induction m as [|[k' v'] m IH]; cbn; [tauto|].
  intros [-> | H].
  - rewrite key_eqb_refl. now eexists.
  - destruct (key_eqb k k'); [now eexists|now apply IH].
Qed.

Lemma keys_set (t k : K) (v : V) (m : JsMap.t K V) :
  In t (JsMap.keys (JsMap.set k v m)) -> t = k \/ In t (JsMap.keys m).
Proof.
  induction m as [|[k' v'] m IH]; cbn.
  - intros [<- | []]. now left.
  - destruct (key_eqb k k'); cbn; intros [<- | H]; auto.
    destruct (IH H); auto.
Qed.
End MapFacts.

Section CountFacts.
Context {T : Type}.

Lemma count_entries_app (a b : JsMap.t string (list T)) :
  count_entries (a ++ b) = count_entries a + count_entries b.
Proof. unfold count_entries. now rewrite map_app, list_sum_app. Qed.

Lemma count_entries_set_fresh (k : string) (v : list T)
    (m : JsMap.t string (list T)) :
  ~ In k (JsMap.keys m) ->
  count_entries (JsMap.set k v m) = count_entries m + List.length v.
Proof.
  intros H. rewrite (set_fresh k v m H), count_entries_app.
  unfold count_entries at 2. cbn. lia.
Qed.

Lemma get_le_count (k : string) (v : list T) (m : JsMap.t string (list T)) :
  JsMap.get k m = Some v -> List.length v <= count_entries m.
Proof.
  intros H. apply get_Some_In in H.
  induction m as [|[k' v'] m IH]; [destruct H|].
  change (count_entries ((k', v') :: m))
    with (List.length v' + count_entries m).
  destruct H as [H|H].
  - injection H as -> ->. lia.
  - specialize (IH H). lia.
Qed.

Lemma count_zero_get (t : string) (m : JsMap.t string (list T)) :
  count_entries m = 0 -> default [] (JsMap.get t m) = [].
Proof.
  intros H. destruct (JsMap.get t m) as [v|] eqn:E; [|reflexivity].
  apply get_le_count in E. cbn. destruct v; [reflexivity|cbn in E; lia].
Qed.
End CountFacts.

(** ** Sorting the keys *)

Lemma insert_sorted_perm (k : string) (l : list string) :
  Permutation (insert_sorted k l) (k :: l).
Proof.
  induction l as [|k' l IH]; cbn; [reflexivity|].
  destruct (String.leb k k'); [reflexivity|].
  rewrite IH. apply perm_swap.
Qed.

Lemma sort_keys_perm (l : list string) : Permutation (sort_keys l) l.
Proof.
  induction l as [|k l IH]; cbn; [reflexivity|].
  rewrite insert_sorted_perm. now constructor.
Qed.

(** ** [spread] of the TypeScript source *)

Section SpreadFacts.
Context {T : Type} {JK : JsKey T}.
Variable chunkSize : nat.
Variable opts : PartialOptions T.
Hypothesis chunk_pos : 1 <= chunkSize.

Local Abbreviation Spreading := (@Ngram.Spreading T).

Lemma deserialize_indices (ix : Indices T) (o : PartialOptions T) (c : nat) :
  indices (fst (Ngram.deserialize (AIndices ix) (Some o) c)) = ix.
Proof.
  unfold Ngram.deserialize, Ngram.construct. now destruct (p_id o).
Qed.

Lemma push_shard_spec (st : Spreading) :
  exists sh c,
    Ngram.push_shard opts st
    = Ngram.mkSpreading (Ngram.result st ++ [sh]) (Ngram.size st)
        (Ngram.map_ st) c
    /\ indices sh = IMap (Ngram.map_ st).
Proof.
  unfold Ngram.push_shard.
  pose proof (deserialize_indices (IMap (Ngram.map_ st)) opts
                (Ngram.counter st)) as H.
  destruct (Ngram.deserialize _ _ _) as [sh c]. now exists sh, c.
Qed.

Lemma postings_of_map (sh : NgramIndice T) mm (t : string) :
  indices sh = IMap mm -> postings sh t = default [] (JsMap.get t mm).
Proof. intros H. unfold postings. now rewrite H. Qed.

(** More fuel does not change the outcome of a loop that ends. *)
Lemma spread_while_more_fuel (fuel : nat) key (value : list T)
    (st r : Spreading) :
  Ngram.spread_while fuel chunkSize opts key value st = Some r ->
  Ngram.spread_while (S fuel) chunkSize opts key value st = Some r.
Proof.
  revert value st. induction fuel as [|fuel IH]; intros value st.
  - destruct value; [trivial|discriminate].
  - destruct value as [|x xs]; [trivial|].
    intros H. cbn [Ngram.spread_while] in H.
    change (Ngram.spread_while (S (S fuel)) chunkSize opts key (x :: xs) st)
      with (let n := chunkSize - Ngram.size st in
            let st1 := Ngram.mkSpreading (Ngram.result st) (Ngram.size st)
                         (JsMap.set key (firstn n (x :: xs)) (Ngram.map_ st))
                         (Ngram.counter st) in
            let st2 := Ngram.push_shard opts st1 in
            Ngram.spread_while (S fuel) chunkSize opts key
              (skipn n (x :: xs))
              (Ngram.mkSpreading (Ngram.result st2) 0 [] (Ngram.counter st2))).
    cbv zeta. now apply IH.
Qed.

Lemma spread_while_fuel_le (f f' : nat) key (value : list T)
    (st r : Spreading) :
  f <= f' ->
  Ngram.spread_while f chunkSize opts key value st = Some r ->
  Ngram.spread_while f' chunkSize opts key value st = Some r.
Proof.
  induction 1 as [|f' _ IH]; [trivial|].
  intros H. now apply spread_while_more_fuel, IH.
Qed.

(** The loop that cuts a posting list into slices ends, and the shards it
    pushes hold the map filled so far and the list, slice after slice. *)
Lemma spread_while_spec (fuel : nat) key (value : list T) (st : Spreading) :
  Ngram.size st <= chunkSize ->
  Ngram.size st = count_entries (Ngram.map_ st) ->
  ~ In key (JsMap.keys (Ngram.map_ st)) ->
  value <> [] ->
  List.length value + (if (Ngram.size st <? chunkSize)%nat then 0 else 1) <= fuel ->
  exists new c,
    Ngram.spread_while fuel chunkSize opts key value st
    = Some (Ngram.mkSpreading (Ngram.result st ++ new) 0 [] c)
    /\ (forall t,
          flat_map (fun sh => postings sh t) new
          = if String.eqb t key then value
            else default [] (JsMap.get t (Ngram.map_ st)))
    /\ (forall sh, In sh new ->
          exists mm, indices sh = IMap mm
                     /\ count_entries mm <= chunkSize
                     /\ forall t, In t (JsMap.keys mm) ->
                                  t = key \/ In t (JsMap.keys (Ngram.map_ st))).
Proof.
  revert value st.
  induction fuel as [|fuel IH]; intros value st Hsize Hcount Hfresh Hne Hfuel.
  - destruct value; [contradiction|cbn in Hfuel; lia].
  - destruct value as [|x xs]; [contradiction|].
    cbn [Ngram.spread_while].
    set (n := chunkSize - Ngram.size st).
    set (value := x :: xs) in *.
    set (st1 := Ngram.mkSpreading (Ngram.result st) (Ngram.size st)
                  (JsMap.set key (firstn n value) (Ngram.map_ st))
                  (Ngram.counter st)).
    destruct (push_shard_spec st1) as (sh & c & Hpush & Hsh).
    subst st1. cbn [Ngram.result Ngram.size Ngram.map_] in Hpush, Hsh.
    rewrite Hpush. cbn [Ngram.result Ngram.counter].
    assert (Hshard :
              count_entries (JsMap.set key (firstn n value) (Ngram.map_ st))
              <= chunkSize).
    { rewrite count_entries_set_fresh by assumption.
      pose proof (firstn_le_length n value) as H1.
      assert (List.length (firstn n value) <= n).
      { rewrite length_firstn. lia. }
      subst n. lia. }
    assert (Hget : forall t,
               postings sh t
               = if String.eqb t key then firstn n value
                 else default [] (JsMap.get t (Ngram.map_ st))).
    { intros t. rewrite (postings_of_map _ _ Hsh).
      destruct (String.eqb t key) eqn:E.
      - apply String.eqb_eq in E. subst t. now rewrite get_set_same.
      - apply String.eqb_neq in E. now rewrite get_set_other. }
    assert (Hkeys : forall t,
               In t (JsMap.keys
                       (JsMap.set key (firstn n value) (Ngram.map_ st))) ->
               t = key \/ In t (JsMap.keys (Ngram.map_ st))).
    { intros t. apply keys_set. }
    destruct (skipn n value) as [|y ys] eqn:Hrest.
    + exists [sh], c. split; [destruct fuel; reflexivity|]. split.
      * intros t. cbn [flat_map]. rewrite app_nil_r, Hget.
        destruct (String.eqb t key); [|reflexivity].
        rewrite <- (firstn_skipn n value) at 2. now rewrite Hrest, app_nil_r.
      * intros sh' [<- | []]. eauto.
    + destruct (IH (y :: ys) (Ngram.mkSpreading (Ngram.result st ++ [sh]) 0 [] c))
        as (new & c' & Hrun & Hpost & Hshards).
      * cbn. lia.
      * reflexivity.
      * cbn. tauto.
      * discriminate.
      * cbn [Ngram.size].
        assert (Hlen : List.length (y :: ys) = List.length value - n).
        { rewrite <- Hrest. apply length_skipn. }
        destruct (0 <? chunkSize)%nat eqn:E0; [|apply Nat.ltb_ge in E0; lia].
        rewrite Hlen.
        destruct (Ngram.size st <? chunkSize)%nat eqn:E.
        -- apply Nat.ltb_lt in E. subst n. cbn [List.length] in *. lia.
        -- lia.
      * cbn [Ngram.result Ngram.map_] in *.
        exists (sh :: new), c'. split.
        -- rewrite Hrun. now rewrite <- app_assoc.
        -- split.
           ++ intros t. cbn [flat_map]. rewrite Hget, Hpost.
              destruct (String.eqb t key).
              ** rewrite <- Hrest. apply firstn_skipn.
              ** cbn. apply app_nil_r.
           ++ intros sh' [<- | Hin]; [eauto|].
              destruct (Hshards _ Hin) as (mm & Hm & Hc & Hk).
              exists mm. split; [exact Hm|]. split; [exact Hc|].
              intros t Ht. destruct (Hk t Ht) as [-> | []]. now left.
Qed.

Lemma spread_key_more_fuel (f f' : nat) m key (st r : Spreading) :
  f <= f' ->
  Ngram.spread_key f chunkSize opts m key st = Some r ->
  Ngram.spread_key f' chunkSize opts m key st = Some r.
Proof.
  intros Hle. unfold Ngram.spread_key.
  destruct (_ <=? _)%nat; [trivial|]. now apply spread_while_fuel_le.
Qed.

Lemma spread_keys_more_fuel (f f' : nat) m keys (st r : Spreading) :
  f <= f' ->
  Ngram.spread_keys f chunkSize opts m keys st = Some r ->
  Ngram.spread_keys f' chunkSize opts m keys st = Some r.
Proof.
  intros Hle. revert st.
  induction keys as [|k keys IH]; intros st; cbn [Ngram.spread_keys];
    [trivial|].
  destruct (Ngram.spread_key f _ _ _ _ _) as [st1|] eqn:E; [|discriminate].
  rewrite (spread_key_more_fuel _ _ _ Hle E). apply IH.
Qed.

(** No shard already pushed holds a token that has not been visited. *)
Lemma unvisited_token_has_no_posting m done (st : Spreading) (key : string) :
  spread_inv chunkSize m done st -> ~ In key done ->
  flat_map (fun sh => postings sh key) (Ngram.result st) = [].
Proof.
  intros (_ & _ & _ & Hshards & _) Hkey.
  induction (Ngram.result st) as [|sh l IH]; [reflexivity|].
  cbn [flat_map]. rewrite IH by (intros x Hx; apply Hshards; now right).
  destruct (Hshards sh (or_introl eq_refl)) as (mm & Hm & _ & Hincl).
  rewrite (postings_of_map _ _ Hm), get_None; [reflexivity|].
  intros Hin. apply Hkey. now apply Hincl.
Qed.

Lemma spread_key_spec (fuel : nat) m key done (st : Spreading) :
  spread_inv chunkSize m done st ->
  ~ In key done ->
  count_entries m < fuel ->
  exists st',
    Ngram.spread_key fuel chunkSize opts m key st = Some st'
    /\ spread_inv chunkSize m (key :: done) st'.
Proof.
  intros Hinv Hkey Hfuel.
  pose proof (unvisited_token_has_no_posting key Hinv Hkey) as Hnone.
  destruct Hinv as (Hsize & Hcount & Hpost & Hshards & Hmap).
  assert (Hfresh : ~ In key (JsMap.keys (Ngram.map_ st))).
  { intros Hin. apply Hkey. now apply Hmap. }
  assert (Hold : forall sh, In sh (Ngram.result st) ->
                 exists mm, indices sh = IMap mm
                            /\ count_entries mm <= chunkSize
                            /\ incl (JsMap.keys mm) (key :: done)).
  { intros sh Hin. destruct (Hshards sh Hin) as (mm & Hm & Hc & Hi).
    exists mm. split; [exact Hm|]. split; [exact Hc|].
    intros t Ht. right. now apply Hi. }
  unfold Ngram.spread_key.
  set (value := default [] (JsMap.get key m)).
  destruct (Ngram.size st + List.length value <=? chunkSize)%nat eqn:E.
  - apply Nat.leb_le in E. eexists. split; [reflexivity|].
    unfold spread_inv. cbn [Ngram.size Ngram.map_ Ngram.result].
    split; [exact E|]. split.
    { rewrite count_entries_set_fresh by assumption. lia. }
    split.
    { intros t [<- | Ht].
      - now rewrite Hnone, get_set_same.
      - rewrite get_set_other by (intros ->; contradiction).
        now apply Hpost. }
    split; [exact Hold|].
    intros t Ht. destruct (keys_set _ _ _ _ Ht) as [-> | H]; [now left|].
    right. now apply Hmap.
  - apply Nat.leb_gt in E.
    assert (Hne : value <> []).
    { intros H0. rewrite H0 in E. cbn in E. lia. }
    assert (Hlen : List.length value <= count_entries m).
    { subst value. destruct (JsMap.get key m) as [v|] eqn:G.
      - now apply get_le_count in G.
      - cbn. lia. }
    destruct (spread_while_spec key st Hsize Hcount Hfresh Hne (fuel := fuel))
      as (new & c & Hrun & Hnew & Hnewshards).
    { destruct (_ <? _)%nat; lia. }
    eexists. split; [exact Hrun|].
    unfold spread_inv. cbn [Ngram.size Ngram.map_ Ngram.result].
    split; [lia|]. split; [reflexivity|]. split.
    { intros t Ht. rewrite flat_map_app, Hnew. cbn [JsMap.get default].
      rewrite app_nil_r. destruct (String.eqb t key) eqn:Et.
      - apply String.eqb_eq in Et. subst t. now rewrite Hnone.
      - apply String.eqb_neq in Et. destruct Ht as [<- | Ht]; [contradiction|].
        now apply Hpost. }
    split.
    { intros sh Hin. apply in_app_or in Hin. destruct Hin as [Hin | Hin].
      - now apply Hold.
      - destruct (Hnewshards sh Hin) as (mm & Hm & Hc & Hk).
        exists mm. split; [exact Hm|]. split; [exact Hc|].
        intros t Ht. destruct (Hk t Ht) as [-> | H]; [now left|].
        right. now apply Hmap. }
    intros t [].
Qed.

Lemma spread_keys_spec (fuel : nat) m keys done (st : Spreading) :
  spread_inv chunkSize m done st ->
  NoDup keys ->
  (forall k, In k keys -> ~ In k done) ->
  count_entries m < fuel ->
  exists st',
    Ngram.spread_keys fuel chunkSize opts m keys st = Some st'
    /\ spread_inv chunkSize m (rev keys ++ done) st'.
Proof.
  revert done st.
  induction keys as [|k keys IH]; intros done st Hinv Hnd Hnew Hfuel.
  - exists st. now split.
  - inversion Hnd as [|? ? Hk Hnd']; subst.
    destruct (spread_key_spec k Hinv (Hnew k (or_introl eq_refl)) Hfuel)
      as (st1 & Hstep & Hinv1).
    destruct (IH (k :: done) st1 Hinv1 Hnd') as (st' & Hrun & Hinv'); auto.
    { intros k' Hin [<- | Hd]; [contradiction|].
      apply (Hnew k'); [now right|exact Hd]. }
    exists st'. cbn [Ngram.spread_keys]. rewrite Hstep. split; [exact Hrun|].
    cbn [rev]. now rewrite <- app_assoc.
Qed.

End SpreadFacts.

Section SpreadTheorem.
Context {T : Type} {JK : JsKey T}.

(** X1.  [spread] of the TypeScript source, for a chunk size of at least 1
    and an index that keeps its posting lists in a Map: the call ends (any fuel
    above the number of entries gives the same shards), the posting list of
    every token is the concatenation, shard after shard, of the lists the
    shards hold for it, so that every entry lies in exactly one shard, a
    shard holds no token the parent does not hold, and no shard holds more
    than [chunkSize] entries, hence no more than [chunkSize * 10]. *)
Theorem spread_partitions (s : NgramIndice T) (m : JsMap.t string (list T))
    (chunkSize ctr : nat) :
  indices s = IMap m ->
  NoDup (JsMap.keys m) ->
  1 <= chunkSize ->
  exists shards ctr',
    (forall fuel, entries_count s < fuel ->
                  Ngram.spread fuel s chunkSize ctr = Some (Ok (shards, ctr')))
    /\ (forall token,
          flat_map (fun sh => postings sh token) shards = postings s token)
    /\ (forall sh, In sh shards ->
          incl (tokens_in sh) (tokens_in s)
          /\ entries_count sh <= chunkSize
          /\ entries_count sh <= chunkSize * 10).
Proof.
  intros Hm Hwf Hpos.
  set (opts := Ngram.options_without_id (options s)).
  set (keys := sort_keys (JsMap.keys m)).
  assert (Hperm : Permutation keys (JsMap.keys m)) by apply sort_keys_perm.
  assert (Hnd : NoDup keys).
  { apply (Permutation_NoDup (Permutation_sym Hperm) Hwf). }
  assert (Hinit : spread_inv chunkSize m [] (Ngram.mkSpreading [] 0 [] ctr)).
  { unfold spread_inv. cbn. repeat split; try lia; try tauto.
    intros x []. }
  destruct (spread_keys_spec opts Hpos Hinit Hnd (fuel := S (count_entries m)))
    as (st & Hrun & Hinv); [tauto|lia|].
  rewrite app_nil_r in Hinv.
  assert (Hdone : forall t, In t (rev keys) <-> In t (JsMap.keys m)).
  { intros t. rewrite <- in_rev. split; apply Permutation_in;
      [exact Hperm|now apply Permutation_sym]. }
  assert (Hcount : entries_count s = count_entries m).
  { unfold entries_count. now rewrite Hm. }
  assert (Hps : forall t, postings s t = default [] (JsMap.get t m)).
  { intros t. now apply postings_of_map. }
  pose proof Hinv as (Hsize & Hsz & Hpost & Hshards & Hmap).
  assert (Hentries : forall (sh : NgramIndice T) mm,
             indices sh = IMap mm -> entries_count sh = count_entries mm).
  { intros sh mm H. unfold entries_count. now rewrite H. }
  assert (Hgood : forall (sh : NgramIndice T) mm,
             indices sh = IMap mm -> count_entries mm <= chunkSize ->
             incl (JsMap.keys mm) (rev keys) ->
             incl (tokens_in sh) (tokens_in s)
             /\ entries_count sh <= chunkSize
             /\ entries_count sh <= chunkSize * 10).
  { intros sh mm H Hc Hi. rewrite (Hentries _ _ H).
    split; [|lia]. unfold tokens_in. rewrite H, Hm.
    intros t Ht. now apply Hdone, Hi. }
  assert (Htoken : forall t,
             flat_map (fun sh => postings sh t) (Ngram.result st)
             ++ default [] (JsMap.get t (Ngram.map_ st))
             = default [] (JsMap.get t m)).
  { intros t. destruct (in_dec string_dec t (rev keys)) as [Hin | Hout].
    - now apply Hpost.
    - rewrite (unvisited_token_has_no_posting t Hinv Hout).
      rewrite !get_None; [reflexivity| |].
      + intros H. now apply Hout, Hdone.
      + intros H. now apply Hout, Hmap. }
  destruct (Ngram.size st =? 0)%nat eqn:E.
  - exists (Ngram.result st), (Ngram.counter st). split; [|split].
    + intros fuel Hfuel. unfold Ngram.spread. rewrite Hm.
      fold opts. fold keys.
      assert (Hle : S (count_entries m) <= fuel) by (rewrite <- Hcount; lia).
      rewrite (spread_keys_more_fuel chunkSize opts m keys _ Hle Hrun).
      now rewrite E.
    + intros t. rewrite Hps, <- Htoken.
      apply Nat.eqb_eq in E. rewrite count_zero_get by lia.
      now rewrite app_nil_r.
    + intros sh Hin. destruct (Hshards sh Hin) as (mm & H1 & H2 & H3).
      now apply (Hgood sh mm).
  - destruct (push_shard_spec opts st) as (sh & c & Hpush & Hsh).
    exists (Ngram.result st ++ [sh]), c. split; [|split].
    + intros fuel Hfuel. unfold Ngram.spread. rewrite Hm.
      fold opts. fold keys.
      assert (Hle : S (count_entries m) <= fuel) by (rewrite <- Hcount; lia).
      rewrite (spread_keys_more_fuel chunkSize opts m keys _ Hle Hrun).
      now rewrite E, Hpush.
    + intros t. rewrite Hps, <- Htoken, flat_map_app. cbn [flat_map].
      now rewrite app_nil_r, (postings_of_map _ _ Hsh).
    + intros sh' Hin. apply in_app_or in Hin.
      destruct Hin as [Hin | [<- | []]].
      * destruct (Hshards sh' Hin) as (mm & H1 & H2 & H3).
        now apply (Hgood sh' mm).
      * apply (Hgood sh (Ngram.map_ st)); [exact Hsh|lia|exact Hmap].
Qed.

End SpreadTheorem.

Lemma spread_partitions_witness :
  exists shards,
    Ngram.spread 5 seven_index 2 2 = Some (Ok (shards, 5))
    /\ forall token,
         flat_map (fun sh => postings sh token) shards
         = postings seven_index token.
Proof.
  assert (Hwf : NoDup (JsMap.keys (V := list Z)
                         [("abc", [7%Z]); ("bcd", [7%Z]); ("wxy", [7%Z]);
                          ("xyz", [7%Z])])).
  { repeat (constructor; [cbn; intuition discriminate|]). constructor. }
  assert (Hpos : 1 <= 2) by lia.
  destruct (@spread_partitions Z seven_index _ 2 2 eq_refl Hwf Hpos) as
    (shards & ctr' & Hrun & Hunion & _).
  exists shards. split; [|exact Hunion].
  assert (Hfuel : entries_count seven_index < 5) by (vm_compute; lia).
  pose proof (Hrun 5 Hfuel) as H5. rewrite H5.
  vm_compute in H5. injection H5 as <- <-. reflexivity.
Defined.

(** C5 fails on the compiled copy.  With [chunkSize = 1] the first token
    fills the current shard; the branch taken for the next token pushes that
    shard and opens a new one with the whole posting list of the token,
    eleven entries, more than [chunkSize * 10]. *)
Theorem compiled_spread_overfills_a_shard :
  exists shards ctr parent,
    Compiled.spread 100 lopsided_index 1 2 = Some (Ok (shards, ctr), parent)
    /\ map (@indices Z) shards
       = [IMap [("aaa", [1%Z])];
          IMap [("bbb", map Z.of_nat (seq 2 11))]]
    /\ map entries_count shards = [1; 11]
    /\ 1 * 10 < 11.
Proof.
  eexists. eexists. eexists. split; [vm_compute; reflexivity|].
  split; [reflexivity|]. split; [reflexivity|]. lia.
Qed.

(** ** Running weights *)

Section WeightFacts.
Context {T : Type} {JK : JsKey T}.

Local Abbreviation Weights := (JsMap.t T Z).

Lemma In_keys_set (t k : T) (v : Z) (m : Weights) :
  In t (JsMap.keys (JsMap.set k v m)) <-> t = k \/ In t (JsMap.keys m).
Proof.
  split; [apply keys_set|].
  induction m as [|[k' v'] m IH]; cbn.
  - intros [-> | []]. now left.
  - destruct (key_eqb k k') eqn:E; cbn.
    + apply key_eqb_eq in E. subst k'. intros [-> | [-> | H]]; auto.
    + intros [-> | [-> | H]]; auto.
Qed.

Lemma NoDup_keys_set (k : T) (v : Z) (m : Weights) :
  NoDup (JsMap.keys m) -> NoDup (JsMap.keys (JsMap.set k v m)).
Proof.
  induction m as [|[k' v'] m IH]; cbn; intros H.
  - repeat constructor. tauto.
  - inversion H as [|? ? Hk Hm]; subst.
    destruct (key_eqb k k') eqn:E; cbn; [exact H|].
    constructor; [|now apply IH].
    intros Hin. apply keys_set in Hin. destruct Hin as [-> | Hin].
    + now rewrite key_eqb_refl in E.
    + contradiction.
Qed.

Lemma weight_set (t k : T) (v : Z) (m : Weights) :
  weight (JsMap.set k v m) t = if key_eqb t k then v else weight m t.
Proof.
  unfold weight. destruct (key_eqb t k) eqn:E.
  - apply key_eqb_eq in E. subst t. now rewrite get_set_same.
  - rewrite get_set_other; [reflexivity|].
    intros ->. now rewrite key_eqb_refl in E.
Qed.

(** A merge adds to every key the weight the answer brings to it. *)
Lemma merge_weights_spec (r cw : Weights) :
  (forall k, weight (Ngram.merge_weights cw r) k
             = (weight cw k + brought r k)%Z)
  /\ (forall k, In k (JsMap.keys (Ngram.merge_weights cw r))
                <-> In k (JsMap.keys cw) \/ In k (JsMap.keys r))
  /\ (NoDup (JsMap.keys cw) ->
      NoDup (JsMap.keys (Ngram.merge_weights cw r))).
Proof.
  unfold Ngram.merge_weights. revert cw.
  induction r as [|[k' v] r IH]; intros cw; cbn [fold_left brought].
  - repeat split; intros; cbn in *; try tauto; try lia.
  - cbn [fst snd].
    destruct (IH (JsMap.set k' (default 0%Z (JsMap.get k' cw) + v)%Z cw))
      as (Hw & Hk & Hn).
    split; [|split].
    + intros k. rewrite Hw, weight_set.
      destruct (key_eqb k k') eqn:E.
      * apply key_eqb_eq in E. subst k'. unfold weight. lia.
      * lia.
    + intros k. rewrite Hk, In_keys_set. cbn. intuition congruence.
    + intros H. now apply Hn, NoDup_keys_set.
Qed.

Lemma weight_absent (m : Weights) (k : T) :
  ~ In k (JsMap.keys m) -> weight m k = 0%Z.
Proof. intros H. unfold weight. now rewrite get_None. Qed.

Lemma brought_absent (r : Weights) (k : T) :
  ~ In k (JsMap.keys r) -> brought r k = 0%Z.
Proof.
  induction r as [|[k' v] r IH]; cbn; intros H; [reflexivity|].
  rewrite key_eqb_neq by (intros ->; apply H; now left).
  rewrite IH; [reflexivity|]. intros Hin. apply H. now right.
Qed.

Lemma In_entry_weight (m : Weights) (k : T) (c : Z) :
  NoDup (JsMap.keys m) -> In (k, c) m -> weight m k = c.
Proof.
  induction m as [|[k' v'] m IH]; cbn; intros Hnd Hin; [destruct Hin|].
  inversion Hnd as [|? ? Hk Hm]; subst. unfold weight. cbn.
  destruct Hin as [[= -> ->] | Hin].
  - now rewrite key_eqb_refl.
  - rewrite key_eqb_neq.
    + now apply IH.
    + intros ->. apply Hk. apply (in_map fst) in Hin. exact Hin.
Qed.

Lemma In_keys_entry (m : Weights) (k : T) :
  In k (JsMap.keys m) -> In (k, weight m k) m.
Proof.
  intros H. destruct (In_keys_get _ _ H) as (v & Hv).
  unfold weight. rewrite Hv. now apply get_Some_In.
Qed.

(** The keys [postFilter] returns: those of the map whose weight reaches
    the threshold. *)
Lemma postFilter_spec (o : IOptions T) (m : Weights) (toks : list string)
    (k : T) :
  NoDup (JsMap.keys m) ->
  In k (Ngram.postFilter o m toks)
  <-> In k (JsMap.keys m)
      /\ Qle_bool (Ngram.getLimit (actuationLimitAuto o) (List.length toks)
                     (actuationLimit o))
           (inject_Z (weight m k)) = true.
Proof.
  intros Hnd. unfold Ngram.postFilter. rewrite in_map_iff. split.
  - intros ([k' c] & <- & Hin). apply filter_In in Hin.
    destruct Hin as [Hin Hc]. cbn [fst snd] in *.
    rewrite (In_entry_weight _ _ _ Hnd Hin). split; [|exact Hc].
    apply (in_map fst) in Hin. exact Hin.
  - intros [Hin Hc]. exists (k, weight m k). split; [reflexivity|].
    apply filter_In. split; [now apply In_keys_entry|exact Hc].
Qed.

Lemma keys_delete (k : T) (m : Weights) :
  NoDup (JsMap.keys m) ->
  (forall t, In t (JsMap.keys (JsMap.delete k m))
             <-> t <> k /\ In t (JsMap.keys m))
  /\ NoDup (JsMap.keys (JsMap.delete k m))
  /\ (forall t, t <> k -> weight (JsMap.delete k m) t = weight m t).
Proof.
  induction m as [|[k' v'] m IH]; cbn; intros Hnd.
  - repeat split; try tauto; try constructor.
  - inversion Hnd as [|? ? Hk Hm]; subst.
    destruct (IH Hm) as (Hin & Hnd' & Hw).
    destruct (key_eqb k k') eqn:E.
    + apply key_eqb_eq in E. subst k'. split; [|split].
      * intros t. split.
        -- intros H. split; [|now right]. intros ->. contradiction.
        -- intros [Hne [-> | H]]; [contradiction|exact H].
      * exact Hm.
      * intros t Hne. unfold weight. cbn. now rewrite key_eqb_neq.
    + split; [|split].
      * intros t. cbn. rewrite Hin. split.
        -- intros [<- | [Hne H]].
           ++ split; [|now left]. intros ->. now rewrite key_eqb_refl in E.
           ++ split; [exact Hne|now right].
        -- intros [Hne [-> | H]]; [now left|right; now split].
      * cbn. constructor; [|exact Hnd'].
        intros H. apply Hin in H. now apply Hk.
      * intros t Hne. unfold weight in *. cbn.
        destruct (key_eqb t k'); [reflexivity|]. now apply Hw.
Qed.

Lemma delete_all_spec (hits : list T) (m : Weights) :
  NoDup (JsMap.keys m) ->
  let m' := fold_left (fun acc r => JsMap.delete r acc) hits m in
  (forall t, In t (JsMap.keys m') <-> ~ In t hits /\ In t (JsMap.keys m))
  /\ NoDup (JsMap.keys m')
  /\ (forall t, ~ In t hits -> weight m' t = weight m t).
Proof.
  revert m. induction hits as [|h hits IH]; intros m Hnd; cbn [fold_left].
  - cbn. repeat split; tauto.
  - destruct (keys_delete h m Hnd) as (Hin & Hnd' & Hw).
    destruct (IH (JsMap.delete h m) Hnd') as (Hin2 & Hnd2 & Hw2).
    cbv zeta in *. split; [|split].
    + intros t. rewrite Hin2, Hin. cbn. intuition congruence.
    + exact Hnd2.
    + intros t Hnot. rewrite Hw2 by (intros H; apply Hnot; now right).
      apply Hw. intros ->. apply Hnot. now left.
Qed.

End WeightFacts.

(** ** The keys yielded by the cursor of the TypeScript source *)

Section Yielded.
Context {T : Type} {JK : JsKey T}.
Variable o : IOptions T.
Variable toks : list string.

Local Abbreviation Weights := (JsMap.t T Z).

Local Abbreviation reaches := (reaches_threshold o toks).

Lemma reaches_mono (a b : Z) : (a <= b)%Z -> reaches a -> reaches b.
Proof.
  unfold reaches_threshold. rewrite !Qle_bool_iff. intros Hab Ha.
  eapply Qle_trans; [exact Ha|]. now rewrite <- Zle_Qle.
Qed.

Lemma take_batch_spec (m : Weights) :
  NoDup (JsMap.keys m) ->
  let (sub, m') := Ngram.take_batch o toks m in
  (forall k, In k sub
             <-> truthy k = true /\ In k (JsMap.keys m) /\ reaches (weight m k))
  /\ (forall k, In k (JsMap.keys m')
                <-> In k (JsMap.keys m) /\ ~ reaches (weight m k))
  /\ NoDup (JsMap.keys m')
  /\ (forall k, In k (JsMap.keys m') -> weight m' k = weight m k).
Proof.
  intros Hnd. unfold Ngram.take_batch.
  pose proof (fun k => postFilter_spec o m toks k Hnd) as Hhits.
  change (forall k, In k (Ngram.postFilter o m toks)
                    <-> In k (JsMap.keys m) /\ reaches (weight m k)) in Hhits.
  destruct (delete_all_spec (Ngram.postFilter o m toks) m Hnd)
    as (Hk & Hnd' & Hw).
  split; [|split; [|split]].
  - intros k. rewrite <- in_rev, filter_In, Hhits. tauto.
  - intros k. rewrite Hk, Hhits. tauto.
  - exact Hnd'.
  - intros k Hin. apply Hw. apply Hk in Hin. tauto.
Qed.

Lemma In_concat_batches (sub : list T) (rest : list (list T)) (k : T) :
  In k (List.concat match sub with [] => rest | _ :: _ => sub :: rest end)
  <-> In k sub \/ In k (List.concat rest).
Proof.
  destruct sub as [|x sub]; [cbn; tauto|].
  cbn [List.concat]. rewrite in_app_iff. tauto.
Qed.

Lemma held_by_some_cons (r : Weights) (rs : list Weights) (k : T) :
  held_by_some (r :: rs) k <-> In k (JsMap.keys r) \/ held_by_some rs k.
Proof.
  unfold held_by_some. split.
  - intros (r' & [<- | Hin] & Hk); [now left|right; eauto].
  - intros [Hk | (r' & Hin & Hk)]; [exists r|exists r']; cbn; tauto.
Qed.

(** A key that is yielded is held by the running map or by an answer to
    come, and the weights still to be merged bring it to the threshold. *)
Lemma yielded_sound (rs : list Weights) (cw : Weights) (k : T) :
  NoDup (JsMap.keys cw) ->
  (forall t, (0 <= weight cw t)%Z) ->
  (forall r t, In r rs -> (0 <= brought r t)%Z) ->
  In k (List.concat (batches_from o toks cw rs)) ->
  (In k (JsMap.keys cw) \/ held_by_some rs k)
  /\ reaches (weight cw k + brought_by_all rs k).
Proof.
  revert cw. induction rs as [|r rs IH]; intros cw Hnd Hpos Hrs;
    cbn [batches_from brought_by_all fold_right]; [intros []|].
  destruct (merge_weights_spec r cw) as (Hw & Hk & Hn).
  specialize (Hn Hnd).
  pose proof (take_batch_spec (Ngram.merge_weights cw r) Hn) as Hb.
  destruct (Ngram.take_batch o toks (Ngram.merge_weights cw r)) as [sub cw'].
  destruct Hb as (Hsub & Hkeys & Hnd' & Hsame).
  assert (Hrest : (0 <= brought_by_all rs k)%Z).
  { clear - Hrs. induction rs as [|r' rs IH]; cbn; [lia|].
    assert (0 <= brought r' k)%Z by (apply Hrs; now right; left).
    assert (0 <= brought_by_all rs k)%Z.
    { apply IH. intros r0 t [-> | H0]; apply Hrs; [now left|now right; right]. }
    unfold brought_by_all in *. lia. }
  assert (Hr : forall t, (0 <= brought r t)%Z) by (intros t; apply Hrs; now left).
  rewrite In_concat_batches, held_by_some_cons. intros [Hin | Hin].
  - apply Hsub in Hin. destruct Hin as (_ & Hin & Hreach).
    apply Hk in Hin. split; [tauto|].
    rewrite Hw in Hreach. eapply reaches_mono; [|exact Hreach].
    fold (brought_by_all rs k). lia.
  - assert (Hpos' : forall t, (0 <= weight cw' t)%Z).
    { intros t. destruct (in_dec key_eq_dec t (JsMap.keys cw')) as [H|H].
      - rewrite Hsame, Hw by exact H. specialize (Hpos t). specialize (Hr t).
        lia.
      - rewrite weight_absent by exact H. lia. }
    destruct (IH cw' Hnd' Hpos' (fun r0 t H => Hrs r0 t (or_intror H)) Hin)
      as (Hheld & Hreach).
    split.
    + destruct Hheld as [Hc | Hh]; [|tauto].
      apply Hkeys in Hc. destruct Hc as [Hc _]. apply Hk in Hc. tauto.
    + eapply reaches_mono; [|exact Hreach].
      fold (brought_by_all rs k).
      assert (weight cw' k <= weight cw k + brought r k)%Z; [|lia].
      destruct (in_dec key_eq_dec k (JsMap.keys cw')) as [H|H].
      * rewrite Hsame, Hw by exact H. lia.
      * rewrite weight_absent by exact H. specialize (Hpos k).
        specialize (Hr k). lia.
Qed.

(** A truthy key that is held by the running map or by an answer to come,
    and that the weights still to be merged bring to the threshold, is
    yielded, provided no key of the running map is at the threshold yet. *)
Lemma yielded_complete (rs : list Weights) (cw : Weights) (k : T) :
  NoDup (JsMap.keys cw) ->
  (forall t, In t (JsMap.keys cw) -> ~ reaches (weight cw t)) ->
  truthy k = true ->
  In k (JsMap.keys cw) \/ held_by_some rs k ->
  reaches (weight cw k + brought_by_all rs k) ->
  In k (List.concat (batches_from o toks cw rs)).
Proof.
  revert cw. induction rs as [|r rs IH]; intros cw Hnd Hbelow Htrue Hheld;
    cbn [batches_from brought_by_all fold_right].
  - rewrite Z.add_0_r. intros Hreach.
    destruct Hheld as [Hc | (r & [] & _)]. now apply Hbelow in Hc.
  - fold (brought_by_all rs k). intros Hreach.
    destruct (merge_weights_spec r cw) as (Hw & Hk & Hn).
    specialize (Hn Hnd).
    pose proof (take_batch_spec (Ngram.merge_weights cw r) Hn) as Hb.
    destruct (Ngram.take_batch o toks (Ngram.merge_weights cw r))
      as [sub cw'].
    destruct Hb as (Hsub & Hkeys & Hnd' & Hsame).
    rewrite In_concat_batches.
    assert (Hbelow' : forall t, In t (JsMap.keys cw') ->
                                ~ reaches (weight cw' t)).
    { intros t Ht. rewrite Hsame by exact Ht. now apply Hkeys in Ht. }
    rewrite held_by_some_cons in Hheld.
    destruct (in_dec key_eq_dec k (JsMap.keys (Ngram.merge_weights cw r)))
      as [Hin | Hout].
    + destruct (in_dec key_eq_dec k (JsMap.keys cw')) as [Hin' | Hout'].
      * right. apply (IH cw' Hnd' Hbelow' Htrue); [now left|].
        rewrite Hsame, Hw by exact Hin'.
        now rewrite <- Z.add_assoc.
      * left. apply Hsub. split; [exact Htrue|]. split; [exact Hin|].
        unfold reaches_threshold.
        match goal with |- ?b = true => destruct b eqn:E end; [reflexivity|].
        exfalso. apply Hout'. apply Hkeys. split; [exact Hin|].
        unfold reaches_threshold. now rewrite E.
    + assert (Hc : ~ In k (JsMap.keys cw)) by (intros H; apply Hout, Hk; tauto).
      assert (Hr : ~ In k (JsMap.keys r)) by (intros H; apply Hout, Hk; tauto).
      right. apply (IH cw' Hnd' Hbelow' Htrue); [tauto|].
      rewrite weight_absent in Hreach by exact Hc.
      rewrite brought_absent in Hreach by exact Hr.
      rewrite weight_absent; [exact Hreach|].
      intros H. apply Hkeys in H. tauto.
Qed.

(** The map [findAll] filters: every answer merged, in any order. *)
Lemma merged_spec (rs : list Weights) (cw : Weights) :
  NoDup (JsMap.keys cw) ->
  (forall k, weight (fold_left Ngram.merge_weights rs cw) k
             = (weight cw k + brought_by_all rs k)%Z)
  /\ (forall k, In k (JsMap.keys (fold_left Ngram.merge_weights rs cw))
                <-> In k (JsMap.keys cw) \/ held_by_some rs k)
  /\ NoDup (JsMap.keys (fold_left Ngram.merge_weights rs cw)).
Proof.
  revert cw. induction rs as [|r rs IH]; intros cw Hnd;
    cbn [fold_left brought_by_all fold_right].
  - split; [|split].
    + intros k. lia.
    + intros k. split; [tauto|]. intros [H | (r & [] & _)]. exact H.
    + exact Hnd.
  - destruct (merge_weights_spec r cw) as (Hw & Hk & Hn).
    destruct (IH _ (Hn Hnd)) as (Hw' & Hk' & Hn').
    split; [|split].
    + intros k. rewrite Hw', Hw. fold (brought_by_all rs k). lia.
    + intros k. rewrite Hk', Hk, held_by_some_cons. tauto.
    + exact Hn'.
Qed.

Lemma brought_by_all_perm (rs rs' : list Weights) (k : T) :
  Permutation rs rs' -> brought_by_all rs k = brought_by_all rs' k.
Proof.
  unfold brought_by_all.
  induction 1; cbn [fold_right]; lia.
Qed.

Lemma held_by_some_perm (rs rs' : list Weights) (k : T) :
  Permutation rs rs' -> held_by_some rs k <-> held_by_some rs' k.
Proof.
  intros H. unfold held_by_some.
  split; intros (r & Hin & Hk); exists r; split; try exact Hk.
  - now apply (Permutation_in _ H).
  - now apply (Permutation_in _ (Permutation_sym H)).
Qed.

(** The keys [cursorAll] yields, when the answers arrive in any order, are
    the truthy keys that [postFilter] keeps in the merge of all answers. *)
Lemma yielded_iff_found (rs rs' : list Weights) (k : T) :
  Permutation rs rs' ->
  (forall r t, In r rs -> (0 <= brought r t)%Z) ->
  In k (List.concat (batches_from o toks [] rs'))
  <-> truthy k = true
      /\ In k (Ngram.postFilter o (fold_left Ngram.merge_weights rs []) toks).
Proof.
  intros Hperm Hpos.
  destruct (merged_spec rs [] (NoDup_nil _)) as (Hw & Hk & Hn).
  rewrite (postFilter_spec o _ toks k Hn), Hw, Hk.
  change (weight [] k) with 0%Z. rewrite Z.add_0_l.
  rewrite (brought_by_all_perm k Hperm), (held_by_some_perm k Hperm).
  split.
  - intros Hin. split.
    + clear - Hin. revert Hin. generalize (@nil (T * Z)).
      induction rs' as [|r rs' IH]; intros cw; cbn [batches_from]; [intros []|].
      unfold Ngram.take_batch at 1.
      rewrite In_concat_batches, <- in_rev, filter_In.
      intros [[_ H] | H]; [exact H|]. eapply IH. exact H.
    + assert (H0 : forall t, (0 <= weight [] t)%Z) by (intros t; cbn; lia).
      assert (H1 : forall r t, In r rs' -> (0 <= brought r t)%Z).
      { intros r t Hr. apply Hpos.
        now apply (Permutation_in _ (Permutation_sym Hperm)). }
      pose proof (yielded_sound rs' [] k (NoDup_nil _) H0 H1 Hin) as H.
      change (weight [] k) with 0%Z in H. rewrite Z.add_0_l in H.
      cbn [JsMap.keys map In] in H. tauto.
  - intros (Htrue & Hheld & Hreach).
    apply yielded_complete; try assumption;
      first [constructor | now intros t [] | tauto].
Qed.

End Yielded.

(** ** The cursor of the TypeScript source under a schedule *)

Section Scheduling.
Context {T : Type} {JK : JsKey T}.
Variable o : IOptions T.
Variable toks : list string.
Variable ws : list (JsMap.t T Z).

Local Abbreviation Weights := (JsMap.t T Z).
Local Abbreviation answer := (fun i : nat => nth i ws []).

Local Abbreviation unconsumed := (unconsumed_answers ws).

Lemma nth_error_set_never {A} (i j : nat) (l : list (option A)) :
  i <> j -> nth_error (Ngram.set_never i l) j = nth_error l j.
Proof.
  revert i j. induction l as [|x l IH]; intros [|i] [|j] H; cbn; trivial.
  - contradiction.
  - apply IH. congruence.
Qed.

Lemma unconsumed_tail proms (i : nat) (sch : list nat) :
  unconsumed proms (i :: sch) -> unconsumed (Ngram.set_never i proms) sch.
Proof.
  intros [Hnd H]. inversion Hnd as [|? ? Hi Hnd']; subst. split; [exact Hnd'|].
  intros j Hj. rewrite nth_error_set_never.
  - apply H. now right.
  - intros ->. contradiction.
Qed.

Lemma map_answer_seq : map answer (seq 0 (List.length ws)) = ws.
Proof.
  apply (nth_ext _ _ [] []).
  - now rewrite length_map, length_seq.
  - intros n Hn. rewrite length_map, length_seq in Hn.
    rewrite (nth_indep _ [] (answer 0)) by now rewrite length_map, length_seq.
    rewrite (map_nth answer), seq_nth by exact Hn. reflexivity.
Qed.

Lemma unconsumed_init (sch : list nat) :
  Permutation sch (seq 0 (List.length ws)) ->
  unconsumed (map Some (map Ok ws)) sch
  /\ Permutation (map answer sch) ws.
Proof.
  intros Hperm. split; [split|].
  - apply (Permutation_NoDup (Permutation_sym Hperm)), seq_NoDup.
  - intros i Hi. apply (Permutation_in _ Hperm), in_seq in Hi.
    rewrite !nth_error_map, (nth_error_nth' ws []) by lia. reflexivity.
  - eapply Permutation_trans; [apply Permutation_map, Hperm|].
    rewrite map_answer_seq. reflexivity.
Qed.

(** One call of [next]: the end, when the answers still to come yield
    nothing, or the next batch, with a cursor that keeps the invariant. *)
Lemma next_loop_spec (sch : list nat) (cnt : nat)
    (proms : list (option (Res Weights))) (cw : Weights) :
  unconsumed proms sch ->
  cnt = List.length sch ->
  (fst (Ngram.next_loop o toks sch cnt proms cw) = Done
   /\ batches_from o toks cw (map answer sch) = [])
  \/ (exists b c',
        Ngram.next_loop o toks sch cnt proms cw = (Yield b, c')
        /\ unconsumed (Ngram.promises c') (Ngram.sched c')
        /\ Ngram.count c' = List.length (Ngram.sched c')
        /\ List.length (Ngram.sched c') < List.length sch
        /\ Ngram.tokens c' = toks
        /\ Ngram.this_options c' = o
        /\ batches_from o toks cw (map answer sch)
           = b :: batches_from o toks (Ngram.combineWeights c')
                    (map answer (Ngram.sched c'))).
Proof.
  revert cnt proms cw.
  induction sch as [|i sch IH]; intros cnt proms cw Hinv ->.
  - left. now split.
  - cbn [List.length Ngram.next_loop map batches_from].
    rewrite (proj2 Hinv i (or_introl eq_refl)).
    destruct (Ngram.take_batch o toks (Ngram.merge_weights cw (answer i)))
      as [sub cw'].
    destruct sub as [|x sub].
    + destruct (IH (List.length sch) (Ngram.set_never i proms) cw'
                  (unconsumed_tail Hinv) eq_refl)
        as [Hdone | (b & c' & H1 & H2 & H3 & H4 & H5 & H6 & H7)].
      * now left.
      * right. exists b, c'. repeat split; try assumption; try tauto.
        -- apply H2.
        -- apply H2.
        -- lia.
    + right. eexists. eexists. split; [reflexivity|].
      cbn [Ngram.promises Ngram.sched Ngram.count Ngram.tokens
           Ngram.this_options Ngram.combineWeights].
      repeat split; try reflexivity; try apply (unconsumed_tail Hinv). lia.
Qed.

(** Draining the cursor yields the batches of the answers in the order of
    the schedule, and then the end. *)
Lemma drain_spec (fuel : nat) (c : Ngram.Cursor) :
  Ngram.tokens c = toks ->
  Ngram.this_options c = o ->
  unconsumed (Ngram.promises c) (Ngram.sched c) ->
  Ngram.count c = List.length (Ngram.sched c) ->
  List.length (Ngram.sched c) < fuel ->
  drain Ngram.next fuel c
  = Some (batches_from o toks (Ngram.combineWeights c)
            (map answer (Ngram.sched c)),
          Done).
Proof.
  revert c. induction fuel as [|fuel IH]; intros c Ht Ho Hinv Hcnt Hfuel;
    [lia|].
  cbn [drain].
  assert (Hn : Ngram.next c
               = Ngram.next_loop o toks (Ngram.sched c) (Ngram.count c)
                   (Ngram.promises c) (Ngram.combineWeights c)).
  { unfold Ngram.next. now rewrite Ht, Ho. }
  rewrite Hn.
  destruct (next_loop_spec (Ngram.combineWeights c) Hinv Hcnt)
    as [[Hdone Hnone] | (b & c' & H1 & H2 & H3 & H4 & H5 & H6 & H7)].
  - rewrite Hnone.
    destruct (Ngram.next_loop _ _ _ _ _ _) as [step c']. cbn [fst] in Hdone.
    now subst step.
  - rewrite H1, H7, (IH c' H5 H6 H2 H3) by lia. reflexivity.
Qed.

End Scheduling.

(** ** [cursorAll] against [findAll] *)

Section Agreement.
Context {T : Type} {JK : JsKey T}.

Local Abbreviation Weights := (JsMap.t T Z).
Local Abbreviation Index := (NgramIndice T).

Lemma brought_nonneg (w : Weights) (k : T) : nonneg w -> (0 <= brought w k)%Z.
Proof.
  induction 1 as [|[k' v] w Hv _ IH]; cbn in *; [lia|].
  destruct (key_eqb k k'); lia.
Qed.

Lemma get_nonneg (w : Weights) (k : T) :
  nonneg w -> (0 <= default 0 (JsMap.get k w))%Z.
Proof.
  induction 1 as [|[k' v] w Hv _ IH]; cbn in *; [lia|].
  destruct (key_eqb k k'); [exact Hv|exact IH].
Qed.

Lemma set_nonneg (w : Weights) (k : T) (v : Z) :
  nonneg w -> (0 <= v)%Z -> nonneg (JsMap.set k v w).
Proof.
  intros Hw Hv. induction Hw as [|[k' v'] w Hv' Hw IH]; cbn.
  - repeat constructor. exact Hv.
  - destruct (key_eqb k k'); constructor; assumption.
Qed.

Lemma count_ids_nonneg (ids : list T) (acc : Weights) :
  nonneg acc -> nonneg (Ngram.count_ids ids acc).
Proof.
  unfold Ngram.count_ids. revert acc.
  induction ids as [|i ids IH]; intros acc H; cbn [fold_left]; [exact H|].
  apply IH, set_nonneg; [exact H|]. pose proof (get_nonneg i H). lia.
Qed.

Lemma count_tokens_of_map (m : JsMap.t string (list T)) (toks : list string)
    (acc : Weights) :
  nonneg acc ->
  exists w, Ngram.count_tokens (IMap m) toks acc = Ok w /\ nonneg w.
Proof.
  revert acc. induction toks as [|t toks IH]; intros acc H;
    cbn [Ngram.count_tokens Ngram.getIndices bind].
  - now exists acc.
  - apply IH. destruct (JsMap.get t m); [now apply count_ids_nonneg|exact H].
Qed.

Lemma preFilter_all_queryable (shards : list Index) (toks : list string) :
  Forall queryable shards ->
  exists ws,
    fst (Ngram.preFilter_all shards toks) = map Ok ws
    /\ Forall nonneg ws
    /\ List.length ws = List.length shards.
Proof.
  induction 1 as [|sh shards [Hl (m & Hm)] _ (ws & Hws & Hpos & Hlen)];
    cbn [Ngram.preFilter_all].
  - now exists [].
  - rewrite (preFilter_when_loaded sh toks Hl), Hm.
    destruct (count_tokens_of_map m toks (acc := [])) as (w & Hw & Hn);
      [constructor|].
    rewrite Hw. destruct (Ngram.preFilter_all shards toks) as [rs ss].
    cbn [fst] in *. subst rs. exists (w :: ws).
    split; [reflexivity|]. split; [now constructor|]. cbn. now rewrite Hlen.
Qed.

Lemma promise_all_ok {A} (l : list A) : Ngram.promise_all (map Ok l) = Ok l.
Proof.
  induction l as [|a l IH]; cbn; [reflexivity|]. now rewrite IH.
Qed.

(** X2.  For shards that answer, whatever the order in which they do, the
    keys that the cursor of the TypeScript source yields over all its batches
    are the keys [findAll] returns that are truthy. *)
Theorem cursorAll_yields_truthy_found (this : Index) (shards : list Index)
    (v : Value) (schedule : list nat) :
  Forall queryable shards ->
  Permutation schedule (seq 0 (List.length shards)) ->
  exists found batches,
    fst (Ngram.findAll this shards v) = Ok found
    /\ drain Ngram.next (S (List.length schedule))
         (fst (Ngram.cursorAll this shards v schedule))
       = Some (batches, Done)
    /\ forall k, In k (List.concat batches)
                 <-> truthy k = true /\ In k found.
Proof.
  intros Hq Hperm.
  set (toks := Ngram.tokens_of (options this) v).
  destruct (preFilter_all_queryable toks Hq) as (ws & Hws & Hpos & Hlen).
  unfold Ngram.findAll, Ngram.cursorAll. fold toks.
  destruct (Ngram.preFilter_all shards toks) as [rs shards'].
  cbn [fst] in *. subst rs. rewrite promise_all_ok. cbn [bind].
  rewrite <- Hlen in Hperm.
  destruct (unconsumed_init ws Hperm) as [Hinv Hans].
  eexists. eexists. split; [reflexivity|]. split.
  - apply (drain_spec (o := options this) (toks := toks) (ws := ws));
      cbn [Ngram.tokens Ngram.this_options Ngram.promises Ngram.sched
           Ngram.count]; try reflexivity; try exact Hinv; try lia.
    rewrite (Permutation_length Hperm), length_seq. now symmetry.
  - intros k. cbn [Ngram.combineWeights].
    apply yielded_iff_found; [now apply Permutation_sym|].
    intros r t Hr. apply brought_nonneg.
    rewrite Forall_forall in Hpos. now apply Hpos.
Qed.

End Agreement.

Lemma cursorAll_yields_truthy_found_witness :
  exists found batches,
    fst (Ngram.findAll seven_index [seven_index] (VString "abcd")) = Ok found
    /\ drain Ngram.next 2
         (fst (Ngram.cursorAll seven_index [seven_index] (VString "abcd") [0]))
       = Some (batches, Done)
    /\ forall k, In k (List.concat batches)
                 <-> truthy k = true /\ In k found.
Proof.
  assert (Hq : Forall queryable [seven_index]).
  { constructor; [|constructor]. split; [reflexivity|eexists; reflexivity]. }
  exact (@cursorAll_yields_truthy_found Z _ seven_index [seven_index]
           (VString "abcd") [0] Hq (Permutation_refl [0])).
Defined.

(** ** More facts on Maps *)

Section MoreMapFacts.
Context {K V : Type} {JKK : JsKey K}.

Lemma keys_set_iff (t k : K) (v : V) (m : JsMap.t K V) :
  In t (JsMap.keys (JsMap.set k v m)) <-> t = k \/ In t (JsMap.keys m).
Proof.
  split; [apply keys_set|].
  induction m as [|[k' v'] m IH]; cbn.
  - intros [-> | []]. now left.
  - destruct (key_eqb k k') eqn:E; cbn.
    + apply key_eqb_eq in E. subst k'. intros [-> | [-> | H]]; auto.
    + intros [-> | [-> | H]]; auto.
Qed.

Lemma NoDup_set (k : K) (v : V) (m : JsMap.t K V) :
  NoDup (JsMap.keys m) -> NoDup (JsMap.keys (JsMap.set k v m)).
Proof.
  induction m as [|[k' v'] m IH]; cbn; intros H.
  - repeat constructor. tauto.
  - inversion H as [|? ? Hk Hm]; subst.
    destruct (key_eqb k k') eqn:E; cbn; [exact H|].
    constructor; [|now apply IH].
    intros Hin. apply keys_set in Hin. destruct Hin as [-> | Hin].
    + now rewrite key_eqb_refl in E.
    + contradiction.
Qed.
End MoreMapFacts.

(** ** What a query counts *)

Section Counts.
Context {T : Type} {JK : JsKey T}.

Local Abbreviation Weights := (JsMap.t T Z).
Local Abbreviation Index := (NgramIndice T).

Lemma count_key_app (k : T) (a b : list T) :
  count_key k (a ++ b) = count_key k a + count_key k b.
Proof. unfold count_key. now rewrite filter_app, length_app. Qed.

Lemma count_key_pos (k : T) (l : list T) : 0 < count_key k l <-> In k l.
Proof.
  unfold count_key. induction l as [|x l IH]; cbn; [split; [lia|tauto]|].
  destruct (key_eqb k x) eqn:E; cbn.
  - apply key_eqb_eq in E. subst x. split; [now left|lia].
  - rewrite IH. split; [now right|].
    intros [-> | H]; [now rewrite key_eqb_refl in E|exact H].
Qed.

Lemma count_key_repeat (k : T) (n : nat) : count_key k (repeat k n) = n.
Proof.
  unfold count_key. induction n as [|n IH]; cbn; [reflexivity|].
  rewrite key_eqb_refl. cbn. now rewrite IH.
Qed.

(** The [indices.forEach] of [preFilter] adds one to the count of a key
    for each of its entries. *)
Lemma count_ids_spec (ids : list T) (acc : Weights) :
  (forall k, weight (Ngram.count_ids ids acc) k
             = (weight acc k + Z.of_nat (count_key k ids))%Z)
  /\ (forall k, In k (JsMap.keys (Ngram.count_ids ids acc))
                <-> In k (JsMap.keys acc) \/ In k ids)
  /\ (NoDup (JsMap.keys acc) -> NoDup (JsMap.keys (Ngram.count_ids ids acc))).
Proof.
  unfold Ngram.count_ids. revert acc.
  induction ids as [|i ids IH]; intros acc; cbn [fold_left].
  - repeat split; intros; cbn in *; try tauto; try lia.
  - destruct (IH (JsMap.set i (default 0%Z (JsMap.get i acc) + 1)%Z acc))
      as (Hw & Hk & Hn).
    split; [|split].
    + intros k. rewrite Hw, weight_set. unfold count_key. cbn [filter].
      destruct (key_eqb k i) eqn:E.
      * apply key_eqb_eq in E. subst i. unfold weight. cbn [List.length]. lia.
      * lia.
    + intros k. rewrite Hk, In_keys_set. cbn. intuition congruence.
    + intros H. now apply Hn, NoDup_keys_set.
Qed.

Lemma occurrences_cons (post : string -> list T) (t : string)
    (toks : list string) (k : T) :
  occurrences post (t :: toks) k
  = (Z.of_nat (count_key k (post t)) + occurrences post toks k)%Z.
Proof. reflexivity. Qed.

Lemma occurrences_nonneg (post : string -> list T) (toks : list string)
    (k : T) : (0 <= occurrences post toks k)%Z.
Proof.
  unfold occurrences. induction toks as [|t toks IH]; cbn [fold_right]; lia.
Qed.

Lemma occurrences_ext (f g : string -> list T) (toks : list string) (k : T) :
  (forall t, f t = g t) -> occurrences f toks k = occurrences g toks k.
Proof.
  intros H. induction toks as [|t toks IH]; [reflexivity|].
  now rewrite !occurrences_cons, IH, H.
Qed.

Lemma occurrences_app (f g : string -> list T) (toks : list string) (k : T) :
  occurrences (fun t => f t ++ g t) toks k
  = (occurrences f toks k + occurrences g toks k)%Z.
Proof.
  induction toks as [|t toks IH]; [reflexivity|].
  rewrite !occurrences_cons, IH, count_key_app. lia.
Qed.

(** A key has an occurrence when it stands in the posting list of one of
    the tokens. *)
Lemma occurrences_pos (post : string -> list T) (toks : list string)
    (k : T) :
  (0 < occurrences post toks k)%Z <-> exists t, In t toks /\ In k (post t).
Proof.
  induction toks as [|t toks IH].
  - cbn. split; [lia|]. intros (t & [] & _).
  - rewrite occurrences_cons. pose proof (occurrences_nonneg post toks k).
    split.
    + intros H0.
      destruct (Nat.eq_dec (count_key k (post t)) 0) as [E | E].
      * rewrite E in H0. destruct (proj1 IH) as (t' & Ht & Hk); [lia|].
        exists t'. split; [now right|exact Hk].
      * exists t. split; [now left|]. apply count_key_pos. lia.
    + intros (t' & [<- | Ht] & Hk).
      * apply count_key_pos in Hk. lia.
      * assert (0 < occurrences post toks k)%Z by (apply IH; eauto). lia.
Qed.

(** The counts [preFilter] returns for an index that keeps its posting
    lists in a Map. *)
Lemma count_tokens_spec (m : JsMap.t string (list T)) (toks : list string)
    (acc : Weights) :
  let post := fun t => default [] (JsMap.get t m) in
  exists w,
    Ngram.count_tokens (IMap m) toks acc = Ok w
    /\ (forall k, weight w k = (weight acc k + occurrences post toks k)%Z)
    /\ (forall k, In k (JsMap.keys w)
                  <-> In k (JsMap.keys acc) \/ (0 < occurrences post toks k)%Z)
    /\ (NoDup (JsMap.keys acc) -> NoDup (JsMap.keys w)).
Proof.
  intros post. revert acc. induction toks as [|t toks IH]; intros acc;
    cbn [Ngram.count_tokens Ngram.getIndices bind].
  - exists acc. cbn. repeat split; intros; try tauto; try lia. intuition lia.
  - set (acc' := match JsMap.get t m with
                 | Some ids => Ngram.count_ids ids acc
                 | None => acc
                 end).
    assert (Hacc : (forall k, weight acc' k
                              = (weight acc k
                                 + Z.of_nat (count_key k (post t)))%Z)
                   /\ (forall k, In k (JsMap.keys acc')
                                 <-> In k (JsMap.keys acc) \/ In k (post t))
                   /\ (NoDup (JsMap.keys acc) -> NoDup (JsMap.keys acc'))).
    { subst acc' post. cbv beta.
      destruct (JsMap.get t m) as [ids|]; cbn [default].
      - apply count_ids_spec.
      - split; [|split].
        + intros k. unfold count_key. cbn [filter List.length Z.of_nat]. lia.
        + intros k. cbn [In]. tauto.
        + tauto. }
    destruct Hacc as (Hw0 & Hk0 & Hn0).
    destruct (IH acc') as (w & Hrun & Hw & Hk & Hn).
    exists w. split; [exact Hrun|]. split; [|split].
    + intros k. rewrite Hw, Hw0, occurrences_cons. lia.
    + intros k.
      rewrite Hk, Hk0, <- (count_key_pos k (post t)), occurrences_cons.
      pose proof (occurrences_nonneg post toks k).
      assert (Hz : (0 < Z.of_nat (count_key k (post t))
                        + occurrences post toks k)%Z
                   <-> 0 < count_key k (post t)
                       \/ (0 < occurrences post toks k)%Z) by lia.
      rewrite Hz. tauto.
    + intros H. now apply Hn, Hn0.
Qed.

Lemma NoDup_postFilter (o : IOptions T) (w : Weights) (toks : list string) :
  NoDup (JsMap.keys w) -> NoDup (Ngram.postFilter o w toks).
Proof.
  unfold Ngram.postFilter, JsMap.keys.
  induction w as [|[k c] w IH]; cbn; intros H; [constructor|].
  inversion H as [|? ? Hk Hw]; subst.
  destruct (Qle_bool _ _); cbn; [|now apply IH].
  constructor; [|now apply IH].
  intros Hin. apply Hk. apply in_map_iff in Hin.
  destruct Hin as (e & <- & He). apply filter_In in He.
  apply in_map. tauto.
Qed.

(** [preFilter] on a loaded index that keeps its posting lists in a Map
    counts the occurrences, and leaves the index as it was. *)
Lemma preFilter_queryable (s : Index) (toks : list string) :
  queryable s ->
  exists w, Ngram.preFilter s toks = (Ok w, s) /\ answers toks s w.
Proof.
  intros (Hl & m & Hm). rewrite (preFilter_when_loaded s toks Hl), Hm.
  destruct (count_tokens_spec m toks []) as (w & Hrun & Hw & Hk & Hn).
  assert (Hext : forall k,
             occurrences (fun t => default [] (JsMap.get t m)) toks k
             = occurrences (postings s) toks k).
  { intros k. apply occurrences_ext. intros t. unfold postings.
    now rewrite Hm. }
  exists w. rewrite Hrun. split; [reflexivity|]. split; [apply Hn; constructor|].
  split.
  - intros k. rewrite Hw, Hext. reflexivity.
  - intros k. rewrite Hk, Hext. cbn. tauto.
Qed.

(** X3.  [find] on a loaded index that keeps its posting lists in a Map: it
    returns, without repetition, the keys that have an occurrence in the
    posting lists of the tokens of the query and whose number of
    occurrences reaches the limit; the index is left as it was. *)
Theorem find_counts_occurrences (s : Index) (v : option Value) :
  queryable s ->
  exists found,
    Ngram.find s v = (Ok found, s)
    /\ NoDup found
    /\ forall k,
         In k found
         <-> (0 < occurrences (postings s) (query_tokens s v) k)%Z
             /\ reaches_threshold (options s) (query_tokens s v)
                  (occurrences (postings s) (query_tokens s v) k).
Proof.
  intros Hq. unfold Ngram.find. fold (query_tokens s v).
  destruct (preFilter_queryable (query_tokens s v) Hq)
    as (w & Hrun & Hnd & Hw & Hk).
  rewrite Hrun. eexists. split; [reflexivity|].
  split; [now apply NoDup_postFilter|].
  intros k. rewrite (postFilter_spec _ _ _ _ Hnd), Hk, Hw. reflexivity.
Qed.

(** In a map without repeated key, a key brings its weight to a merge. *)
Lemma brought_weight (w : Weights) (k : T) :
  NoDup (JsMap.keys w) -> brought w k = weight w k.
Proof.
  induction w as [|[k' c] w IHw]; intros Hnd; [reflexivity|].
  inversion Hnd as [|? ? Hk' Hw']; subst.
  specialize (IHw Hw'). unfold weight in *. cbn [brought JsMap.get].
  destruct (key_eqb k k') eqn:E; cbn [default].
  - apply key_eqb_eq in E. subst k'. rewrite brought_absent by exact Hk'.
    lia.
  - rewrite IHw. lia.
Qed.

Lemma preFilter_all_counts (shards : list Index) (toks : list string) :
  Forall queryable shards ->
  exists ws,
    Ngram.preFilter_all shards toks = (map Ok ws, shards)
    /\ Forall2 (answers toks) shards ws.
Proof.
  induction 1 as [|sh shards Hq _ (ws & Hws & Hall)];
    cbn [Ngram.preFilter_all].
  - exists []. split; [reflexivity|constructor].
  - destruct (preFilter_queryable toks Hq) as (w & Hrun & Hw).
    rewrite Hrun, Hws. exists (w :: ws). split; [reflexivity|].
    now constructor.
Qed.

Lemma answers_sum (toks : list string) (shards : list Index)
    (ws : list Weights) :
  Forall2 (answers toks) shards ws ->
  forall k,
    brought_by_all ws k = occurrences (postings_all shards) toks k
    /\ (held_by_some ws k
        <-> (0 < occurrences (postings_all shards) toks k)%Z).
Proof.
  induction 1 as [|sh w shards ws (Hnd & Hw & Hk) _ IH]; intros k.
  - split.
    + cbn. induction toks as [|t toks IHt]; [reflexivity|].
      rewrite occurrences_cons, <- IHt. reflexivity.
    + assert (E : occurrences (postings_all []) toks k = 0%Z).
      { induction toks as [|t toks IHt]; [reflexivity|].
        rewrite occurrences_cons, IHt. reflexivity. }
      rewrite E. split; [intros (r & [] & _)|lia].
  - destruct (IH k) as [IHb IHh].
    change (occurrences (postings_all (sh :: shards)) toks k)
      with (occurrences (fun t => postings sh t ++ postings_all shards t)
              toks k).
    rewrite occurrences_app. split.
    + cbn [brought_by_all fold_right]. fold (brought_by_all ws k).
      rewrite IHb, <- Hw.
      rewrite (brought_weight w k Hnd). lia.
    + rewrite held_by_some_cons, IHh, Hk.
      pose proof (occurrences_nonneg (postings sh) toks k).
      pose proof (occurrences_nonneg (postings_all shards) toks k). lia.
Qed.

(** X4.  [findAll] over loaded shards that keep their posting lists in Maps:
    the query is cut into tokens with the options of [this], the
    occurrences of a key are counted over all the shards together, and the
    limit of [this] decides; no key is returned twice and the shards are
    left as they were. *)
Theorem findAll_counts_over_the_shards (this : Index) (shards : list Index)
    (v : Value) :
  Forall queryable shards ->
  exists found,
    Ngram.findAll this shards v = (Ok found, shards)
    /\ NoDup found
    /\ forall k,
         In k found
         <-> (0 < occurrences (postings_all shards)
                    (Ngram.tokens_of (options this) v) k)%Z
             /\ reaches_threshold (options this)
                  (Ngram.tokens_of (options this) v)
                  (occurrences (postings_all shards)
                     (Ngram.tokens_of (options this) v) k).
Proof.
  intros Hq. unfold Ngram.findAll.
  set (toks := Ngram.tokens_of (options this) v).
  destruct (preFilter_all_counts toks Hq) as (ws & Hrun & Hall).
  rewrite Hrun, promise_all_ok. cbn [bind].
  destruct (merged_spec ws [] (NoDup_nil _)) as (Hw & Hk & Hn).
  eexists. split; [reflexivity|]. split; [now apply NoDup_postFilter|].
  intros k. rewrite (postFilter_spec _ _ _ _ Hn), Hw, Hk.
  destruct (answers_sum Hall k) as [Hb Hh].
  change (weight [] k) with 0%Z. rewrite Z.add_0_l, Hb, Hh.
  cbn [JsMap.keys map In]. unfold reaches_threshold. tauto.
Qed.

End Counts.

Lemma find_counts_occurrences_witness :
  exists found,
    Ngram.find seven_index (Some (VString "abcd")) = (Ok found, seven_index)
    /\ NoDup found
    /\ forall k,
         In k found
         <-> (0 < occurrences (postings seven_index)
                    (query_tokens seven_index (Some (VString "abcd"))) k)%Z
             /\ reaches_threshold (options seven_index)
                  (query_tokens seven_index (Some (VString "abcd")))
                  (occurrences (postings seven_index)
                     (query_tokens seven_index (Some (VString "abcd"))) k).
Proof.
  assert (Hq : queryable seven_index).
  { split; [reflexivity|eexists; reflexivity]. }
  exact (@find_counts_occurrences Z _ seven_index (Some (VString "abcd")) Hq).
Defined.

Lemma findAll_counts_over_the_shards_witness :
  exists found,
    Ngram.findAll fresh [seven_index; zero_index] (VString "abcd")
    = (Ok found, [seven_index; zero_index])
    /\ NoDup found
    /\ forall k,
         In k found
         <-> (0 < occurrences (postings_all [seven_index; zero_index])
                    (Ngram.tokens_of (options fresh) (VString "abcd")) k)%Z
             /\ reaches_threshold (options fresh)
                  (Ngram.tokens_of (options fresh) (VString "abcd"))
                  (occurrences (postings_all [seven_index; zero_index])
                     (Ngram.tokens_of (options fresh) (VString "abcd")) k).
Proof.
  assert (Hq : Forall queryable [seven_index; zero_index]).
  { repeat constructor; eexists; reflexivity. }
  exact (@findAll_counts_over_the_shards Z _ fresh [seven_index; zero_index]
           (VString "abcd") Hq).
Defined.

(** ** [add] *)

Section Adding.
Context {T : Type} {JK : JsKey T}.

Local Abbreviation Index := (NgramIndice T).

Lemma count_token_cons (t token : string) (rest : list string) :
  count_token t (token :: rest)
  = (if String.eqb t token then 1 else 0) + count_token t rest.
Proof. unfold count_token. cbn. now destruct (String.eqb t token). Qed.

Lemma count_token_pos (t : string) (toks : list string) :
  In t toks -> 1 <= count_token t toks.
Proof.
  induction toks as [|x toks IH]; [intros []|].
  rewrite count_token_cons. intros [-> | H].
  - rewrite String.eqb_refl. lia.
  - specialize (IH H). lia.
Qed.

(** The [tokens.forEach] of [add] on a Map: each token gets the key at the
    end of its posting list, once for each time the token is listed. *)
Lemma add_tokens_spec (key : T) (toks : list string)
    (m : JsMap.t string (list T)) :
  exists m',
    Ngram.add_tokens key toks (IMap m) = Ok (IMap m')
    /\ (forall t, default [] (JsMap.get t m')
                  = default [] (JsMap.get t m)
                    ++ repeat key (count_token t toks))
    /\ (forall t, In t (JsMap.keys m') <-> In t (JsMap.keys m) \/ In t toks)
    /\ (NoDup (JsMap.keys m) -> NoDup (JsMap.keys m')).
Proof.
  revert m. induction toks as [|token rest IH]; intros m.
  - exists m. split; [reflexivity|]. split; [|split].
    + intros t. cbn. now rewrite app_nil_r.
    + intros t. cbn. tauto.
    + trivial.
  - cbn [Ngram.add_tokens].
    set (m1 := JsMap.set token (default [] (JsMap.get token m) ++ [key]) m).
    destruct (IH m1) as (m' & Hrun & Hget & Hkeys & Hnd).
    exists m'. split; [exact Hrun|]. split; [|split].
    + intros t. rewrite Hget, count_token_cons. subst m1.
      destruct (String.eqb t token) eqn:E.
      * apply String.eqb_eq in E. subst t.
        rewrite get_set_same. cbn [default repeat Nat.add].
        now rewrite <- app_assoc.
      * apply String.eqb_neq in E. now rewrite get_set_other.
    + intros t. rewrite Hkeys. subst m1. rewrite keys_set_iff. cbn [In].
      intuition congruence.
    + intros H. apply Hnd. subst m1. now apply NoDup_set.
Qed.

Lemma add_on_map (s : Index) (m : JsMap.t string (list T)) (key : T)
    (v : Value) :
  indices s = IMap m ->
  exists m',
    Ngram.add s key v
    = (Ok tt, mkIndice (IMap m') (options s) (loadCalls s))
    /\ (forall t, default [] (JsMap.get t m')
                  = default [] (JsMap.get t m)
                    ++ repeat key
                         (count_token t (Ngram.tokens_of (options s) v)))
    /\ (forall t, In t (JsMap.keys m')
                  <-> In t (JsMap.keys m)
                      \/ In t (Ngram.tokens_of (options s) v))
    /\ (NoDup (JsMap.keys m) -> NoDup (JsMap.keys m')).
Proof.
  intros Hm. unfold Ngram.add. rewrite Hm.
  destruct (add_tokens_spec key (Ngram.tokens_of (options s) v) m)
    as (m' & Hrun & H). rewrite Hrun. now exists m'.
Qed.

(** X5.  [add(key, value)] on an index that keeps its posting lists in a Map,
    loaded or not: the call does not throw; the key is appended to the
    posting list of every token of the value, once for each time the token
    occurs in it, and no other entry changes; the tokens held afterwards are
    the ones held before and those of the value; the options are the
    same. *)
Theorem add_appends_the_key (s : Index) (m : JsMap.t string (list T))
    (key : T) (v : Value) :
  indices s = IMap m ->
  exists s',
    Ngram.add s key v = (Ok tt, s')
    /\ options s' = options s
    /\ (forall t, postings s' t
                  = postings s t
                    ++ repeat key
                         (count_token t (Ngram.tokens_of (options s) v)))
    /\ (forall t, In t (tokens_in s')
                  <-> In t (tokens_in s)
                      \/ In t (Ngram.tokens_of (options s) v))
    /\ (NoDup (tokens_in s) -> NoDup (tokens_in s')).
Proof.
  intros Hm.
  destruct (add_on_map s key v Hm) as (m' & Hrun & Hget & Hkeys & Hnd).
  rewrite Hrun. eexists. split; [reflexivity|].
  unfold postings, tokens_in. cbn [options indices]. rewrite Hm.
  repeat split; try apply Hget; try apply Hkeys; try exact Hnd.
Qed.

Lemma occurrences_after_add (post post' : string -> list T)
    (toks : list string) (key : T) :
  (forall t, post' t = post t ++ repeat key (count_token t toks)) ->
  forall part, incl part toks ->
    (Z.of_nat (List.length part) <= occurrences post' part key)%Z.
Proof.
  intros Hpost. induction part as [|t part IH]; intros Hincl.
  - cbn. lia.
  - rewrite occurrences_cons, Hpost, count_key_app, count_key_repeat.
    assert (1 <= count_token t toks).
    { apply count_token_pos, Hincl. now left. }
    assert (Z.of_nat (List.length part) <= occurrences post' part key)%Z.
    { apply IH. intros x Hx. apply Hincl. now right. }
    cbn [List.length]. lia.
Qed.

(** The automatic limit, 40 percent of the number of tokens, does not
    exceed that number. *)
Lemma auto_limit_le (n : nat) (l : Q) :
  (Ngram.getLimit true n l <= inject_Z (Z.of_nat n))%Q.
Proof.
  unfold Ngram.getLimit, AUTO_LIMIT_FIND_PERCENT.
  generalize (Nat2Z.is_nonneg n). generalize (Z.of_nat n). intros z Hz.
  unfold Qle, Qdiv, Qmult, Qinv, inject_Z. cbn. lia.
Qed.

(** X6.  A key that has just been added under a value is found by a query for
    the same value, on a loaded index that keeps its posting lists in a
    Map, as soon as the value has a token and the limit does not exceed the
    number of its tokens (the automatic limit never does). *)
Theorem find_after_add (s : Index) (key : T) (v : Value) :
  queryable s ->
  Ngram.tokens_of (options s) v <> [] ->
  (actuationLimitAuto (options s) = false ->
   (actuationLimit (options s)
    <= inject_Z (Z.of_nat (List.length (Ngram.tokens_of (options s) v))))%Q) ->
  exists found,
    fst (Ngram.find (snd (Ngram.add s key v)) (Some v)) = Ok found
    /\ In key found.
Proof.
  intros (Hl & m & Hm) Hne Hlimit.
  destruct (add_on_map s key v Hm) as (m' & Hadd & Hget & _).
  rewrite Hadd. cbn [snd].
  set (s' := mkIndice (IMap m') (options s) (loadCalls s)).
  assert (Hq : queryable s').
  { split; [exact Hl|now exists m']. }
  set (toks := Ngram.tokens_of (options s) v) in *.
  destruct (preFilter_queryable toks Hq) as (w & Hrun & Hnd & Hw & Hk).
  change (Ngram.find s' (Some v))
    with (match Ngram.preFilter s' toks with
          | (Ok preResult, s2) =>
              (Ok (Ngram.postFilter (options s2) preResult toks), s2)
          | (Throw e, s2) => (Throw e, s2)
          end).
  rewrite Hrun. eexists. split; [reflexivity|].
  assert (Hocc : (Z.of_nat (List.length toks)
                  <= occurrences (postings s') toks key)%Z).
  { assert (Hpost : forall t,
               postings s' t
               = postings s t ++ repeat key (count_token t toks)).
    { intros t. unfold postings, s'. cbn [indices]. rewrite Hm. apply Hget. }
    exact (@occurrences_after_add (postings s) (postings s') toks key Hpost
             toks (incl_refl toks)). }
  apply (postFilter_spec _ _ _ _ Hnd). rewrite Hk, Hw.
  assert (Hlen : 0 < List.length toks).
  { destruct toks; [contradiction|cbn; lia]. }
  split; [lia|].
  rewrite Qle_bool_iff. change (options s') with (options s).
  destruct (actuationLimitAuto (options s)) eqn:Ea.
  - eapply Qle_trans; [apply auto_limit_le|].
    rewrite <- Zle_Qle. exact Hocc.
  - eapply Qle_trans; [exact (Hlimit eq_refl)|].
    rewrite <- Zle_Qle. exact Hocc.
Qed.

(** X8.  Entries added to an index that has still to load do not survive the
    load: the first query replaces the posting lists by the loaded data, so
    the query ends as it does without the additions, result and index. *)
Theorem add_before_load_is_lost (s : Index) (key : T) (v : Value)
    (data : list (string * list T)) (f : Loader T) (q : option Value) :
  isLoaded (options s) = false ->
  load (options s) = Some f ->
  f (loadCalls s) = Resolved data ->
  Ngram.find (snd (Ngram.add s key v)) q = Ngram.find s q.
Proof.
  intros Hl Hf Hdata.
  assert (Hfind : forall s0 : Index,
             options s0 = options s -> loadCalls s0 = loadCalls s ->
             Ngram.find s0 q = Ngram.find s q).
  { intros s0 Ho Hc. unfold Ngram.find, Ngram.preFilter, Ngram.load_.
    rewrite Ho, Hc, Hl, Hf, Hdata. reflexivity. }
  apply Hfind; unfold Ngram.add;
    destruct (Ngram.add_tokens _ _ _); reflexivity.
Qed.

End Adding.

Lemma add_appends_the_key_witness :
  exists s',
    Ngram.add fresh 7%Z (VString "abcd") = (Ok tt, s')
    /\ options s' = options fresh
    /\ (forall t, postings s' t
                  = postings fresh t
                    ++ repeat 7%Z
                         (count_token t
                            (Ngram.tokens_of (options fresh) (VString "abcd"))))
    /\ (forall t, In t (tokens_in s')
                  <-> In t (tokens_in fresh)
                      \/ In t (Ngram.tokens_of (options fresh)
                                 (VString "abcd")))
    /\ (NoDup (tokens_in fresh) -> NoDup (tokens_in s')).
Proof.
  exact (@add_appends_the_key Z fresh [] 7%Z (VString "abcd") eq_refl).
Defined.

Lemma find_after_add_witness :
  exists found,
    fst (Ngram.find (snd (Ngram.add fresh 7%Z (VString "abcd")))
           (Some (VString "abcd"))) = Ok found
    /\ In 7%Z found.
Proof.
  assert (Hq : queryable fresh).
  { split; [reflexivity|eexists; reflexivity]. }
  assert (Hne : Ngram.tokens_of (options fresh) (VString "abcd") <> []).
  { vm_compute. discriminate. }
  apply (@find_after_add Z _ fresh 7%Z (VString "abcd") Hq Hne).
  intros _. vm_compute. discriminate.
Defined.

Lemma add_before_load_is_lost_witness :
  Ngram.find (snd (Ngram.add lazy_resolving 7%Z (VString "abcd")))
    (Some (VString "abcd"))
  = Ngram.find lazy_resolving (Some (VString "abcd")).
Proof.
  apply (@add_before_load_is_lost Z _ lazy_resolving 7%Z (VString "abcd")
           [("abc", [1%Z]); ("bcd", [1%Z])]
           (fun _ => Resolved [("abc", [1%Z]); ("bcd", [1%Z])])
           (Some (VString "abcd"))); reflexivity.
Defined.

(** ** The shards of [spread] and the queries over them *)

Section Shards.
Context {T : Type} {JK : JsKey T}.
Variable o : IOptions T.
Variable chunkSize : nat.

Local Abbreviation Index := (NgramIndice T).
Local Abbreviation Spreading := (@Ngram.Spreading T).
Local Abbreviation opts := (Ngram.options_without_id o).

Lemma number_shards_app (c : nat) (a b : list (JsMap.t string (list T))) :
  number_shards o c (a ++ b)
  = number_shards o c a ++ number_shards o (c + List.length a) b.
Proof.
  revert c. induction a as [|mm a IH]; intros c; cbn.
  - now rewrite Nat.add_0_r.
  - rewrite IH. now rewrite Nat.add_succ_r.
Qed.

Lemma number_shards_queryable (c : nat) (maps : list (JsMap.t string (list T))) :
  isLoaded o = true -> Forall queryable (number_shards o c maps).
Proof.
  intros Hl. revert c. induction maps as [|mm maps IH]; intros c; cbn;
    constructor; [|apply IH].
  split; [exact Hl|now exists mm].
Qed.

Lemma number_shards_length (c : nat) (maps : list (JsMap.t string (list T))) :
  List.length (number_shards o c maps) = List.length maps.
Proof.
  revert c. induction maps as [|mm maps IH]; intros c; cbn; [reflexivity|].
  now rewrite IH.
Qed.

(** The shards pushed so far are numbered from [c0]. *)
Local Abbreviation numbered := (fun (c0 : nat) (st : Spreading) =>
  exists maps,
    Ngram.result st = number_shards o c0 maps
    /\ Ngram.counter st = c0 + List.length maps).

Lemma push_shard_numbered (c0 : nat) (st : Spreading) :
  numbered c0 st -> numbered c0 (Ngram.push_shard opts st).
Proof.
  intros (maps & Hr & Hc). exists (maps ++ [Ngram.map_ st]).
  unfold Ngram.push_shard, Ngram.deserialize, Ngram.construct.
  cbn [Ngram.options_without_id p_id Ngram.result Ngram.counter].
  rewrite Hr, Hc, number_shards_app, length_app. cbn [List.length].
  split; [reflexivity|lia].
Qed.

Lemma spread_while_numbered (c0 fuel : nat) key (value : list T)
    (st r : Spreading) :
  numbered c0 st ->
  Ngram.spread_while fuel chunkSize opts key value st = Some r ->
  numbered c0 r.
Proof.
  revert value st. induction fuel as [|fuel IH]; intros value st Hn.
  - destruct value; [intros [= <-]; exact Hn|discriminate].
  - destruct value as [|x xs]; [intros [= <-]; exact Hn|].
    cbn [Ngram.spread_while]. cbv zeta. apply IH.
    set (st1 := Ngram.mkSpreading (Ngram.result st) (Ngram.size st)
                  (JsMap.set key
                     (firstn (chunkSize - Ngram.size st) (x :: xs))
                     (Ngram.map_ st))
                  (Ngram.counter st)).
    assert (H1 : numbered c0 st1) by exact Hn.
    destruct (@push_shard_numbered c0 st1 H1) as (maps & Hr & Hc).
    now exists maps.
Qed.

Lemma spread_keys_numbered (c0 fuel : nat) m keys (st r : Spreading) :
  numbered c0 st ->
  Ngram.spread_keys fuel chunkSize opts m keys st = Some r ->
  numbered c0 r.
Proof.
  revert st. induction keys as [|k keys IH]; intros st Hn;
    cbn [Ngram.spread_keys]; [intros [= <-]; exact Hn|].
  destruct (Ngram.spread_key fuel chunkSize opts m k st) as [st1|] eqn:E;
    [|discriminate].
  apply IH. unfold Ngram.spread_key in E.
  destruct (_ <=? _)%nat.
  - injection E as <-. exact Hn.
  - exact (@spread_while_numbered c0 fuel k _ st st1 Hn E).
Qed.

End Shards.

Section SpreadOutcome.
Context {T : Type} {JK : JsKey T}.

Local Abbreviation Index := (NgramIndice T).

(** What [spread] returns for an index that keeps its posting lists in a
    Map: numbered shards that hold, together, the posting lists of the
    parent. *)
Lemma spread_outcome (s : Index) (m : JsMap.t string (list T))
    (chunkSize ctr : nat) :
  indices s = IMap m ->
  NoDup (JsMap.keys m) ->
  1 <= chunkSize ->
  exists maps,
    (forall fuel, entries_count s < fuel ->
       Ngram.spread fuel s chunkSize ctr
       = Some (Ok (number_shards (options s) ctr maps,
                   ctr + List.length maps)))
    /\ (forall token,
          postings_all (number_shards (options s) ctr maps) token
          = postings s token).
Proof.
  intros Hm Hwf Hpos.
  set (opts := Ngram.options_without_id (options s)).
  set (keys := sort_keys (JsMap.keys m)).
  assert (Hperm : Permutation keys (JsMap.keys m)) by apply sort_keys_perm.
  assert (Hnd : NoDup keys).
  { apply (Permutation_NoDup (Permutation_sym Hperm) Hwf). }
  assert (Hinit : spread_inv chunkSize m [] (Ngram.mkSpreading [] 0 [] ctr)).
  { unfold spread_inv. cbn. repeat split; try lia; try tauto.
    intros x []. }
  destruct (spread_keys_spec opts Hpos Hinit Hnd (fuel := S (count_entries m)))
    as (st & Hrun & Hinv); [tauto|lia|].
  rewrite app_nil_r in Hinv.
  assert (Hnum : exists maps,
             Ngram.result st = number_shards (options s) ctr maps
             /\ Ngram.counter st = ctr + List.length maps).
  { apply (@spread_keys_numbered T (options s) chunkSize ctr
             (S (count_entries m)) m keys
             (Ngram.mkSpreading [] 0 [] ctr) st); [|exact Hrun].
    exists []. split; [reflexivity|cbn; lia]. }
  assert (Hdone : forall t, In t (rev keys) <-> In t (JsMap.keys m)).
  { intros t. rewrite <- in_rev. split; apply Permutation_in;
      [exact Hperm|now apply Permutation_sym]. }
  assert (Hcount : entries_count s = count_entries m).
  { unfold entries_count. now rewrite Hm. }
  pose proof Hinv as (Hsize & Hsz & Hpost & Hshards & Hmap).
  assert (Htoken : forall t,
             flat_map (fun sh => postings sh t) (Ngram.result st)
             ++ default [] (JsMap.get t (Ngram.map_ st))
             = postings s t).
  { intros t. rewrite (postings_of_map _ _ Hm).
    destruct (in_dec string_dec t (rev keys)) as [Hin | Hout].
    - now apply Hpost.
    - rewrite (unvisited_token_has_no_posting t Hinv Hout).
      rewrite !get_None; [reflexivity| |].
      + intros H. now apply Hout, Hdone.
      + intros H. now apply Hout, Hmap. }
  assert (Hfuel : forall fuel, entries_count s < fuel ->
             Ngram.spread_keys fuel chunkSize opts m keys
               (Ngram.mkSpreading [] 0 [] ctr) = Some st).
  { intros fuel Hf.
    assert (Hle : S (count_entries m) <= fuel) by (rewrite <- Hcount; lia).
    exact (spread_keys_more_fuel chunkSize opts m keys _ Hle Hrun). }
  destruct (Ngram.size st =? 0)%nat eqn:E.
  - destruct Hnum as (maps & Hr & Hc). exists maps. split.
    + intros fuel Hf. unfold Ngram.spread. rewrite Hm. fold opts. fold keys.
      now rewrite (Hfuel fuel Hf), E, Hr, Hc.
    + intros t. unfold postings_all. rewrite <- Hr, <- Htoken.
      apply Nat.eqb_eq in E. rewrite count_zero_get by lia.
      now rewrite app_nil_r.
  - assert (Hnum' : exists maps,
               Ngram.result (Ngram.push_shard opts st)
               = number_shards (options s) ctr maps
               /\ Ngram.counter (Ngram.push_shard opts st)
                  = ctr + List.length maps).
    { exact (@push_shard_numbered T (options s) ctr st Hnum). }
    destruct Hnum' as (maps & Hr & Hc). exists maps. split.
    + intros fuel Hf. unfold Ngram.spread. rewrite Hm. fold opts. fold keys.
      now rewrite (Hfuel fuel Hf), E, Hr, Hc.
    + intros t. unfold postings_all. rewrite <- Hr, <- Htoken.
      destruct (push_shard_spec opts st) as (sh & c & Hpush & Hsh).
      rewrite Hpush. cbn [Ngram.result]. rewrite flat_map_app. cbn [flat_map].
      now rewrite app_nil_r, (postings_of_map _ _ Hsh).
Qed.

(** X9.  The shards of [spread] are fresh indices numbered by the counter, one
    after the other from its value at the call: each keeps its posting
    lists in a Map and carries the gram length, the limits, the case
    folding, the loaded flag and the load function of the parent, but none
    of its tokenizer hooks; the counter advances by the number of shards. *)
Theorem spread_numbers_the_shards (s : Index) (m : JsMap.t string (list T))
    (chunkSize ctr : nat) :
  indices s = IMap m ->
  NoDup (JsMap.keys m) ->
  1 <= chunkSize ->
  exists shards,
    (forall fuel, entries_count s < fuel ->
       Ngram.spread fuel s chunkSize ctr
       = Some (Ok (shards, ctr + List.length shards)))
    /\ map (@options T) shards
       = map (shard_options (options s)) (seq ctr (List.length shards))
    /\ Forall (fun sh => exists mm, indices sh = IMap mm) shards.
Proof.
  intros Hm Hwf Hpos.
  destruct (spread_outcome s ctr Hm Hwf Hpos) as (maps & Hrun & _).
  exists (number_shards (options s) ctr maps).
  rewrite number_shards_length. split; [exact Hrun|].
  clear Hrun. generalize ctr. induction maps as [|mm maps IH]; intros c.
  - split; [reflexivity|constructor].
  - destruct (IH (S c)) as [Ho Hi]. cbn. split.
    + now rewrite Ho.
    + constructor; [now exists mm|exact Hi].
Qed.

(** X10.  A query over the shards of a loaded index finds what the query on the
    index itself finds: [findAll] over the result of [spread] and [find]
    return the same keys, each once, possibly in another order. *)
Theorem findAll_over_spread_is_find (s : Index) (m : JsMap.t string (list T))
    (chunkSize ctr : nat) (v : Value) :
  indices s = IMap m ->
  NoDup (JsMap.keys m) ->
  isLoaded (options s) = true ->
  1 <= chunkSize ->
  exists shards ctr' found found',
    Ngram.spread (S (entries_count s)) s chunkSize ctr
    = Some (Ok (shards, ctr'))
    /\ Ngram.findAll s shards v = (Ok found, shards)
    /\ Ngram.find s (Some v) = (Ok found', s)
    /\ Permutation found found'.
Proof.
  intros Hm Hwf Hl Hpos.
  destruct (spread_outcome s ctr Hm Hwf Hpos) as (maps & Hrun & Hall).
  set (shards := number_shards (options s) ctr maps) in *.
  assert (Hq : Forall queryable shards) by now apply number_shards_queryable.
  assert (Hqs : queryable s) by (split; [exact Hl|now exists m]).
  set (toks := Ngram.tokens_of (options s) v).
  destruct (preFilter_all_counts toks Hq) as (ws & Hws & Hans).
  destruct (preFilter_queryable toks Hqs) as (w & Hw & Hnd & Hwt & Hk).
  destruct (merged_spec ws [] (NoDup_nil _)) as (Hmw & Hmk & Hmn).
  exists shards, (ctr + List.length maps).
  exists (Ngram.postFilter (options s)
            (fold_left Ngram.merge_weights ws []) toks).
  exists (Ngram.postFilter (options s) w toks).
  split; [apply Hrun; lia|]. split; [|split].
  - unfold Ngram.findAll. fold toks. rewrite Hws, promise_all_ok.
    reflexivity.
  - change (Ngram.find s (Some v))
      with (match Ngram.preFilter s toks with
            | (Ok preResult, s2) =>
                (Ok (Ngram.postFilter (options s2) preResult toks), s2)
            | (Throw e, s2) => (Throw e, s2)
            end).
    now rewrite Hw.
  - apply NoDup_Permutation; try now apply NoDup_postFilter.
    intros k.
    rewrite (postFilter_spec _ _ _ _ Hmn), (postFilter_spec _ _ _ _ Hnd).
    destruct (answers_sum Hans k) as [Hb Hh].
    rewrite Hmw, Hmk, Hk, Hwt, Hb, Hh.
    change (weight [] k) with 0%Z. rewrite Z.add_0_l.
    rewrite (occurrences_ext _ _ toks k Hall).
    cbn [JsMap.keys map In]. tauto.
Qed.

End SpreadOutcome.

Lemma spread_numbers_the_shards_witness :
  exists shards,
    (forall fuel, entries_count seven_index < fuel ->
       Ngram.spread fuel seven_index 2 2
       = Some (Ok (shards, 2 + List.length shards)))
    /\ map (@options Z) shards
       = map (shard_options (options seven_index))
           (seq 2 (List.length shards))
    /\ Forall (fun sh => exists mm, indices sh = IMap mm) shards.
Proof.
  assert (Hwf : NoDup (JsMap.keys (V := list Z)
                         [("abc", [7%Z]); ("bcd", [7%Z]); ("wxy", [7%Z]);
                          ("xyz", [7%Z])])).
  { repeat (constructor; [cbn; intuition discriminate|]). constructor. }
  assert (Hpos : 1 <= 2) by lia.
  exact (@spread_numbers_the_shards Z seven_index _ 2 2 eq_refl Hwf Hpos).
Defined.

Lemma findAll_over_spread_is_find_witness :
  exists shards ctr' found found',
    Ngram.spread (S (entries_count seven_index)) seven_index 2 2
    = Some (Ok (shards, ctr'))
    /\ Ngram.findAll seven_index shards (VString "abcd") = (Ok found, shards)
    /\ Ngram.find seven_index (Some (VString "abcd"))
       = (Ok found', seven_index)
    /\ Permutation found found'.
Proof.
  assert (Hwf : NoDup (JsMap.keys (V := list Z)
                         [("abc", [7%Z]); ("bcd", [7%Z]); ("wxy", [7%Z]);
                          ("xyz", [7%Z])])).
  { repeat (constructor; [cbn; intuition discriminate|]). constructor. }
  assert (Hpos : 1 <= 2) by lia.
  exact (@findAll_over_spread_is_find Z _ seven_index _ 2 2 (VString "abcd")
           eq_refl Hwf eq_refl Hpos).
Defined.

(** ** The batches of the cursor of the TypeScript source *)

Section Batches.
Context {T : Type} {JK : JsKey T}.

Local Abbreviation Weights := (JsMap.t T Z).
Local Abbreviation Index := (NgramIndice T).

Lemma batches_from_shape (o : IOptions T) (toks : list string)
    (rs : list Weights) (cw : Weights) :
  NoDup (JsMap.keys cw) ->
  List.length (batches_from o toks cw rs) <= List.length rs
  /\ Forall (fun b => b <> [] /\ NoDup b /\ Forall (fun k => truthy k = true) b)
       (batches_from o toks cw rs).
Proof.
  revert cw. induction rs as [|r rs IH]; intros cw Hnd; cbn [batches_from].
  - split; [cbn; lia|constructor].
  - destruct (merge_weights_spec r cw) as (_ & _ & Hn). specialize (Hn Hnd).
    pose proof (take_batch_spec o toks (Ngram.merge_weights cw r) Hn) as Hb.
    assert (Hsub : NoDup (fst (Ngram.take_batch o toks
                                 (Ngram.merge_weights cw r)))
                   /\ Forall (fun k => truthy k = true)
                        (fst (Ngram.take_batch o toks
                                (Ngram.merge_weights cw r)))).
    { unfold Ngram.take_batch. cbn [fst]. split.
      - apply NoDup_rev, NoDup_filter. now apply NoDup_postFilter.
      - apply Forall_forall. intros k Hk. apply in_rev, filter_In in Hk.
        tauto. }
    destruct (Ngram.take_batch o toks (Ngram.merge_weights cw r))
      as [sub cw'].
    destruct Hb as (_ & _ & Hnd' & _). cbn [fst] in Hsub.
    destruct (IH cw' Hnd') as [Hlen Hall].
    destruct sub as [|x sub]; cbn [List.length].
    + split; [lia|exact Hall].
    + split; [lia|]. constructor; [|exact Hall].
      split; [discriminate|exact Hsub].
Qed.

(** X11.  The cursor of the TypeScript source, over shards that answer and
    whatever the order in which they do, yields at most one batch for each
    shard and then reports the end; no batch is empty, none holds a key
    twice, and every key yielded is truthy. *)
Theorem cursorAll_batches_are_well_formed (this : Index)
    (shards : list Index) (v : Value) (schedule : list nat) :
  Forall queryable shards ->
  Permutation schedule (seq 0 (List.length shards)) ->
  exists batches,
    drain Ngram.next (S (List.length schedule))
      (fst (Ngram.cursorAll this shards v schedule))
    = Some (batches, Done)
    /\ List.length batches <= List.length shards
    /\ Forall (fun b => b <> [] /\ NoDup b
                        /\ Forall (fun k => truthy k = true) b) batches.
Proof.
  intros Hq Hperm.
  set (toks := Ngram.tokens_of (options this) v).
  destruct (preFilter_all_queryable toks Hq) as (ws & Hws & _ & Hlen).
  unfold Ngram.cursorAll. fold toks.
  destruct (Ngram.preFilter_all shards toks) as [rs shards'].
  cbn [fst] in *. subst rs.
  rewrite <- Hlen in Hperm.
  destruct (unconsumed_init ws Hperm) as [Hinv _].
  eexists. split.
  - apply (drain_spec (o := options this) (toks := toks) (ws := ws));
      cbn [Ngram.tokens Ngram.this_options Ngram.promises Ngram.sched
           Ngram.count]; try reflexivity; try exact Hinv; try lia.
    rewrite (Permutation_length Hperm), length_seq. now symmetry.
  - cbn [Ngram.combineWeights Ngram.sched].
    destruct (@batches_from_shape (options this) toks
                (map (fun i => nth i ws []) schedule) [] (NoDup_nil _))
      as [Hl Hall].
    split; [|exact Hall].
    rewrite length_map, (Permutation_length Hperm), length_seq, Hlen in Hl.
    exact Hl.
Qed.

(** X12.  A query over shards one of which has still to load and has no load
    function is rejected as a whole: [findAll] returns no partial result. *)
Theorem findAll_rejects_without_loader (this : Index) (shards : list Index)
    (sh : Index) (v : Value) :
  In sh shards ->
  isLoaded (options sh) = false ->
  load (options sh) = None ->
  exists e, fst (Ngram.findAll this shards v) = Throw e.
Proof.
  intros Hin Hl Hf. unfold Ngram.findAll.
  set (toks := Ngram.tokens_of (options this) v).
  assert (H : exists e,
             Ngram.promise_all (fst (Ngram.preFilter_all shards toks))
             = Throw e).
  { induction shards as [|s0 shards IH]; [destruct Hin|].
    cbn [Ngram.preFilter_all].
    destruct (Ngram.preFilter s0 toks) as [r s0'] eqn:E.
    destruct (Ngram.preFilter_all shards toks) as [rs ss]. cbn [fst] in *.
    cbn [Ngram.promise_all]. destruct r as [w|e]; cbn [bind]; [|eauto].
    destruct Hin as [-> | Hin].
    - unfold Ngram.preFilter, Ngram.load_ in E. rewrite Hl, Hf in E.
      discriminate.
    - destruct (IH Hin) as (e & He). rewrite He. cbn [bind]. eauto. }
  destruct (Ngram.preFilter_all shards toks) as [rs ss]. cbn [fst] in *.
  destruct H as (e & He). rewrite He. cbn [bind]. eauto.
Qed.

End Batches.

Lemma cursorAll_batches_are_well_formed_witness :
  exists batches,
    drain Ngram.next 2
      (fst (Ngram.cursorAll seven_index [seven_index] (VString "abcd") [0]))
    = Some (batches, Done)
    /\ List.length batches <= 1
    /\ Forall (fun b => b <> [] /\ NoDup b
                        /\ Forall (fun k => truthy k = true) b) batches.
Proof.
  assert (Hq : Forall queryable [seven_index]).
  { constructor; [|constructor]. split; [reflexivity|eexists; reflexivity]. }
  exact (@cursorAll_batches_are_well_formed Z _ seven_index [seven_index]
           (VString "abcd") [0] Hq (Permutation_refl [0])).
Defined.

Lemma findAll_rejects_without_loader_witness :
  exists e,
    fst (Ngram.findAll fresh [seven_index; lazy_without_load]
           (VString "abcd")) = Throw e.
Proof.
  apply (@findAll_rejects_without_loader Z _ fresh
           [seven_index; lazy_without_load] lazy_without_load
           (VString "abcd")); [right; left; reflexivity| |]; reflexivity.
Defined.

(** ** The cursor of the compiled copy *)

Section CompiledCursor.
Context {T : Type} {JK : JsKey T}.
Variable o : IOptions T.
Variable toks : list string.
Variable ws : list (JsMap.t T Z).

Local Abbreviation Weights := (JsMap.t T Z).
Local Abbreviation answer := (fun i : nat => nth i ws []).
Local Abbreviation merged := (fun l : list Weights =>
  fold_left Ngram.merge_weights l []).

Lemma slot_set_slot_other {A} (i j : nat) (a : A) (l : list (option A)) :
  i <> j -> slot (Compiled.set_slot i a l) j = slot l j.
Proof.
  unfold slot. revert j l. induction i as [|i IH]; intros [|j] [|x l] H;
    cbn; try reflexivity; try contradiction.
  - now destruct j.
  - specialize (IH j [] (fun E => H (f_equal S E))). cbn in IH.
    rewrite IH. now destruct j.
  - apply IH. congruence.
Qed.

Lemma filled_set_slot {A} (i : nat) (a : A) (l : list (option A)) :
  slot l i = None ->
  Permutation (Compiled.filled (Compiled.set_slot i a l))
    (a :: Compiled.filled l).
Proof.
  unfold slot. revert l. induction i as [|i IH]; intros [|x l]; cbn.
  - reflexivity.
  - intros ->. reflexivity.
  - intros _. apply (IH []). now destruct i.
  - intros H. destruct x as [b|].
    + rewrite (IH l H). apply perm_swap.
    + apply (IH l H).
Qed.

Lemma brought_by_all_app (a b : list Weights) (k : T) :
  brought_by_all (a ++ b) k = (brought_by_all a k + brought_by_all b k)%Z.
Proof.
  unfold brought_by_all. induction a as [|r a IH]; cbn [app fold_right];
    [reflexivity|]. rewrite IH. lia.
Qed.

Lemma brought_by_all_nonneg (l : list Weights) (k : T) :
  Forall nonneg l -> (0 <= brought_by_all l k)%Z.
Proof.
  unfold brought_by_all.
  induction 1 as [|r l Hr _ IH]; cbn [fold_right]; [lia|].
  pose proof (brought_nonneg k Hr). lia.
Qed.

(** A key that the merge of some of the answers brings to the limit is
    one that the merge of all of them brings to the limit. *)
Lemma partial_found (part rest : list Weights) (k : T) :
  Permutation (part ++ rest) ws ->
  Forall nonneg ws ->
  In k (Ngram.postFilter o (merged part) toks) ->
  In k (Ngram.postFilter o (merged ws) toks).
Proof.
  intros Hperm Hpos.
  destruct (merged_spec part [] (NoDup_nil _)) as (Hw & Hk & Hn).
  destruct (merged_spec ws [] (NoDup_nil _)) as (Hw' & Hk' & Hn').
  rewrite (postFilter_spec _ _ _ _ Hn), (postFilter_spec _ _ _ _ Hn').
  rewrite Hw, Hk, Hw', Hk'. intros [Hheld Hreach]. split.
  - right. destruct Hheld as [[] | (r & Hr & Hin)]. exists r.
    split; [|exact Hin].
    apply (Permutation_in _ Hperm), in_or_app. now left.
  - eapply reaches_mono; [|exact Hreach].
    rewrite <- (brought_by_all_perm k Hperm), brought_by_all_app.
    assert (0 <= brought_by_all rest k)%Z; [|lia].
    apply brought_by_all_nonneg. apply Forall_forall. intros r Hr.
    rewrite Forall_forall in Hpos. apply Hpos.
    apply (Permutation_in _ Hperm), in_or_app. now right.
Qed.

(** The loop of [load] ends when every shard answers, and every key it
    puts in [result] passes [postFilter] on the merge of some answers. *)
Lemma load_loop_spec (sch : list nat) (cnt : nat)
    (proms : list (option (Res Weights))) (subs : list (option Weights))
    (res : list T) (consumed : list nat) :
  unconsumed_answers ws proms sch ->
  cnt = List.length sch ->
  (forall i, In i sch -> slot subs i = None) ->
  Permutation (Compiled.filled subs) (map answer consumed) ->
  exists res' c',
    Compiled.load_loop o toks sch cnt proms subs res = (Some (Ok tt), c')
    /\ Compiled.result c' = res' ++ res
    /\ Compiled.allLoad c' = true
    /\ Compiled.isLoad c' = true
    /\ forall k, In k res' ->
         exists part rest,
           Permutation (part ++ rest) (map answer (consumed ++ sch))
           /\ In k (Ngram.postFilter o (merged part) toks).
Proof.
  revert cnt proms subs res consumed.
  induction sch as [|i sch IH]; intros cnt proms subs res consumed
    Hinv -> Hslots Hfilled.
  - cbn [List.length Compiled.load_loop]. exists []. eexists.
    split; [reflexivity|]. cbn [Compiled.result Compiled.allLoad
                                 Compiled.isLoad].
    repeat split. intros k [].
  - cbn [List.length Compiled.load_loop].
    rewrite (proj2 Hinv i (or_introl eq_refl)).
    set (subs' := Compiled.set_slot i (answer i) subs).
    set (sub := rev (filter _ _)).
    assert (Hnd : NoDup (i :: sch)) by apply Hinv.
    inversion Hnd as [|? ? Hi Hnd']; subst.
    assert (Hfilled' : Permutation (Compiled.filled subs')
                         (map answer (i :: consumed))).
    { subst subs'. rewrite filled_set_slot by (apply Hslots; now left).
      cbn [map]. now constructor. }
    destruct (IH (List.length sch) (Ngram.set_never i proms) subs'
                (sub ++ res) (i :: consumed))
      as (res' & c' & Hrun & Hres & Hall & Hload & Hsound).
    + now apply unconsumed_tail.
    + reflexivity.
    + intros j Hj. subst subs'. rewrite slot_set_slot_other.
      * apply Hslots. now right.
      * intros ->. contradiction.
    + exact Hfilled'.
    + exists (res' ++ sub), c'. split; [exact Hrun|].
      split; [now rewrite Hres, app_assoc|]. split; [exact Hall|].
      split; [exact Hload|].
      intros k Hk. apply in_app_or in Hk. destruct Hk as [Hk | Hk].
      * destruct (Hsound k Hk) as (part & rest & Hperm & Hin).
        exists part, rest. split; [|exact Hin].
        rewrite Hperm, !map_app. cbn [map app].
        apply Permutation_middle.
      * exists (Compiled.filled subs'), (map answer sch). split.
        -- rewrite Hfilled'. rewrite !map_app. cbn [map app].
           apply Permutation_middle.
        -- subst sub. apply in_rev, filter_In in Hk. apply Hk.
Qed.

End CompiledCursor.

Section CompiledIterator.
Context {T : Type} {JK : JsKey T}.

Local Abbreviation Index := (NgramIndice T).

(** X15.  The cursor of the compiled copy, over shards that answer and whatever
    the order in which they do, yields exactly one batch and then reports
    the end; the batch holds at most twenty keys, and each of them is a key
    that [findAll] returns. *)
Theorem compiled_cursorAll_yields_one_batch (this : Index)
    (shards : list Index) (v : Value) (schedule : list nat) :
  Forall queryable shards ->
  Permutation schedule (seq 0 (List.length shards)) ->
  exists found batch,
    fst (Ngram.findAll this shards v) = Ok found
    /\ drain Compiled.next 2
         (fst (Compiled.cursorAll this shards v schedule))
       = Some ([batch], Done)
    /\ List.length batch <= 20
    /\ incl batch found.
Proof.
  intros Hq Hperm.
  set (toks := Ngram.tokens_of (options this) v).
  destruct (preFilter_all_queryable toks Hq) as (ws & Hws & Hpos & Hlen).
  unfold Ngram.findAll, Compiled.cursorAll. fold toks.
  destruct (Ngram.preFilter_all shards toks) as [rs shards'].
  cbn [fst] in *. subst rs. rewrite promise_all_ok. cbn [bind].
  rewrite <- Hlen in Hperm.
  destruct (unconsumed_init ws Hperm) as [Hinv Hans].
  destruct (@load_loop_spec T JK (options this) toks ws schedule
              (List.length shards) (map Some (map Ok ws)) [] [] [] Hinv)
    as (res' & c' & Hrun & Hres & Hall & Hload & Hsound).
  { rewrite (Permutation_length Hperm), length_seq. now symmetry. }
  { intros i _. unfold slot. now destruct i. }
  { reflexivity. }
  rewrite app_nil_r in Hres. cbn [app] in Hsound.
  eexists. exists (skipn (List.length res'
                          - Nat.min Compiled.chunkSize (List.length res'))
                     res').
  split; [reflexivity|]. split; [|split].
  - cbn [drain]. unfold Compiled.next at 1.
    cbn [Compiled.allLoad]. unfold Compiled.load_.
    cbn [Compiled.isLoad Compiled.this_options Compiled.tokens
         Compiled.sched Compiled.count Compiled.promises
         Compiled.subResults Compiled.result].
    rewrite Hrun, Hres. unfold Compiled.next.
    cbn [Compiled.allLoad]. now rewrite Hall.
  - rewrite length_skipn. unfold Compiled.chunkSize. lia.
  - intros k Hk.
    assert (Hin : In k res').
    { rewrite <- (firstn_skipn (List.length res'
                                - Nat.min Compiled.chunkSize
                                    (List.length res')) res').
      apply in_or_app. now right. }
    destruct (Hsound k Hin) as (part & rest & Hp & Hpart).
    apply (@partial_found T JK (options this) toks ws part rest k);
      [|exact Hpos|exact Hpart].
    now rewrite Hp.
Qed.

End CompiledIterator.

Lemma compiled_cursorAll_yields_one_batch_witness :
  exists found batch,
    fst (Ngram.findAll seven_index [seven_index] (VString "abcd")) = Ok found
    /\ drain Compiled.next 2
         (fst (Compiled.cursorAll seven_index [seven_index] (VString "abcd")
                 [0]))
       = Some ([batch], Done)
    /\ List.length batch <= 20
    /\ incl batch found.
Proof.
  assert (Hq : Forall queryable [seven_index]).
  { constructor; [|constructor]. split; [reflexivity|eexists; reflexivity]. }
  exact (@compiled_cursorAll_yields_one_batch Z _ seven_index [seven_index]
           (VString "abcd") [0] Hq (Permutation_refl [0])).
Defined.

(** ** [spread] of the compiled copy *)

Section CompiledSpread.
Context {T : Type} {JK : JsKey T}.
Variable chunkSize : nat.
Variable opts : PartialOptions T.
Hypothesis chunk_pos : 1 <= chunkSize.

Local Abbreviation Spreading := (@Ngram.Spreading T).
Local Abbreviation State := (Spreading * JsMap.t string (list T))%type.

Lemma compiled_spread_key_more_fuel (f f' : nat) key (acc r : State) :
  f <= f' ->
  Compiled.spread_key f chunkSize opts key acc = Some r ->
  Compiled.spread_key f' chunkSize opts key acc = Some r.
Proof.
  intros Hle. unfold Compiled.spread_key. destruct acc as [st m].
  destruct (_ <=? _)%nat; [trivial|]. destruct (_ <? _)%nat; [|trivial].
  destruct (Ngram.spread_while f _ _ _ _ _) as [st'|] eqn:E; [|discriminate].
  now rewrite (spread_while_fuel_le _ _ _ _ _ Hle E).
Qed.

Lemma compiled_spread_keys_more_fuel (f f' : nat) keys (acc r : State) :
  f <= f' ->
  Compiled.spread_keys f chunkSize opts keys acc = Some r ->
  Compiled.spread_keys f' chunkSize opts keys acc = Some r.
Proof.
  intros Hle. revert acc.
  induction keys as [|k keys IH]; intros acc; cbn [Compiled.spread_keys];
    [trivial|].
  destruct (Compiled.spread_key f _ _ _ _) as [acc1|] eqn:E; [|discriminate].
  rewrite (compiled_spread_key_more_fuel _ _ Hle E). apply IH.
Qed.

(** No shard already pushed holds a token that has not been visited. *)
Lemma compiled_unvisited m0 done (st : Spreading) m (key : string) :
  compiled_inv m0 done (st, m) -> ~ In key done ->
  flat_map (fun sh => postings sh key) (Ngram.result st) = []
  /\ JsMap.get key (Ngram.map_ st) = None.
Proof.
  intros (_ & _ & Hshards & Hmap & _) Hkey. split.
  - induction (Ngram.result st) as [|sh l IH]; [reflexivity|].
    cbn [flat_map]. rewrite IH by (intros x Hx; apply Hshards; now right).
    destruct (Hshards sh (or_introl eq_refl)) as (mm & Hm & Hincl).
    rewrite (postings_of_map _ _ Hm), get_None; [reflexivity|].
    intros Hin. apply Hkey. now apply Hincl.
  - apply get_None. intros Hin. apply Hkey. now apply Hmap.
Qed.

Lemma compiled_spread_key_spec (fuel : nat) m0 key done (acc : State) :
  compiled_inv m0 done acc ->
  ~ In key done ->
  count_entries m0 < fuel ->
  exists acc',
    Compiled.spread_key fuel chunkSize opts key acc = Some acc'
    /\ compiled_inv m0 (key :: done) acc'.
Proof.
  destruct acc as [st m]. intros Hinv Hkey Hfuel.
  destruct (compiled_unvisited key Hinv Hkey) as [Hnone Hnokey].
  destruct Hinv as (Hcount & Hpost & Hshards & Hmap & Hrest & Hparent).
  assert (Hfresh : ~ In key (JsMap.keys (Ngram.map_ st))).
  { intros Hin. apply Hkey. now apply Hmap. }
  assert (Hold : forall sh, In sh (Ngram.result st) ->
                 exists mm, indices sh = IMap mm
                            /\ incl (JsMap.keys mm) (key :: done)).
  { intros sh Hin. destruct (Hshards sh Hin) as (mm & Hm & Hi).
    exists mm. split; [exact Hm|]. intros t Ht. right. now apply Hi. }
  assert (Hrest' : forall t, ~ In t (key :: done) ->
                             JsMap.get t m = JsMap.get t m0).
  { intros t Ht. apply Hrest. intros H. apply Ht. now right. }
  unfold Compiled.spread_key.
  rewrite (Hrest key Hkey).
  set (value := default [] (JsMap.get key m0)).
  destruct (chunkSize <=? Ngram.size st)%nat eqn:E1.
  - destruct (push_shard_spec opts st) as (sh & c & Hpush & Hsh).
    rewrite Hpush. cbn [Ngram.result Ngram.counter].
    eexists. split; [reflexivity|].
    unfold compiled_inv. cbn [Ngram.size Ngram.map_ Ngram.result].
    split; [unfold count_entries; cbn; lia|].
    split.
    { intros t Ht. rewrite flat_map_app. cbn [flat_map].
      rewrite app_nil_r, (postings_of_map _ _ Hsh). cbn [JsMap.get].
      change (key_eqb t key) with (String.eqb t key).
      destruct (String.eqb t key) eqn:Et.
      - apply String.eqb_eq in Et. subst t.
        now rewrite Hnone, Hnokey.
      - apply String.eqb_neq in Et. destruct Ht as [<- | Ht]; [contradiction|].
        cbn [default]. rewrite app_nil_r. now apply Hpost. }
    split.
    { intros sh' Hin. apply in_app_or in Hin.
      destruct Hin as [Hin | [<- | []]]; [now apply Hold|].
      exists (Ngram.map_ st). split; [exact Hsh|].
      intros t Ht. right. now apply Hmap. }
    split; [intros t [<- | []]; now left|].
    split; [exact Hrest'|exact Hparent].
  - apply Nat.leb_gt in E1.
    destruct (chunkSize * 10 <? Ngram.size st + List.length value)%nat eqn:E2.
    + apply Nat.ltb_lt in E2.
      assert (Hne : value <> []).
      { intros H0. rewrite H0 in E2. cbn in E2. lia. }
      assert (Hlen : List.length value <= count_entries m0).
      { subst value. destruct (JsMap.get key m0) as [v|] eqn:G.
        - now apply get_le_count in G.
        - cbn. lia. }
      assert (Hmax : 1 <= chunkSize * 10) by lia.
      assert (Hsize : Ngram.size st <= chunkSize * 10) by lia.
      destruct (spread_while_spec opts Hmax key st Hsize Hcount Hfresh Hne
                  (fuel := fuel))
        as (new & c & Hrun & Hnew & Hnewshards).
      { destruct (_ <? _)%nat eqn:E3; [lia|]. apply Nat.ltb_ge in E3. lia. }
      rewrite Hrun. eexists. split; [reflexivity|].
      unfold compiled_inv. cbn [Ngram.size Ngram.map_ Ngram.result].
      split; [reflexivity|]. split.
      { intros t Ht. rewrite flat_map_app, Hnew. cbn [JsMap.get default].
        rewrite app_nil_r. destruct (String.eqb t key) eqn:Et.
        - apply String.eqb_eq in Et. subst t. now rewrite Hnone.
        - apply String.eqb_neq in Et.
          destruct Ht as [<- | Ht]; [contradiction|]. now apply Hpost. }
      split.
      { intros sh Hin. apply in_app_or in Hin. destruct Hin as [Hin | Hin].
        - now apply Hold.
        - destruct (Hnewshards sh Hin) as (mm & Hm & _ & Hk).
          exists mm. split; [exact Hm|].
          intros t Ht. destruct (Hk t Ht) as [-> | H]; [now left|].
          right. now apply Hmap. }
      split; [intros t []|]. split.
      { intros t Ht. rewrite get_set_other.
        - now apply Hrest'.
        - intros ->. apply Ht. now left. }
      intros t. destruct (string_dec t key) as [-> | Hne'].
      * right. now rewrite get_set_same.
      * rewrite get_set_other by exact Hne'. apply Hparent.
    + eexists. split; [reflexivity|].
      unfold compiled_inv. cbn [Ngram.size Ngram.map_ Ngram.result].
      split.
      { rewrite count_entries_set_fresh by assumption. lia. }
      split.
      { intros t [<- | Ht].
        - now rewrite Hnone, get_set_same.
        - rewrite get_set_other by (intros ->; contradiction).
          now apply Hpost. }
      split; [exact Hold|]. split.
      { intros t Ht. destruct (keys_set _ _ _ _ Ht) as [-> | H]; [now left|].
        right. now apply Hmap. }
      split; [exact Hrest'|exact Hparent].
Qed.

Lemma compiled_spread_keys_spec (fuel : nat) m0 keys done (acc : State) :
  compiled_inv m0 done acc ->
  NoDup keys ->
  (forall k, In k keys -> ~ In k done) ->
  count_entries m0 < fuel ->
  exists acc',
    Compiled.spread_keys fuel chunkSize opts keys acc = Some acc'
    /\ compiled_inv m0 (rev keys ++ done) acc'.
Proof.
  revert done acc.
  induction keys as [|k keys IH]; intros done acc Hinv Hnd Hnew Hfuel.
  - exists acc. now split.
  - inversion Hnd as [|? ? Hk Hnd']; subst.
    destruct (@compiled_spread_key_spec fuel m0 k done acc Hinv
                (Hnew k (or_introl eq_refl)) Hfuel)
      as (acc1 & Hstep & Hinv1).
    destruct (IH (k :: done) acc1 Hinv1 Hnd') as (acc' & Hrun & Hinv'); auto.
    { intros k' Hin [<- | Hd]; [contradiction|].
      apply (Hnew k'); [now right|exact Hd]. }
    exists acc'. cbn [Compiled.spread_keys]. rewrite Hstep.
    split; [exact Hrun|]. cbn [rev]. now rewrite <- app_assoc.
Qed.

End CompiledSpread.

Section CompiledSpreadTheorem.
Context {T : Type} {JK : JsKey T}.

(** X14.  [spread] of the compiled copy, for a chunk size of at least 1 and an
    index that keeps its posting lists in a Map: the call ends, and the
    shards hold, together and in order, the posting list that the parent
    held for every token when the call was made, so that no entry is lost
    or repeated.  The parent does not come out unchanged: each of its
    posting lists is afterwards either what it was or empty, the lists the
    loop cuts being emptied in place. *)
Theorem compiled_spread_keeps_every_entry (s : NgramIndice T)
    (m : JsMap.t string (list T)) (chunkSize ctr : nat) :
  indices s = IMap m ->
  NoDup (JsMap.keys m) ->
  1 <= chunkSize ->
  exists shards ctr' parent,
    (forall fuel, entries_count s < fuel ->
       Compiled.spread fuel s chunkSize ctr
       = Some (Ok (shards, ctr'), parent))
    /\ (forall token, postings_all shards token = postings s token)
    /\ options parent = options s
    /\ (forall token, postings parent token = postings s token
                      \/ postings parent token = []).
Proof.
  intros Hm Hwf Hpos.
  set (opts := Ngram.options_without_id (options s)).
  set (keys := sort_keys (JsMap.keys m)).
  assert (Hperm : Permutation keys (JsMap.keys m)) by apply sort_keys_perm.
  assert (Hnd : NoDup keys).
  { apply (Permutation_NoDup (Permutation_sym Hperm) Hwf). }
  assert (Hinit : compiled_inv m [] (Ngram.mkSpreading [] 0 [] ctr, m)).
  { unfold compiled_inv. cbn. repeat split; try tauto. intros x []. }
  destruct (@compiled_spread_keys_spec T chunkSize opts Hpos
              (S (count_entries m)) m keys []
              (Ngram.mkSpreading [] 0 [] ctr, m) Hinit Hnd)
    as ([st m'] & Hrun & Hinv); [tauto|lia|].
  rewrite app_nil_r in Hinv.
  assert (Hdone : forall t, In t (rev keys) <-> In t (JsMap.keys m)).
  { intros t. rewrite <- in_rev. split; apply Permutation_in;
      [exact Hperm|now apply Permutation_sym]. }
  assert (Hcount : entries_count s = count_entries m).
  { unfold entries_count. now rewrite Hm. }
  pose proof Hinv as (Hsz & Hpost & Hshards & Hmap & Hrest & Hparent).
  assert (Htoken : forall t,
             flat_map (fun sh => postings sh t) (Ngram.result st)
             ++ default [] (JsMap.get t (Ngram.map_ st))
             = postings s t).
  { intros t. rewrite (postings_of_map _ _ Hm).
    destruct (in_dec string_dec t (rev keys)) as [Hin | Hout].
    - now apply Hpost.
    - destruct (@compiled_unvisited T m (rev keys) st m' t Hinv Hout)
        as [-> ->].
      rewrite get_None; [reflexivity|].
      intros H. now apply Hout, Hdone. }
  assert (Hfuel : forall fuel, entries_count s < fuel ->
             Compiled.spread_keys fuel chunkSize opts keys
               (Ngram.mkSpreading [] 0 [] ctr, m) = Some (st, m')).
  { intros fuel Hf.
    assert (Hle : S (count_entries m) <= fuel) by (rewrite <- Hcount; lia).
    exact (@compiled_spread_keys_more_fuel T chunkSize opts _ fuel keys _ _
             Hle Hrun). }
  assert (Hafter : forall t,
             postings (mkIndice (IMap m') (options s) (loadCalls s)) t
             = postings s t
             \/ postings (mkIndice (IMap m') (options s) (loadCalls s)) t
                = []).
  { intros t. rewrite (postings_of_map _ _ Hm). unfold postings.
    cbn [indices]. apply Hparent. }
  destruct (Ngram.size st =? 0)%nat eqn:E.
  - exists (Ngram.result st), (Ngram.counter st),
      (mkIndice (IMap m') (options s) (loadCalls s)).
    split; [|split; [|split; [reflexivity|exact Hafter]]].
    + intros fuel Hf. unfold Compiled.spread. rewrite Hm. fold opts.
      fold keys. now rewrite (Hfuel fuel Hf), E.
    + intros t. unfold postings_all. rewrite <- Htoken.
      apply Nat.eqb_eq in E. rewrite count_zero_get by lia.
      now rewrite app_nil_r.
  - destruct (push_shard_spec opts st) as (sh & c & Hpush & Hsh).
    exists (Ngram.result st ++ [sh]), c,
      (mkIndice (IMap m') (options s) (loadCalls s)).
    split; [|split; [|split; [reflexivity|exact Hafter]]].
    + intros fuel Hf. unfold Compiled.spread. rewrite Hm. fold opts.
      fold keys. now rewrite (Hfuel fuel Hf), E, Hpush.
    + intros t. unfold postings_all. rewrite <- Htoken, flat_map_app.
      cbn [flat_map]. now rewrite app_nil_r, (postings_of_map _ _ Hsh).
Qed.

End CompiledSpreadTheorem.

Lemma compiled_spread_keeps_every_entry_witness :
  exists shards ctr' parent,
    (forall fuel, entries_count seven_index < fuel ->
       Compiled.spread fuel seven_index 2 2
       = Some (Ok (shards, ctr'), parent))
    /\ (forall token, postings_all shards token = postings seven_index token)
    /\ options parent = options seven_index
    /\ (forall token, postings parent token = postings seven_index token
                      \/ postings parent token = []).
Proof.
  assert (Hwf : NoDup (JsMap.keys (V := list Z)
                         [("abc", [7%Z]); ("bcd", [7%Z]); ("wxy", [7%Z]);
                          ("xyz", [7%Z])])).
  { repeat (constructor; [cbn; intuition discriminate|]). constructor. }
  assert (Hpos : 1 <= 2) by lia.
  exact (@compiled_spread_keeps_every_entry Z seven_index _ 2 2 eq_refl Hwf
           Hpos).
Defined.

(** ** The planner on every criteria *)

(** Induction on a criteria tree: a property holds of every value when it
    holds of an array whose elements have it and of an object whose values
    have it. *)
Lemma JValue_nested_ind (P : Db.JValue -> Prop) :
  P Db.JNull ->
  (forall b, P (Db.JBool b)) ->
  (forall z, P (Db.JNum z)) ->
  (forall s, P (Db.JStr s)) ->
  (forall l, Forall P l -> P (Db.JArr l)) ->
  (forall o, Forall (fun e => P (snd e)) o -> P (Db.JObj o)) ->
  forall v, P v.
Proof.
  intros Hnull Hbool Hnum Hstr Harr Hobj.
  fix IH 1. intros [|b|z|s|l|o].
  - exact Hnull.
  - apply Hbool.
  - apply Hnum.
  - apply Hstr.
  - apply Harr. induction l as [|v l IHl]; constructor; [apply IH|exact IHl].
  - apply Hobj. induction o as [|[k v] o IHo]; constructor;
      [apply IH|exact IHo].
Qed.

Lemma forallb_map_Forall {A B} (f : B -> bool) (g : A -> B) (l : list A) :
  Forall (fun a => f (g a) = true) l -> forallb f (map g l) = true.
Proof.
  induction 1 as [|a l Ha _ IH]; cbn [map forallb]; [reflexivity|].
  now rewrite Ha.
Qed.

Section PlannerShape.
Import Db.
Variable isOperator : string -> bool.
Variable indice_testIndice : IndexId -> string -> JValue -> bool.
Variable this : Db.
Variable sort : option SortSpec.
Variable skip : nat.
Variable limit : option nat.

Local Abbreviation build := (buildIndexSearch isOperator indice_testIndice
                               this sort skip limit).
Local Abbreviation compile := (fun p c => build p false c).
Local Abbreviation sortIndices := (fst (sort_setup this sort)).
Local Abbreviation run_clauses := (compile_clauses isOperator
                                     indice_testIndice this sortIndices).
Local Abbreviation run_clause := (compile_clause isOperator
                                    indice_testIndice this sortIndices).

(** A call of [buildIndexSearch] that returns has run the loop over the
    entries of the criteria. *)
Lemma buildIndexSearch_returns path_ isRoot criteria plan c' :
  build path_ isRoot criteria = Ok (plan, c') ->
  exists st,
    run_clauses path_ (clauses_of compile criteria) (mkBuilding [] [] [])
    = Ok st
    /\ plan = mkPlan (b_indices st) sortIndices (b_subIterables st)
               (snd (sort_setup this sort)) isRoot
    /\ c' = rebuild criteria (b_criteria st).
Proof.
  destruct criteria; cbn [buildIndexSearch clauses_of];
    destruct (sort_setup this sort) as [si g]; cbn [fst snd];
    try discriminate;
    (destruct (compile_clauses _ _ _ _ _ _ _) as [st|e]; cbn [bind];
     [|discriminate]);
    intros [= <- <-]; now exists st.
Qed.

(** A call that throws has thrown in the loop, or on [null]. *)
Lemma buildIndexSearch_throws path_ isRoot criteria e :
  build path_ isRoot criteria = Throw e ->
  criteria = JNull /\ e = entries_of_null
  \/ run_clauses path_ (clauses_of compile criteria) (mkBuilding [] [] [])
     = Throw e.
Proof.
  destruct criteria; cbn [buildIndexSearch clauses_of];
    destruct (sort_setup this sort) as [si g]; cbn [fst snd];
    try (intros [= <-]; now left);
    (destruct (compile_clauses _ _ _ _ _ _ _) as [st|e0]; cbn [bind];
     [discriminate|]);
    intros [= <-]; now right.
Qed.

Lemma invoke_greed i s subs g r :
  greed (invoke this (mkPlan i s subs g r))
  = g && forallb greed (map (invoke this) subs).
Proof. reflexivity. Qed.

Lemma invoke_missed i s subs g r :
  missed (invoke this (mkPlan i s subs g r))
  = Nat.eqb
      (List.length
         (map (indiceCursor this)
            (filter
               (fun o =>
                  negb (existsb (option_string_eqb (path o))
                          (paths (invoke this (mkPlan i s subs g r))))
                  && r)
               (map snd s))))
      0
    && Nat.eqb (List.length i) 0
    && forallb missed (map (invoke this) subs).
Proof. reflexivity. Qed.

(** What a clause does to the sub-plans: only the clause of an object
    value adds one, the plan of that value. *)
Lemma compile_clause_subs (Q : Plan -> Prop) path_ (c : Clause)
    (st st' : Building) :
  (isObject (value_ c) = true ->
   forall r, nested c tt = Ok r -> Q (fst r)) ->
  Forall Q (b_subIterables st) ->
  run_clause path_ c st = Ok st' ->
  Forall Q (b_subIterables st').
Proof.
  intros Hn Hst. unfold compile_clause.
  destruct (has logicalOperators (key c) && isArray (value_ c)).
  - destruct (subCriteria c tt); cbn [bind]; [|discriminate].
    now intros [= <-].
  - destruct (has (customOperators this) (key c)).
    + intros [= <-]. now destruct (last _ _).
    + destruct (isOperator (key c)).
      * intros [= <-]. cbn [keep b_subIterables]. unfold operator_clause.
        now destruct (List.find _ _).
      * destruct (isObject (value_ c)).
        -- destruct (nested c tt) as [r|e] eqn:E; cbn [bind]; [|discriminate].
           intros [= <-]. cbn [keep b_subIterables].
           apply Forall_app. split; [exact Hst|].
           constructor; [now apply Hn|constructor].
        -- intros [= <-]. cbn [keep b_subIterables].
           now destruct (find_path _ _).
Qed.

Lemma compile_clauses_subs (Q : Plan -> Prop) path_ (cs : list Clause)
    (st st' : Building) :
  Forall (fun c => isObject (value_ c) = true ->
                   forall r, nested c tt = Ok r -> Q (fst r)) cs ->
  Forall Q (b_subIterables st) ->
  run_clauses path_ cs st = Ok st' ->
  Forall Q (b_subIterables st').
Proof.
  intros Hcs. revert st. induction Hcs as [|c cs Hc _ IH]; intros st Hst;
    cbn [compile_clauses].
  - now intros [= <-].
  - destruct (compile_clause _ _ _ _ _ c st) as [st1|e] eqn:E;
      cbn [bind]; [|discriminate].
    apply IH. eapply compile_clause_subs; [exact Hc|exact Hst|exact E].
Qed.

(** The sub-plans that the clauses of a criteria may add are plans of the
    values of its entries. *)
Lemma clauses_nested (Q : Plan -> Prop) (criteria : JValue) :
  match criteria with
  | JArr l => Forall (fun v => forall p pl c', compile p v = Ok (pl, c') ->
                               Q pl) l
  | JObj o => Forall (fun e => forall p pl c',
                               compile p (snd e) = Ok (pl, c') -> Q pl) o
  | _ => True
  end ->
  Forall (fun c => isObject (value_ c) = true ->
                   forall r, nested c tt = Ok r -> Q (fst r))
    (clauses_of compile criteria).
Proof.
  destruct criteria as [|b|z|s|l|o]; cbn [clauses_of]; intros H;
    try constructor.
  - generalize 0. induction s as [|ch s IHs]; intros i; cbn [char_clauses];
      constructor; [discriminate|apply IHs].
  - generalize 0. induction H as [|v l Hv _ IHl]; intros i;
      cbn [array_clauses]; constructor; [|apply IHl].
    cbn [clause_of value_ nested]. intros _ [pl c'] Hr. exact (Hv _ _ _ Hr).
  - unfold object_clauses. induction H as [|[k v] o Hv _ IHo]; cbn [map];
      constructor; [|exact IHo].
    cbn [clause_of value_ nested fst snd] in *. intros _ [pl c'] Hr.
    exact (Hv _ _ _ Hr).
Qed.

(** The sub-plans of a plan have every property that the plans of the
    values of the criteria have. *)
Lemma plan_subs (Q : Plan -> Prop) path_ (criteria : JValue) (st : Building) :
  match criteria with
  | JArr l => Forall (fun v => forall p pl c', compile p v = Ok (pl, c') ->
                               Q pl) l
  | JObj o => Forall (fun e => forall p pl c',
                               compile p (snd e) = Ok (pl, c') -> Q pl) o
  | _ => True
  end ->
  run_clauses path_ (clauses_of compile criteria) (mkBuilding [] [] [])
  = Ok st ->
  Forall Q (b_subIterables st).
Proof.
  intros H Hst.
  exact (@compile_clauses_subs Q path_ _ (mkBuilding [] [] []) st
           (@clauses_nested Q criteria H) (Forall_nil Q) Hst).
Qed.

Lemma sort_setup_greed : snd (sort_setup this sort) = unserved_sort this sort.
Proof.
  unfold sort_setup, unserved_sort. destruct sort as [entries|]; [|reflexivity].
  assert (H : forall acc,
             snd (fold_left
                    (fun acc e =>
                       match find_path this (fst e) with
                       | Some i =>
                           (JsMap.set (indice i)
                              (mkOption (indice i) (path i) (value i) (op i)
                                 (Some (snd e)))
                              (fst acc),
                            false)
                       | None => acc
                       end)
                    entries acc)
             = forallb
                 (fun e =>
                    match find_path this (fst e) with
                    | Some _ => false
                    | None => true
                    end)
                 entries
               && snd acc).
  { induction entries as [|e entries IH]; intros acc; cbn [fold_left forallb].
    - reflexivity.
    - rewrite IH. destruct (find_path this (fst e)); cbn [snd andb].
      + now rewrite andb_false_r.
      + reflexivity. }
  rewrite H. cbn [snd]. now rewrite andb_true_r.
Qed.

(** X16.  Whether a plan is greedy, that is whether [find] has to sort, cut and
    skip the records itself, depends on the sort alone, whatever the
    criteria and at every depth: the plan is greedy exactly when a sort is
    asked for and no index is bound to the path of any of its keys. *)
Theorem plan_is_greedy_when_sort_is_unserved (criteria : JValue)
    (path_ : option string) (isRoot : bool) (plan : Plan) (c' : JValue) :
  build path_ isRoot criteria = Ok (plan, c') ->
  greed (invoke this plan) = unserved_sort this sort.
Proof.
  revert path_ isRoot plan c'.
  induction criteria as [|b|z|s|l IHl|o IHo] using JValue_nested_ind;
    intros path_ isRoot plan c' Hrun;
    destruct (buildIndexSearch_returns _ _ _ Hrun) as (st & Hst & -> & _);
    rewrite invoke_greed, sort_setup_greed;
    (destruct (unserved_sort this sort) eqn:Eg; [|reflexivity]);
    cbn [andb];
    (assert (Hsubs : Forall (fun p => greed (invoke this p) = true)
                       (b_subIterables st));
     [refine (@plan_subs _ _ _ _ _ Hst); try exact I
     |now apply forallb_map_Forall]).
  - rewrite Forall_forall in *. intros v Hv p pl cv Hc.
    exact (IHl v Hv _ _ _ _ Hc).
  - rewrite Forall_forall in *. intros e He p pl cv Hc.
    exact (IHo e He _ _ _ _ Hc).
Qed.

(** X17.  On a database without secondary index every plan is missed: whatever
    the criteria and the sort, [find] falls back on the scan of the primary
    collection. *)
Theorem plan_without_index_is_missed (criteria : JValue)
    (path_ : option string) (isRoot : bool) (plan : Plan) (c' : JValue) :
  indices (schema this) = [] ->
  build path_ isRoot criteria = Ok (plan, c') ->
  missed (invoke this plan) = true.
Proof.
  intros Hnone. revert path_ isRoot plan c'.
  assert (Hsort : sortIndices = []).
  { unfold sort_setup. destruct sort as [entries|]; [|reflexivity].
    assert (H : forall acc,
               fold_left
                 (fun acc e =>
                    match find_path this (fst e) with
                    | Some i =>
                        (JsMap.set (indice i)
                           (mkOption (indice i) (path i) (value i) (op i)
                              (Some (snd e)))
                           (fst acc),
                         false)
                    | None => acc
                    end)
                 entries acc = acc).
    { induction entries as [|e entries IH]; intros acc; cbn [fold_left];
        [reflexivity|].
      unfold find_path at 2. rewrite Hnone. cbn [List.find]. apply IH. }
    now rewrite H. }
  assert (Hstage : forall path_ cs st st',
             run_clauses path_ cs st = Ok st' -> b_indices st' = b_indices st).
  { intros path_ cs. induction cs as [|c cs IH]; intros st st';
      cbn [compile_clauses]; [now intros [= <-]|].
    destruct (compile_clause _ _ _ _ _ c st) as [st1|e] eqn:E;
      cbn [bind]; [|discriminate].
    intros H. rewrite (IH _ _ H). clear IH H.
    unfold compile_clause in E. rewrite Hnone in E.
    unfold operator_clause, find_path in E. rewrite Hnone in E.
    cbn [filter map last List.find] in E.
    destruct (has logicalOperators (key c) && isArray (value_ c)).
    - destruct (subCriteria c tt); cbn [bind] in E; [|discriminate].
      now injection E as <-.
    - destruct (has (customOperators this) (key c)); [now injection E as <-|].
      destruct (isOperator (key c)); [now injection E as <-|].
      destruct (isObject (value_ c)); [|now injection E as <-].
      destruct (nested c tt); cbn [bind] in E; [|discriminate].
      now injection E as <-. }
  induction criteria as [|b|z|s|l IHl|o IHo] using JValue_nested_ind;
    intros path_ isRoot plan c' Hrun;
    destruct (buildIndexSearch_returns _ _ _ Hrun) as (st & Hst & -> & _);
    rewrite invoke_missed, Hsort, (Hstage _ _ _ _ Hst);
    cbn [map filter List.length b_indices Nat.eqb andb];
    (assert (Hsubs : Forall (fun p => missed (invoke this p) = true)
                       (b_subIterables st));
     [refine (@plan_subs _ _ _ _ _ Hst); try exact I
     |now apply forallb_map_Forall]).
  - rewrite Forall_forall in *. intros v Hv p pl cv Hc.
    exact (IHl v Hv _ _ _ _ Hc).
  - rewrite Forall_forall in *. intros e He p pl cv Hc.
    exact (IHo e He _ _ _ _ Hc).
Qed.

End PlannerShape.

Lemma plan_is_greedy_when_sort_is_unserved_witness :
  exists plan c',
    Db.buildIndexSearch Db.startsWith_dollar Sample.accepts_all
      (Db.new_Db Sample.text_schema) (Some [("name", Db.Asc)]) 0 None None
      true Sample.africa = Ok (plan, c')
    /\ Db.greed (Db.invoke (Db.new_Db Sample.text_schema) plan)
       = unserved_sort (Db.new_Db Sample.text_schema)
           (Some [("name", Db.Asc)]).
Proof.
  eexists. eexists. split; [reflexivity|].
  exact (plan_is_greedy_when_sort_is_unserved Db.startsWith_dollar
           Sample.accepts_all (Db.new_Db Sample.text_schema)
           (Some [("name", Db.Asc)]) 0 None Sample.africa None true eq_refl).
Defined.

Lemma plan_without_index_is_missed_witness :
  exists plan c',
    Db.buildIndexSearch Db.startsWith_dollar Sample.accepts_all
      (Db.new_Db Sample.bare_schema) None 0 None None true
      (Db.JObj [("address", Db.JObj [("city", Db.JStr "Oslo")])])
    = Ok (plan, c')
    /\ Db.missed (Db.invoke (Db.new_Db Sample.bare_schema) plan) = true.
Proof.
  eexists. eexists. split; [reflexivity|].
  exact (plan_without_index_is_missed Db.startsWith_dollar
           Sample.accepts_all (Db.new_Db Sample.bare_schema) None 0 None
           (Db.JObj [("address", Db.JObj [("city", Db.JStr "Oslo")])])
           None true eq_refl eq_refl).
Defined.

(** Induction on a criteria tree that also reaches the elements of the
    arrays found under the entries. *)
Lemma JValue_deep_ind (P : Db.JValue -> Prop) :
  P Db.JNull ->
  (forall b, P (Db.JBool b)) ->
  (forall z, P (Db.JNum z)) ->
  (forall s, P (Db.JStr s)) ->
  (forall l,
     Forall (fun v => P v /\ forall l', v = Db.JArr l' -> Forall P l') l ->
     P (Db.JArr l)) ->
  (forall o,
     Forall (fun e => P (snd e)
                      /\ forall l', snd e = Db.JArr l' -> Forall P l') o ->
     P (Db.JObj o)) ->
  forall v, P v.
Proof.
  intros Hnull Hbool Hnum Hstr Harr Hobj v.
  assert (H : P v /\ forall l', v = Db.JArr l' -> Forall P l');
    [|exact (proj1 H)].
  induction v as [|b|z|s|l IHl|o IHo] using JValue_nested_ind;
    (split; [|try discriminate]); auto.
  intros l' [= <-]. apply Forall_forall. intros x Hx.
  rewrite Forall_forall in IHl. exact (proj1 (IHl x Hx)).
Qed.

Lemma res_map_throws {A B} (f : A -> Res B) (l : list A) (e : Error) :
  res_map f l = Throw e -> exists x, In x l /\ f x = Throw e.
Proof.
  induction l as [|a l IH]; cbn [res_map]; [discriminate|].
  destruct (f a) as [b|e0] eqn:E; cbn [bind].
  - destruct (res_map f l) as [bs|e1]; cbn [bind]; [discriminate|].
    intros [= <-]. destruct (IH eq_refl) as (x & Hx & Hf).
    exists x. split; [now right|exact Hf].
  - intros [= <-]. exists a. split; [now left|exact E].
Qed.

Lemma res_map_snd {A B} (f : B -> Res (A * B)) (l : list B)
    (out : list (A * B)) :
  Forall (fun v => forall r, f v = Ok r -> snd r = v) l ->
  res_map f l = Ok out -> map snd out = l.
Proof.
  intros H. revert out. induction H as [|v l Hv _ IH]; intros out;
    cbn [res_map]; [now intros [= <-]|].
  destruct (f v) as [b|e] eqn:E; cbn [bind]; [|discriminate].
  destruct (res_map f l) as [bs|e]; cbn [bind]; [|discriminate].
  intros [= <-]. cbn [map]. now rewrite (Hv b eq_refl), (IH bs eq_refl).
Qed.

Section PlannerErrors.
Import Db.
Variable isOperator : string -> bool.
Variable indice_testIndice : IndexId -> string -> JValue -> bool.
Variable this : Db.
Variable sort : option SortSpec.
Variable skip : nat.
Variable limit : option nat.

Local Abbreviation build := (buildIndexSearch isOperator indice_testIndice
                               this sort skip limit).
Local Abbreviation compile := (fun p c => build p false c).
Local Abbreviation sortIndices := (fst (sort_setup this sort)).
Local Abbreviation run_clauses := (compile_clauses isOperator
                                     indice_testIndice this sortIndices).
Local Abbreviation run_clause := (compile_clause isOperator
                                    indice_testIndice this sortIndices).

(** A clause throws what one of its two recursive calls throws. *)
Lemma compile_clause_throws path_ (c : Clause) (st : Building) (e : Error) :
  run_clause path_ c st = Throw e ->
  isArray (value_ c) = true /\ subCriteria c tt = Throw e
  \/ nested c tt = Throw e.
Proof.
  unfold compile_clause.
  destruct (has logicalOperators (key c) && isArray (value_ c)) eqn:Hlog.
  - apply andb_prop in Hlog.
    destruct (subCriteria c tt) as [subIt|e0]; cbn [bind]; [discriminate|].
    intros [= <-]. left. tauto.
  - destruct (has (customOperators this) (key c)); [discriminate|].
    destruct (isOperator (key c)); [discriminate|].
    destruct (isObject (value_ c)); [|discriminate].
    destruct (nested c tt) as [r|e0]; cbn [bind]; [discriminate|].
    intros [= <-]. now right.
Qed.

Lemma compile_clauses_throws path_ (cs : list Clause) (st : Building)
    (e : Error) :
  run_clauses path_ cs st = Throw e ->
  exists c, In c cs
            /\ (isArray (value_ c) = true /\ subCriteria c tt = Throw e
                \/ nested c tt = Throw e).
Proof.
  revert st. induction cs as [|c cs IH]; intros st; cbn [compile_clauses];
    [discriminate|].
  destruct (compile_clause _ _ _ _ _ c st) as [st1|e0] eqn:E; cbn [bind].
  - intros H. destruct (IH _ H) as (c0 & Hin & Hc0).
    exists c0. split; [now right|exact Hc0].
  - intros [= <-]. exists c. split; [now left|].
    exact (compile_clause_throws _ _ _ E).
Qed.

(** The clauses of a criteria are clauses of its entries. *)
Lemma In_clauses_of (criteria : JValue) (c : Clause) :
  In c (clauses_of compile criteria) ->
  (exists k v, c = clause_of compile k v
               /\ match criteria with
                  | JArr l => In v l
                  | JObj o => In (k, v) o
                  | _ => False
                  end)
  \/ (isArray (value_ c) = false /\ exists r, nested c tt = Ok r).
Proof.
  destruct criteria as [|b|z|s|l|o]; cbn [clauses_of]; try (intros []).
  - generalize 0. induction s as [|ch s IHs]; intros i; cbn [char_clauses];
      [intros []|].
    intros [<- | H]; [|exact (IHs _ H)].
    right. split; [reflexivity|]. cbn [nested]. eauto.
  - generalize 0. induction l as [|v l IHl]; intros i; cbn [array_clauses];
      [intros []|].
    intros [<- | H].
    + left. exists (string_of_nat i), v. split; [reflexivity|now left].
    + destruct (IHl _ H) as [(k & v0 & Hc & Hin) | Hr]; [|now right].
      left. exists k, v0. split; [exact Hc|now right].
  - unfold object_clauses. intros H. apply in_map_iff in H.
    destruct H as ([k v] & <- & Hin). left. exists k, v. now split.
Qed.

(** X18.  The compilation of a criteria raises no error of its own: the only
    exception it throws, whatever the criteria, the sort and the schema, is
    the TypeError that [Object.entries] raises on [null]. *)
Theorem buildIndexSearch_throws_only_on_null (criteria : JValue)
    (path_ : option string) (isRoot : bool) (e : Error) :
  build path_ isRoot criteria = Throw e -> e = entries_of_null.
Proof.
  revert path_ isRoot e.
  assert (Hclause : forall k v e,
             (forall p r e0, build p r v = Throw e0 -> e0 = entries_of_null) ->
             (forall l', v = JArr l' ->
                Forall (fun x => forall p r e0, build p r x = Throw e0 ->
                                                e0 = entries_of_null) l') ->
             isArray v = true
             /\ subCriteria (clause_of compile k v) tt = Throw e
             \/ nested (clause_of compile k v) tt = Throw e ->
             e = entries_of_null).
  { intros k v e Hv Hl [[Harr Hsub] | Hn].
    - destruct v as [| | | |l'|]; try discriminate.
      cbn [clause_of subCriteria] in Hsub.
      destruct (res_map_throws _ _ Hsub) as (x & Hx & Hthrow).
      specialize (Hl l' eq_refl). rewrite Forall_forall in Hl.
      exact (Hl x Hx _ _ _ Hthrow).
    - exact (Hv _ _ _ Hn). }
  induction criteria as [|b|z|s|l IHl|o IHo] using JValue_deep_ind;
    intros path_ isRoot e Hrun;
    (destruct (buildIndexSearch_throws _ _ _ _ _ _ _ _ _ Hrun)
      as [[_ ->] | Hloop]; [reflexivity|]);
    destruct (compile_clauses_throws _ _ _ Hloop) as (c & Hin & Hc);
    (destruct (In_clauses_of _ _ Hin)
      as [(k & v & -> & Hv) | (Harr & r & Hr)];
     [|destruct Hc as [[Harr' _] | Hn]; congruence]);
    try contradiction.
  - rewrite Forall_forall in IHl. destruct (IHl v Hv) as [H1 H2].
    exact (Hclause k v e H1 H2 Hc).
  - rewrite Forall_forall in IHo. destruct (IHo (k, v) Hv) as [H1 H2].
    exact (Hclause k v e H1 H2 Hc).
Qed.

(** X19.  On a database that registers no custom operator the compilation leaves
    the criteria as it was given: nothing is deleted or rewritten, at any
    depth. *)
Theorem criteria_untouched_without_custom_operators (criteria : JValue)
    (path_ : option string) (isRoot : bool) (plan : Plan) (c' : JValue) :
  customOperators this = [] ->
  build path_ isRoot criteria = Ok (plan, c') ->
  c' = criteria.
Proof.
  intros Hcustom. revert path_ isRoot plan c'.
  assert (Hone : forall path_ c st st',
             (isArray (value_ c) = true ->
              forall subIt, subCriteria c tt = Ok subIt ->
                            JArr (map snd subIt) = value_ c) ->
             (forall r, nested c tt = Ok r -> snd r = value_ c) ->
             run_clause path_ c st = Ok st' ->
             b_criteria st' = b_criteria st ++ [(key c, value_ c)]).
  { intros path_ c st st' Hsub Hn. unfold compile_clause.
    rewrite Hcustom. cbn [has existsb].
    destruct (has logicalOperators (key c) && isArray (value_ c)) eqn:Hlog.
    - apply andb_prop in Hlog.
      destruct (subCriteria c tt) as [subIt|e0]; cbn [bind]; [|discriminate].
      intros [= <-]. cbn [keep b_criteria].
      now rewrite (Hsub (proj2 Hlog) subIt eq_refl).
    - destruct (isOperator (key c)).
      + intros [= <-]. cbn [keep b_criteria]. unfold operator_clause.
        now destruct (List.find _ _).
      + destruct (isObject (value_ c)).
        * destruct (nested c tt) as [r|e0]; cbn [bind]; [|discriminate].
          intros [= <-]. cbn [keep b_criteria]. now rewrite (Hn r eq_refl).
        * intros [= <-]. cbn [keep b_criteria]. now destruct (find_path _ _). }
  assert (Hall : forall path_ cs st st',
             Forall (fun c =>
                       (isArray (value_ c) = true ->
                        forall subIt, subCriteria c tt = Ok subIt ->
                                      JArr (map snd subIt) = value_ c)
                       /\ (forall r, nested c tt = Ok r -> snd r = value_ c))
               cs ->
             run_clauses path_ cs st = Ok st' ->
             b_criteria st'
             = b_criteria st ++ map (fun c => (key c, value_ c)) cs).
  { intros path_ cs st st' Hcs. revert st.
    induction Hcs as [|c cs [Hc1 Hc2] _ IH]; intros st;
      cbn [compile_clauses map].
    - intros [= <-]. now rewrite app_nil_r.
    - destruct (compile_clause _ _ _ _ _ c st) as [st1|e0] eqn:E;
        cbn [bind]; [|discriminate].
      intros H. rewrite (IH _ H), (Hone _ _ _ _ Hc1 Hc2 E), <- app_assoc.
      reflexivity. }
  assert (Hclause : forall k v,
             (forall p r pl cv, build p r v = Ok (pl, cv) -> cv = v) ->
             (forall l', v = JArr l' ->
                Forall (fun x => forall p r pl cv,
                                 build p r x = Ok (pl, cv) -> cv = x) l') ->
             (isArray (value_ (clause_of compile k v)) = true ->
              forall subIt,
                subCriteria (clause_of compile k v) tt = Ok subIt ->
                JArr (map snd subIt) = value_ (clause_of compile k v))
             /\ (forall r, nested (clause_of compile k v) tt = Ok r ->
                           snd r = value_ (clause_of compile k v))).
  { intros k v Hv Hl. cbn [clause_of value_ subCriteria nested]. split.
    - intros Harr subIt Hsub. destruct v as [| | | |l'|]; try discriminate.
      f_equal. apply (res_map_snd (compile None)); [|exact Hsub].
      specialize (Hl l' eq_refl). rewrite Forall_forall in *.
      intros x Hx [pl cv] Hr. exact (Hl x Hx _ _ _ _ Hr).
    - intros [pl cv] Hr. exact (Hv _ _ _ _ Hr). }
  induction criteria as [|b|z|s|l IHl|o IHo] using JValue_deep_ind;
    intros path_ isRoot plan c' Hrun;
    destruct (buildIndexSearch_returns _ _ _ _ _ _ _ _ _ Hrun)
      as (st & Hst & _ & ->);
    try reflexivity.
  - assert (Hcs : Forall
                    (fun c =>
                       (isArray (value_ c) = true ->
                        forall subIt, subCriteria c tt = Ok subIt ->
                                      JArr (map snd subIt) = value_ c)
                       /\ (forall r, nested c tt = Ok r -> snd r = value_ c))
                    (clauses_of compile (JArr l))).
    { clear - IHl Hclause. cbn [clauses_of]. generalize 0.
      induction IHl as [|v l [H1 H2] _ IH]; intros i; cbn [array_clauses];
        constructor; [exact (Hclause _ v H1 H2)|apply IH]. }
    cbn [rebuild]. f_equal. rewrite (Hall _ _ _ _ Hcs Hst).
    cbn [b_criteria app clauses_of]. generalize 0.
    clear. induction l as [|v l IH]; intros i; cbn; [reflexivity|].
    now rewrite IH.
  - assert (Hcs : Forall
                    (fun c =>
                       (isArray (value_ c) = true ->
                        forall subIt, subCriteria c tt = Ok subIt ->
                                      JArr (map snd subIt) = value_ c)
                       /\ (forall r, nested c tt = Ok r -> snd r = value_ c))
                    (clauses_of compile (JObj o))).
    { clear - IHo Hclause. cbn [clauses_of]. unfold object_clauses.
      induction IHo as [|[k v] o [H1 H2] _ IH]; cbn [map];
        constructor; [exact (Hclause k v H1 H2)|exact IH]. }
    cbn [rebuild]. f_equal. rewrite (Hall _ _ _ _ Hcs Hst).
    cbn [b_criteria app clauses_of]. unfold object_clauses.
    rewrite map_map. cbn [clause_of key value_].
    clear. induction o as [|[k v] o IH]; cbn; [reflexivity|].
    now rewrite IH.
Qed.

End PlannerErrors.

Lemma buildIndexSearch_throws_only_on_null_witness :
  exists e,
    Sample.compile_text (Db.JObj [("$and", Db.JArr [Db.JNull])]) = Throw e
    /\ e = entries_of_null.
Proof.
  eexists. split; [reflexivity|].
  exact (buildIndexSearch_throws_only_on_null Db.startsWith_dollar
           Sample.accepts_all (Db.new_Db Sample.text_schema) None 0 None
           (Db.JObj [("$and", Db.JArr [Db.JNull])]) None true eq_refl).
Defined.

Lemma criteria_untouched_without_custom_operators_witness :
  exists plan c',
    Db.buildIndexSearch Db.startsWith_dollar Sample.accepts_all
      (Db.new_Db Sample.bare_schema) None 0 None None true
      (Db.JObj [("$or", Db.JArr [Db.JObj [("city", Db.JStr "Oslo")]])])
    = Ok (plan, c')
    /\ c' = Db.JObj [("$or", Db.JArr [Db.JObj [("city", Db.JStr "Oslo")]])].
Proof.
  eexists. eexists. split; [reflexivity|].
  exact (criteria_untouched_without_custom_operators Db.startsWith_dollar
           Sample.accepts_all (Db.new_Db Sample.bare_schema) None 0 None
           (Db.JObj [("$or", Db.JArr [Db.JObj [("city", Db.JStr "Oslo")]])])
           None true eq_refl eq_refl).
Defined.

(** ** [find] on a missed plan *)

Section MissedFind.
Import Db.
Variable isOperator : string -> bool.
Variable indice_testIndice : IndexId -> string -> JValue -> bool.
Variable this : Db.
Variable mingo_Query : JValue -> Res (JValue -> bool).
Variable mingo_sort : SortSpec -> list JValue -> list JValue.
Variable primary_cursor : list (list JValue).
Variable scan_indexed :
  ResultIndiceSearch -> (JValue -> bool) -> nat -> option nat ->
  Res (list JValue).

Local Abbreviation find_ := (find isOperator indice_testIndice this
                               mingo_Query mingo_sort primary_cursor
                               scan_indexed).
Local Abbreviation build := (buildIndexSearch isOperator indice_testIndice
                               this).
Local Abbreviation collection := (List.concat primary_cursor).

(** [find] on a criteria whose plan is missed and that the matcher
    accepts: the scan of the primary collection, and the final stages. *)
Lemma find_missed criteria sort skip limit plan c' test :
  build sort (default 0 skip) limit None true criteria = Ok (plan, c') ->
  missed (invoke this plan) = true ->
  mingo_Query c' = Ok test ->
  find_ criteria sort skip limit
  = Ok (finalize mingo_sort sort (default 0 skip) limit
          (greed (invoke this plan))
          (scan_primary primary_cursor test (default 0 skip) limit
             (greed (invoke this plan))),
        c').
Proof.
  intros Hb Hm Hq. unfold find. rewrite Hb. cbn [bind fst snd].
  rewrite Hq. cbn [bind]. rewrite Hm. reflexivity.
Qed.

(** X20.  With no skip and no limit, [find] on a missed plan returns exactly the
    records of the primary collection that the matcher accepts, in the
    order of the cursor, or sorted by the sort stage when the plan is
    greedy. *)
Theorem missed_find_without_bounds_is_exact criteria sort skip plan c' test :
  default 0 skip = 0 ->
  build sort 0 None None true criteria = Ok (plan, c') ->
  missed (invoke this plan) = true ->
  mingo_Query c' = Ok test ->
  find_ criteria sort skip None
  = Ok (match sort with
        | Some s =>
            if greed (invoke this plan)
            then mingo_sort s (filter test collection)
            else filter test collection
        | None => filter test collection
        end,
        c').
Proof.
  intros Hs Hb Hm Hq. rewrite <- Hs in Hb.
  rewrite (find_missed _ _ _ _ Hb Hm Hq), Hs, scan_primary_unbounded.
  unfold finalize. cbn [Nat.eqb negb andb]. reflexivity.
Qed.

Lemma scan_values_skipping (test : JValue -> bool) (skip : nat)
    (limit : option nat) (greed_ : bool) (values : list JValue) :
  1 <= skip ->
  scan_values test skip limit greed_ values (0, []) = (0, []).
Proof.
  intros Hs. induction values as [|v values IH]; cbn [scan_values];
    [reflexivity|].
  destruct skip as [|n]; [lia|]. cbn [Nat.leb]. now rewrite andb_false_r.
Qed.

(** X21.  With a skip of one or more, [find] on a missed plan returns no record
    at all, whatever the collection holds: the counter that is compared
    with the skip only advances when a record is kept, and none is kept
    before it reaches the skip. *)
Theorem missed_find_with_skip_returns_nothing criteria sort skip limit plan
    c' test :
  1 <= skip ->
  (forall s, mingo_sort s [] = []) ->
  build sort skip limit None true criteria = Ok (plan, c') ->
  missed (invoke this plan) = true ->
  mingo_Query c' = Ok test ->
  find_ criteria sort (Some skip) limit = Ok ([], c').
Proof.
  intros Hs Hsort Hb Hm Hq.
  rewrite (find_missed criteria sort (Some skip) limit Hb Hm Hq).
  cbn [default].
  assert (Hscan : scan_primary primary_cursor test skip limit
                    (greed (invoke this plan)) = []).
  { unfold scan_primary.
    induction primary_cursor as [|b bs IH]; cbn [fold_left]; [reflexivity|].
    now rewrite scan_values_skipping. }
  rewrite Hscan. unfold finalize.
  assert (Hsorted : match sort with
                    | Some s =>
                        if greed (invoke this plan) then mingo_sort s []
                        else []
                    | None => []
                    end = []).
  { destruct sort; [|reflexivity]. destruct (greed _); [apply Hsort|easy]. }
  rewrite Hsorted.
  assert (Hcut : match limit with
                 | Some l =>
                     if negb (Nat.eqb l 0) && greed (invoke this plan)
                     then firstn l (@nil JValue) else []
                 | None => []
                 end = []).
  { destruct limit as [l|]; [|reflexivity].
    destruct (_ && _); [apply firstn_nil|reflexivity]. }
  rewrite Hcut. destruct (_ && _); [now rewrite skipn_nil|reflexivity].
Qed.

Lemma scan_values_sound (test : JValue -> bool) (skip : nat)
    (limit : option nat) (greed_ : bool) (P : JValue -> Prop)
    (values : list JValue) (acc : nat * list JValue) :
  (forall v, In v values -> test v = true -> P v) ->
  Forall P (snd acc) ->
  Forall P (snd (scan_values test skip limit greed_ values acc)).
Proof.
  revert acc. induction values as [|v values IH]; intros [i res] Hv Hacc;
    cbn [scan_values]; [exact Hacc|].
  assert (Hrest : forall x, In x values -> test x = true -> P x).
  { intros x Hx. apply Hv. now right. }
  destruct (test v && (skip <=? i)%nat) eqn:E.
  - apply andb_prop in E.
    assert (Hres : Forall P (res ++ [v])).
    { apply Forall_app. split; [exact Hacc|].
      constructor; [|constructor]. apply Hv; [now left|apply E]. }
    destruct (isEnough limit greed_ (S i)); [exact Hres|].
    now apply IH.
  - now apply IH.
Qed.

(** X22.  Whatever the sort, the skip and the limit, every record that [find]
    returns on a missed plan is a record of the primary collection that the
    matcher accepts, provided the sort stage returns no record it was not
    given. *)
Theorem missed_find_returns_matching_records criteria sort skip limit plan
    c' test :
  (forall s l, incl (mingo_sort s l) l) ->
  build sort (default 0 skip) limit None true criteria = Ok (plan, c') ->
  missed (invoke this plan) = true ->
  mingo_Query c' = Ok test ->
  exists res,
    find_ criteria sort skip limit = Ok (res, c')
    /\ forall r, In r res -> In r collection /\ test r = true.
Proof.
  intros Hsort Hb Hm Hq. rewrite (find_missed _ _ _ _ Hb Hm Hq).
  eexists. split; [reflexivity|].
  set (g := greed (invoke this plan)).
  assert (Hscan : Forall (fun r => In r collection /\ test r = true)
                    (scan_primary primary_cursor test (default 0 skip) limit
                       g)).
  { unfold scan_primary.
    assert (H : forall batches acc,
               incl (List.concat batches) collection ->
               Forall (fun r => In r collection /\ test r = true) (snd acc) ->
               Forall (fun r => In r collection /\ test r = true)
                 (snd (fold_left
                         (fun acc values =>
                            scan_values test (default 0 skip) limit g values
                              acc)
                         batches acc))).
    { induction batches as [|b bs IH]; intros acc Hin Hacc; cbn [fold_left];
        [exact Hacc|].
      cbn [List.concat] in Hin. apply IH.
      - intros x Hx. apply Hin, in_or_app. now right.
      - apply scan_values_sound; [|exact Hacc].
        intros v Hv Ht. split; [|exact Ht]. apply Hin, in_or_app. now left. }
    apply H; [apply incl_refl|constructor]. }
  rewrite Forall_forall in Hscan. intros r Hr. apply Hscan.
  revert Hr. generalize (scan_primary primary_cursor test (default 0 skip)
                           limit g).
  intros res. unfold finalize. intros Hr.
  assert (H1 : forall l, In r (match sort with
                               | Some s => if g then mingo_sort s l else l
                               | None => l
                               end) -> In r l).
  { intros l. destruct sort as [s|]; [|trivial].
    destruct g; [apply Hsort|trivial]. }
  assert (H2 : forall l, In r (match limit with
                               | Some n =>
                                   if negb (Nat.eqb n 0) && g
                                   then firstn n l else l
                               | None => l
                               end) -> In r l).
  { intros l. destruct limit as [n|]; [|trivial].
    destruct (negb (Nat.eqb n 0) && g); [|trivial].
    intros H. rewrite <- (firstn_skipn n l). apply in_or_app. now left. }
  apply H1, H2.
  destruct (negb (Nat.eqb (default 0 skip) 0) && g); [|exact Hr].
  rewrite <- (firstn_skipn (default 0 skip) _). apply in_or_app. now right.
Qed.

End MissedFind.

Lemma missed_find_without_bounds_is_exact_witness :
  Sample.find_bare [[Sample.record 0; Sample.record 1]] (Db.JObj []) None
    None None
  = Ok ([Sample.record 0; Sample.record 1], Db.JObj []).
Proof.
  exact (missed_find_without_bounds_is_exact Db.startsWith_dollar
           Sample.accepts_all (Db.new_Db Sample.bare_schema) Sample.match_all
           Sample.keep_order [[Sample.record 0; Sample.record 1]]
           Sample.nothing_indexed (Db.JObj []) None None
           (test := fun _ => true) eq_refl eq_refl eq_refl eq_refl).
Defined.

Lemma missed_find_with_skip_returns_nothing_witness :
  Sample.find_bare [[Sample.record 0; Sample.record 1]] (Db.JObj []) None
    (Some 1) None
  = Ok ([], Db.JObj []).
Proof.
  exact (missed_find_with_skip_returns_nothing Db.startsWith_dollar
           Sample.accepts_all (Db.new_Db Sample.bare_schema) Sample.match_all
           Sample.keep_order [[Sample.record 0; Sample.record 1]]
           Sample.nothing_indexed (Db.JObj []) None None
           (test := fun _ => true) (le_n 1) (fun _ => eq_refl) eq_refl
           eq_refl eq_refl).
Defined.

Lemma missed_find_returns_matching_records_witness :
  exists res,
    Sample.find_bare [[Sample.record 0]; [Sample.record 1]] (Db.JObj []) None
      (Some 0) (Some 1)
    = Ok (res, Db.JObj [])
    /\ forall r, In r res ->
                 In r (List.concat [[Sample.record 0]; [Sample.record 1]])
                 /\ (fun _ : Db.JValue => true) r = true.
Proof.
  exact (missed_find_returns_matching_records Db.startsWith_dollar
           Sample.accepts_all (Db.new_Db Sample.bare_schema) Sample.match_all
           Sample.keep_order [[Sample.record 0]; [Sample.record 1]]
           Sample.nothing_indexed (Db.JObj []) None (Some 0) (Some 1)
           (test := fun _ => true) (fun _ l => incl_refl l) eq_refl eq_refl
           eq_refl).
Defined.

(** ** The getter [keys] *)

Section Keys.

Local Abbreviation ascending := (fun a b : string => String.leb a b = true).

Lemma insert_sorted_hd (k a : string) (l : list string) :
  ascending a k -> HdRel ascending a l ->
  HdRel ascending a (insert_sorted k l).
Proof.
  intros Hak Hal. destruct l as [|b l]; cbn [insert_sorted].
  - now constructor.
  - destruct (String.leb k b); constructor; [exact Hak|].
    now inversion Hal.
Qed.

Lemma insert_sorted_sorted (k : string) (l : list string) :
  Sorted ascending l -> Sorted ascending (insert_sorted k l).
Proof.
  induction 1 as [|a l Hl IH Ha]; cbn [insert_sorted].
  - repeat constructor.
  - destruct (String.leb k a) eqn:E.
    + constructor; [now constructor|]. now constructor.
    + constructor; [exact IH|]. apply insert_sorted_hd; [|exact Ha].
      destruct (String.leb_total a k) as [H | H]; [exact H|congruence].
Qed.

(** X13.  The getter [keys] lists the tokens of the index in ascending order of
    their character codes and loses or adds none: every token of the Map is
    listed as often as the Map holds it, that is once. *)
Theorem keys_are_sorted {T} (m : JsMap.t string (list T)) :
  Sorted (fun a b => String.leb a b = true) (sort_keys (JsMap.keys m))
  /\ Permutation (sort_keys (JsMap.keys m)) (JsMap.keys m).
Proof.
  split.
  - unfold sort_keys. induction (JsMap.keys m) as [|k l IH]; cbn [fold_right].
    + constructor.
    + now apply insert_sorted_sorted.
  - apply sort_keys_perm.
Qed.

End Keys.

(** ** Queries after an addition *)

Section Growing.
Context {T : Type} {JK : JsKey T}.

Local Abbreviation Index := (NgramIndice T).

Lemma occurrences_grow (post post' : string -> list T) (toks : list string)
    (k : T) :
  (forall t, exists extra, post' t = post t ++ extra) ->
  (occurrences post toks k <= occurrences post' toks k)%Z.
Proof.
  intros H. induction toks as [|t toks IH]; [reflexivity|].
  rewrite !occurrences_cons. destruct (H t) as (extra & ->).
  rewrite count_key_app. lia.
Qed.

(** X7.  An addition hides no key: on a loaded index that keeps its posting
    lists in a Map, every key that a query finds is still found by the same
    query after any call of [add]. *)
Theorem add_hides_no_key (s : Index) (key : T) (v : Value)
    (q : option Value) :
  queryable s ->
  exists found found',
    fst (Ngram.find s q) = Ok found
    /\ fst (Ngram.find (snd (Ngram.add s key v)) q) = Ok found'
    /\ incl found found'.
Proof.
  intros Hq. pose proof Hq as (Hl & m & Hm).
  destruct (add_on_map s key v Hm) as (m' & Hadd & Hget & _).
  rewrite Hadd. cbn [snd].
  set (s' := mkIndice (IMap m') (options s) (loadCalls s)).
  assert (Hq' : queryable s') by (split; [exact Hl|now exists m']).
  set (toks := query_tokens s q).
  destruct (preFilter_queryable toks Hq) as (w & Hrun & Hnd & Hw & Hk).
  destruct (preFilter_queryable toks Hq') as (w' & Hrun' & Hnd' & Hw' & Hk').
  exists (Ngram.postFilter (options s) w toks),
    (Ngram.postFilter (options s) w' toks).
  split; [|split].
  - change (Ngram.find s q)
      with (match Ngram.preFilter s toks with
            | (Ok preResult, s2) =>
                (Ok (Ngram.postFilter (options s2) preResult toks), s2)
            | (Throw e, s2) => (Throw e, s2)
            end).
    now rewrite Hrun.
  - change (Ngram.find s' q)
      with (match Ngram.preFilter s' toks with
            | (Ok preResult, s2) =>
                (Ok (Ngram.postFilter (options s2) preResult toks), s2)
            | (Throw e, s2) => (Throw e, s2)
            end).
    now rewrite Hrun'.
  - intros k.
    rewrite (postFilter_spec _ _ _ _ Hnd), (postFilter_spec _ _ _ _ Hnd').
    rewrite Hk, Hw, Hk', Hw'.
    assert (Hgrow : (occurrences (postings s) toks k
                     <= occurrences (postings s') toks k)%Z).
    { apply occurrences_grow. intros t. eexists.
      unfold postings, s'. cbn [indices]. rewrite Hm. apply Hget. }
    intros [Hpos Hreach]. split; [lia|].
    exact (reaches_mono Hgrow Hreach).
Qed.

End Growing.

Lemma add_hides_no_key_witness :
  exists found found',
    fst (Ngram.find seven_index (Some (VString "abcd"))) = Ok found
    /\ fst (Ngram.find (snd (Ngram.add seven_index 8%Z (VString "abcx")))
              (Some (VString "abcd"))) = Ok found'
    /\ incl found found'.
Proof.
  assert (Hq : queryable seven_index).
  { split; [reflexivity|eexists; reflexivity]. }
  exact (@add_hides_no_key Z _ seven_index 8%Z (VString "abcx")
           (Some (VString "abcd")) Hq).
Defined.

(** ** The limit of a greedy plan *)

Section GreedyLimit.
Import Db.
Variable isOperator : string -> bool.
Variable indice_testIndice : IndexId -> string -> JValue -> bool.
Variable this : Db.
Variable mingo_Query : JValue -> Res (JValue -> bool).
Variable mingo_sort : SortSpec -> list JValue -> list JValue.
Variable primary_cursor : list (list JValue).
Variable scan_indexed :
  ResultIndiceSearch -> (JValue -> bool) -> nat -> option nat ->
  Res (list JValue).

(** X23.  When the plan is greedy, [find] never returns more records than a
    limit of one or more, whether the plan is missed or served by indices
    and whatever the indexed scan hands over. *)
Theorem greedy_find_honours_the_limit criteria sort skip (l : nat) plan c'
    res c2 :
  1 <= l ->
  buildIndexSearch isOperator indice_testIndice this sort (default 0 skip)
    (Some l) None true criteria = Ok (plan, c') ->
  greed (invoke this plan) = true ->
  find isOperator indice_testIndice this mingo_Query mingo_sort
    primary_cursor scan_indexed criteria sort skip (Some l) = Ok (res, c2) ->
  List.length res <= l.
Proof.
  intros Hl Hb Hg. unfold find. rewrite Hb. cbn [bind fst snd].
  destruct (mingo_Query c') as [test|e]; cbn [bind]; [|discriminate].
  destruct (if missed _ then _ else _) as [r|e]; cbn [bind]; [|discriminate].
  intros [= <- _]. unfold finalize. rewrite Hg.
  destruct l as [|n]; [lia|]. cbn [Nat.eqb negb andb].
  set (sorted := match sort with
                 | Some s => mingo_sort s r
                 | None => r
                 end).
  assert (Hcut : List.length (firstn (S n) sorted) <= S n)
    by apply firstn_le_length.
  destruct (negb (Nat.eqb (default 0 skip) 0)); cbn [andb]; [|exact Hcut].
  rewrite length_skipn. lia.
Qed.

End GreedyLimit.

Lemma greedy_find_honours_the_limit_witness :
  Sample.find_bare [[Sample.record 0; Sample.record 1]] (Db.JObj [])
    (Some [("name", Db.Asc)]) None (Some 1)
  = Ok ([Sample.record 0], Db.JObj [])
  /\ List.length [Sample.record 0] <= 1.
Proof.
  split; [reflexivity|].
  exact (greedy_find_honours_the_limit Db.startsWith_dollar
           Sample.accepts_all (Db.new_Db Sample.bare_schema) Sample.match_all
           Sample.keep_order [[Sample.record 0; Sample.record 1]]
           Sample.nothing_indexed (Db.JObj []) (Some [("name", Db.Asc)])
           None (res := [Sample.record 0]) (c2 := Db.JObj [])
           (le_n 1) eq_refl eq_refl eq_refl).
Defined.

(** ** Adding an array of strings *)

Section AddingArrays.
Context {T : Type}.

Local Abbreviation Index := (NgramIndice T).

Lemma add_tokens_app (key : T) (a b : list string)
    (m : JsMap.t string (list T)) :
  Ngram.add_tokens key (a ++ b) (IMap m)
  = ix <- Ngram.add_tokens key a (IMap m) ;; Ngram.add_tokens key b ix.
Proof.
  revert m. induction a as [|t a IH]; intros m; [reflexivity|].
  cbn [app Ngram.add_tokens]. apply IH.
Qed.

Lemma add_tokens_of_map (key : T) (toks : list string)
    (m : JsMap.t string (list T)) :
  exists m', Ngram.add_tokens key toks (IMap m) = Ok (IMap m').
Proof.
  revert m. induction toks as [|t toks IH]; intros m; cbn [Ngram.add_tokens].
  - now exists m.
  - apply IH.
Qed.

(** X24.  On an index that keeps its posting lists in a Map, adding a key
    under an array of strings is adding it under the first string and then
    under the array of the others: the index is left in the same state, so
    that an array is added string by string, in order. *)
Theorem add_array_is_add_each (s : Index) (m : JsMap.t string (list T))
    (key : T) (a : string) (rest : list string) :
  indices s = IMap m ->
  Ngram.add s key (VArray (a :: rest))
  = Ngram.add (snd (Ngram.add s key (VString a))) key (VArray rest).
Proof.
  intros Hm. unfold Ngram.add at 1 3. rewrite Hm.
  cbn [Ngram.tokens_of flat_map]. rewrite add_tokens_app.
  destruct (add_tokens_of_map key (Ngram.tokenizr (options s) a) m)
    as (m1 & H1).
  rewrite H1. cbn [bind snd]. unfold Ngram.add.
  cbn [options indices loadCalls Ngram.tokens_of].
  destruct (add_tokens_of_map key
              (flat_map (Ngram.tokenizr (options s)) rest) m1) as (m2 & H2).
  now rewrite H2.
Qed.

End AddingArrays.

Lemma add_array_is_add_each_witness :
  Ngram.add fresh 7%Z (VArray ["abcd"; "wxyz"])
  = Ngram.add (snd (Ngram.add fresh 7%Z (VString "abcd"))) 7%Z
      (VArray ["wxyz"]).
Proof.
  exact (@add_array_is_add_each Z fresh [] 7%Z "abcd" ["wxyz"] eq_refl).
Defined.

(** ** Queries in flight *)

Section InFlight.
Context {T : Type} {JK : JsKey T}.

Local Abbreviation Index := (NgramIndice T).

(** A call that nothing interrupts is its first step followed at once by
    its second. *)
Lemma load_is_start_then_settle (s : Index) :
  Ngram.load_ s
  = let (a, s1) := Ngram.load_start s in Ngram.load_settle a s1.
Proof.
  unfold Ngram.load_, Ngram.load_start.
  destruct (isLoaded (options s)); [reflexivity|].
  destruct (load (options s)) as [f|]; [|reflexivity].
  cbn [Ngram.load_settle]. now destruct (f (loadCalls s)).
Qed.

Lemma preFilter_is_start_then_settle (s : Index) (toks : list string) :
  Ngram.preFilter s toks
  = let (p, s1) := Ngram.preFilter_start s toks in
    Ngram.preFilter_settle p s1.
Proof.
  unfold Ngram.preFilter, Ngram.preFilter_start, Ngram.preFilter_settle.
  rewrite load_is_start_then_settle.
  now destruct (Ngram.load_start s) as [a s1].
Qed.

Lemma find_is_start_then_settle (s : Index) (v : option Value) :
  Ngram.find s v
  = let (p, s1) := Ngram.find_start s v in Ngram.find_settle p s1.
Proof.
  unfold Ngram.find, Ngram.find_start, Ngram.find_settle.
  rewrite preFilter_is_start_then_settle.
  unfold Ngram.preFilter_start.
  now destruct (Ngram.load_start s) as [a s1].
Qed.

(** Every query started on an index that is not loaded calls the load
    function, whatever else is in flight: nothing records that a load has
    been asked for until its promise resolves. *)
Lemma start_calls_load (s : Index) (f : Loader T) (v : option Value) :
  isLoaded (options s) = false ->
  load (options s) = Some f ->
  let (p, s1) := Ngram.find_start s v in
  Ngram.q_awaited p = Ngram.AwaitLoad (f (loadCalls s))
  /\ loadCalls s1 = S (loadCalls s)
  /\ isLoaded (options s1) = false
  /\ load (options s1) = Some f.
Proof.
  intros Hl Hf. unfold Ngram.find_start, Ngram.preFilter_start,
    Ngram.load_start. rewrite Hl, Hf. cbn. now rewrite Hl, Hf.
Qed.

End InFlight.

(** C6 fails on the code.  On an index that is not loaded and whose load
    function resolves, two queries made one after the other call the load
    function once; when the second is started before the promise of the
    first load has settled, it finds [isLoaded] still unset and calls the
    load function again: both queries answer, and the load function has
    been called twice.  So is it for every index that is not loaded and has
    a load function: each query started before a load resolves adds a
    call. *)
Theorem overlapping_queries_load_twice :
  let q := Some (VString "abcd") in
  (fst (Ngram.find lazy_resolving q) = Ok [1%Z]
   /\ loadCalls (snd (Ngram.find (snd (Ngram.find lazy_resolving q)) q)) = 1)
  /\ (let (p1, s1) := Ngram.find_start lazy_resolving q in
      let (p2, s2) := Ngram.find_start s1 q in
      let (r1, s3) := Ngram.find_settle p1 s2 in
      let (r2, s4) := Ngram.find_settle p2 s3 in
      loadCalls lazy_resolving = 0
      /\ loadCalls s1 = 1 /\ isLoaded (options s1) = false
      /\ loadCalls s2 = 2
      /\ r1 = Ok [1%Z] /\ r2 = Ok [1%Z]
      /\ loadCalls s4 = 2)
  /\ (forall (s : NgramIndice Z) (f : Loader Z) (v1 v2 : option Value),
        isLoaded (options s) = false ->
        load (options s) = Some f ->
        loadCalls (snd (Ngram.find_start (snd (Ngram.find_start s v1)) v2))
        = S (S (loadCalls s))).
Proof.
  cbv zeta. split; [split; reflexivity|]. split.
  - vm_compute. repeat split; reflexivity.
  - intros s f v1 v2 Hl Hf.
    pose proof (start_calls_load s v1 Hl Hf) as H1.
    destruct (Ngram.find_start s v1) as [p1 s1].
    destruct H1 as (_ & Hc1 & Hl1 & Hf1). cbn [snd].
    pose proof (start_calls_load s1 v2 Hl1 Hf1) as H2.
    destruct (Ngram.find_start s1 v2) as [p2 s2].
    destruct H2 as (_ & Hc2 & _). cbn [snd]. now rewrite Hc2, Hc1.
Qed.

(** ** Criteria that compile *)

Section Returning.
Import Db.
Variable isOperator : string -> bool.
Variable indice_testIndice : IndexId -> string -> JValue -> bool.
Variable this : Db.
Variable sort : option SortSpec.
Variable skip : nat.
Variable limit : option nat.

Local Abbreviation build := (buildIndexSearch isOperator indice_testIndice
                               this sort skip limit).
Local Abbreviation compile := (fun p c => build p false c).

(** The compilation of a criteria that holds no [null] returns. *)
Lemma null_free_compiles (criteria : JValue) (path_ : option string)
    (isRoot : bool) :
  null_free criteria = true ->
  exists plan c', build path_ isRoot criteria = Ok (plan, c').
Proof.
  intros Hnf.
  destruct (build path_ isRoot criteria) as [[plan c']|e] eqn:E;
    [now exists plan, c'|exfalso].
  revert Hnf path_ isRoot e E.
  assert (Hclause : forall k v e,
             null_free v = true ->
             (null_free v = true ->
              forall p r e0, build p r v = Throw e0 -> False) ->
             (forall l', v = JArr l' ->
                Forall (fun x => null_free x = true ->
                                 forall p r e0, build p r x = Throw e0 ->
                                                False) l') ->
             isArray v = true
             /\ subCriteria (clause_of compile k v) tt = Throw e
             \/ nested (clause_of compile k v) tt = Throw e ->
             False).
  { intros k v e Hnf Hv Hl [[Harr Hsub] | Hn].
    - destruct v as [| | | |l'|]; try discriminate.
      cbn [clause_of subCriteria] in Hsub.
      destruct (res_map_throws _ _ Hsub) as (x & Hx & Hthrow).
      specialize (Hl l' eq_refl). rewrite Forall_forall in Hl.
      cbn [null_free] in Hnf. rewrite forallb_forall in Hnf.
      exact (Hl x Hx (Hnf x Hx) _ _ _ Hthrow).
    - exact (Hv Hnf _ _ _ Hn). }
  induction criteria as [|b|z|s|l IHl|o IHo] using JValue_deep_ind;
    intros Hnf path_ isRoot e Hrun; [discriminate Hnf|..];
    (destruct (buildIndexSearch_throws _ _ _ _ _ _ _ _ _ Hrun)
      as [[Hnull _] | Hloop]; [discriminate Hnull|]);
    destruct (compile_clauses_throws isOperator indice_testIndice this sort
                skip _ _ _ Hloop) as (c & Hin & Hc);
    (destruct (In_clauses_of _ _ _ _ _ _ _ _ Hin)
      as [(k & v & -> & Hv) | (Harr & r & Hr)];
     [|destruct Hc as [[Harr' _] | Hn]; congruence]);
    try contradiction.
  - rewrite Forall_forall in IHl. destruct (IHl v Hv) as [H1 H2].
    cbn [null_free] in Hnf. rewrite forallb_forall in Hnf.
    exact (Hclause k v e (Hnf v Hv) H1 H2 Hc).
  - rewrite Forall_forall in IHo. destruct (IHo (k, v) Hv) as [H1 H2].
    cbn [null_free] in Hnf. rewrite forallb_forall in Hnf.
    exact (Hclause k v e (Hnf (k, v) Hv) H1 H2 Hc).
Qed.

End Returning.

(** ** [find] and the custom operators *)

Section CustomOperators.
Import Db.
Variable isOperator : string -> bool.
Variable indice_testIndice : IndexId -> string -> JValue -> bool.
Variable sch : Schema.
Variable mingo_Query : JValue -> Res (JValue -> bool).
Variable mingo_sort : SortSpec -> list JValue -> list JValue.
Variable primary_cursor : list (list JValue).
Variable scan_indexed :
  ResultIndiceSearch -> (JValue -> bool) -> nat -> option nat ->
  Res (list JValue).

Local Abbreviation this := (new_Db sch).
Local Abbreviation find_ := (find isOperator indice_testIndice this
                               mingo_Query mingo_sort primary_cursor
                               scan_indexed).
Local Abbreviation build := (buildIndexSearch isOperator indice_testIndice
                               this).

(** C10.  [find] on a criteria object that holds a registered custom
    operator and no [null]: the compilation returns and leaves the object
    with the keys it held less the custom operators, so that the key is no
    longer a key of the object and the object has been changed; whenever
    [find] returns, that is the object it leaves; and [find] does return,
    with that object, as soon as the matcher accepts what is left of the
    criteria and, for a plan that is not missed, the indexed scan
    returns. *)
Theorem find_deletes_custom_operators (entries : list (string * JValue))
    (sort : option SortSpec) (skip limit : option nat) (k : string) :
  In k (map fst entries) ->
  has (customOperators (new_Db sch)) k = true ->
  null_free (JObj entries) = true ->
  exists plan entries',
    build sort (default 0 skip) limit None true (JObj entries)
    = Ok (plan, JObj entries')
    /\ ~ In k (map fst entries')
    /\ map fst entries'
       = filter (fun k' => negb (has (customOperators (new_Db sch)) k'))
           (map fst entries)
    /\ JObj entries' <> JObj entries
    /\ (forall res c2,
          find_ (JObj entries) sort skip limit = Ok (res, c2) ->
          c2 = JObj entries')
    /\ (forall test,
          mingo_Query (JObj entries') = Ok test ->
          (missed (invoke this plan) = false ->
           exists r, scan_indexed (invoke this plan) test (default 0 skip)
                       limit = Ok r) ->
          exists res,
            find_ (JObj entries) sort skip limit = Ok (res, JObj entries')).
Proof.
  intros Hin Hk Hnf.
  destruct (null_free_compiles isOperator indice_testIndice this sort
              (default 0 skip) limit (JObj entries) None true Hnf)
    as (plan & c' & E).
  destruct (buildIndexSearch_keys _ _ _ _ _ _ _ _ _ E)
    as (entries' & -> & Hkeys).
  exists plan, entries'. split; [exact E|].
  assert (Hnot : ~ In k (map fst entries')).
  { rewrite Hkeys. intros H. apply filter_In in H.
    destruct H as [_ H]. now rewrite Hk in H. }
  split; [exact Hnot|]. split; [exact Hkeys|].
  split; [intros [= ->]; now apply Hnot|]. split.
  - intros res c2. unfold find. rewrite E. cbn [bind fst snd].
    destruct (mingo_Query (JObj entries')) as [test|e]; cbn [bind];
      [|discriminate].
    destruct (if missed _ then _ else _) as [r|e]; cbn [bind];
      [|discriminate].
    now intros [= _ <-].
  - intros test Hq Hscan. unfold find. rewrite E. cbn [bind fst snd].
    rewrite Hq. cbn [bind].
    destruct (missed (invoke this plan)) eqn:Hm; cbn [bind]; [eauto|].
    destruct (Hscan eq_refl) as (r & Hr). rewrite Hr. cbn [bind]. eauto.
Qed.

End CustomOperators.

Lemma find_deletes_custom_operators_witness :
  exists res,
    Sample.find_text [[Sample.record 0]]
      (Db.JObj [("$text", Db.JStr "Angoli")]) None None None
    = Ok (res, Db.JObj []).
Proof.
  destruct (find_deletes_custom_operators Db.startsWith_dollar
              Sample.accepts_all Sample.text_schema Sample.match_all
              Sample.keep_order [[Sample.record 0]] Sample.nothing_indexed
              [("$text", Db.JStr "Angoli")] None None None "$text"
              (or_introl eq_refl) eq_refl eq_refl)
    as (plan & entries' & _ & _ & Hkeys & _ & _ & Hfind).
  destruct entries' as [|e entries']; [|discriminate Hkeys].
  apply (Hfind (fun _ => true) eq_refl).
  intros _. exists []. reflexivity.
Defined.

(** ** [find] and a logical combinator without an array *)


Section Misuse.
Import Db.
Variable isOperator : string -> bool.
Variable indice_testIndice : IndexId -> string -> JValue -> bool.
Variable sch : Schema.
Variable sort : option SortSpec.
Variable skip : nat.
Variable limit : option nat.

Local Abbreviation this := (new_Db sch).
Local Abbreviation build := (buildIndexSearch isOperator indice_testIndice
                               this sort skip limit).
Local Abbreviation compile := (fun p c => build p false c).
Local Abbreviation sortIndices := (fst (sort_setup this sort)).
Local Abbreviation run_clauses := (compile_clauses isOperator
                                     indice_testIndice this sortIndices).
Local Abbreviation run_clause := (compile_clause isOperator
                                    indice_testIndice this sortIndices).






End Misuse.

Section MisuseRejected.
Import Db.
Variable isOperator : string -> bool.
Variable indice_testIndice : IndexId -> string -> JValue -> bool.
Variable sch : Schema.
Variable mingo_Query : JValue -> Res (JValue -> bool).
Variable mingo_sort : SortSpec -> list JValue -> list JValue.
Variable primary_cursor : list (list JValue).
Variable scan_indexed :
  ResultIndiceSearch -> (JValue -> bool) -> nat -> option nat ->
  Res (list JValue).

Local Abbreviation this := (new_Db sch).


End MisuseRejected.

